(** * Goedel numbering (godel.py, util/ntheory.py, util/bijection.py,
      util/arithmetic.py): a shallow embedding and its properties.

    Python values are modelled as follows.
    - [int] is [Z] (unbounded); [//] and [%] with a positive divisor are
      [Z.div] and [Z.modulo]; [<<] and [>>] are [Z.shiftl] and [Z.shiftr].
    - [str] is the list of its Unicode code points ([char := N]); the
      non-ASCII constant signs are written by code point.
    - a [dict] is a [gmap]; [d.get(k)] is [d !! k], [d[k] = v] is
      [<[k:=v]> d], [len(d)] is [size d].  Where the iteration order of a
      dict is observable (the argument of [Bijection]), the dict is given
      by its list of items in insertion order.
    - a [list] is a [list]; [l[i]] is [l !! i] and raises [IndexError]
      out of range.
    - an exception is the [Raise] case of [result]; a method that mutates
      [self] returns the new object next to its value.
    - a [while] loop is run by [while_pow], which gives the loop body
      [2 ^ k] iterations; each use comes with a lemma that the budget it is
      given is never exhausted. *)

From Stdlib Require Import ZArith Zdivisibility Lia String Ascii Sorted.
From stdpp Require Import base list sorting gmap.

Local Open Scope Z_scope.

(** ** Python values *)

(** A [str] is the list of its code points. *)
Abbreviation char := N (only parsing).
Abbreviation str := (list N) (only parsing).

(** The code points of an ASCII literal. *)
Definition pystr (s : string) : str := N_of_ascii <$> list_ascii_of_string s.

(** [str(n)] of a non-negative [int] is not needed: error messages that
    format numbers are kept as their template and arguments. *)
Inductive value_error : Type :=
| not_godel_number (i f expected : Z)
    (* "not a Goedel number: prime at index {0} is {1} but should be {2}." *)
| not_prime_power (gnum : Z)
    (* "{0} is not prime, a prime squared, or a prime cubed." *).

Inductive exception : Type :=
| LexicalException (value : str)
| ValueError (msg : value_error)
| IndexError
| TypeError.

Inductive result (E A : Type) : Type :=
| Return (a : A)
| Raise (e : E).
Arguments Return {E A} a.
Arguments Raise {E A} e.

Definition result_bind {E A B} (f : A -> result E B) (m : result E A) : result E B :=
  match m with
  | Return a => f a
  | Raise e => Raise e
  end.

#[global] Instance result_ret {E} : MRet (result E) := fun _ a => Return a.
#[global] Instance result_mbind {E} : MBind (result E) := fun _ _ f m => result_bind f m.

(** A [for] loop whose body may raise, threading the loop state. *)
Fixpoint for_each {E A S : Type} (body : S -> A -> result E S) (s : S) (l : list A)
  : result E S :=
  match l with
  | [] => Return s
  | a :: l' => s' ← body s a; for_each body s' l'
  end.

(** [enumerate(l)], counting from [start]. *)
Fixpoint enumerate_from {A : Type} (start : nat) (l : list A) : list (nat * A) :=
  match l with
  | [] => []
  | a :: l' => (start, a) :: enumerate_from (S start) l'
  end.
Definition enumerate {A : Type} (l : list A) : list (nat * A) := enumerate_from 0 l.

(** [itertools.takewhile]. *)
Fixpoint takewhile {A : Type} (f : A -> bool) (l : list A) : list A :=
  match l with
  | [] => []
  | a :: l' => if f a then a :: takewhile f l' else []
  end.

(** [itertools.groupby] with the default key: runs of equal consecutive
    elements, each with its key. *)
Fixpoint groupby (l : list Z) : list (Z * list Z) :=
  match l with
  | [] => []
  | x :: l' =>
      match groupby l' with
      | (k, v) :: groups =>
          if bool_decide (x = k) then (k, x :: v) :: groups
          else (x, [x]) :: (k, v) :: groups
      | [] => [(x, [x])]
      end
  end.

(** [range(start, stop, step)] for a positive [step], and [range(stop)]. *)
Definition range3 (start stop step : Z) : list Z :=
  (fun k => start + Z.of_nat k * step)
    <$> seq 0 (Z.to_nat ((stop - start + step - 1) / step)).
Definition range (stop : Z) : list Z := range3 0 stop 1.

(** A [while] loop: [body] either gives the next loop state or leaves the
    loop with a result.  [while_pow body k] runs at most [2 ^ k]
    iterations and stops at the first exit. *)
Fixpoint while_pow {S R : Type} (body : S -> S + R) (k : nat) (s : S) : S + R :=
  match k with
  | O => body s
  | Datatypes.S k' =>
      match while_pow body k' s with
      | inl s' => while_pow body k' s'
      | inr r => inr r
      end
  end.

(** ** util/arithmetic.py *)

Definition prod (iterable : list Z) : Z :=
  foldl (fun product n => product * n) 1 iterable.

(** ** util/ntheory.py *)

(** The inner loop of [sieve]: [sieve[j] = False] for every [j] of the
    range. *)
Definition cross_out (sieve : list bool) (js : list Z) : list bool :=
  foldl (fun sieve j => <[Z.to_nat j := false]> sieve) sieve js.

(** The body of the outer loop of [sieve]. *)
Definition sieve_step (lng : Z) (sieve : list bool) (i : Z) : list bool :=
  if negb (sieve !!! Z.to_nat i) then sieve
  else cross_out sieve (range3 (Z.shiftl (i * (i + 3)) 1 + 3) lng (Z.shiftl i 1 + 3)).

(** [sieve(n)].  [int(sqrt(n))] is taken to be the integer square root and
    [int((n / 2) - 1 + n % 2)] is computed exactly, as Python does for the
    arguments below 2^52; for [n >= 2] the truncated value is the floor. *)
Definition sieve (n : Z) : list Z :=
  if n <? 2 then []
  else
    let lng := n / 2 - 1 + n mod 2 in
    let sieve := replicate (Z.to_nat (lng + 1)) true in
    let sieve := foldl (sieve_step lng) sieve (range (Z.shiftr (Z.sqrt n) 1)) in
    let primes :=
      2 :: ((fun i => Z.shiftl i 1 + 3)
              <$> filter (fun i => sieve !!! Z.to_nat i = true) (range lng)) in
    primes.

(** One evaluation of the test and body of the loop of [factor]; the loop
    state is [(factor, n, factors)]. *)
Definition factor_body (st : Z * Z * list Z) : (Z * Z * list Z) + list Z :=
  let '(factor, n, factors) := st in
  if factor <=? n then
    if n mod factor =? 0 then inl (factor, n / factor, factors ++ [factor])
    else inl (factor + 1, n, factors)
  else inr factors.

(** [2 ^ factor_fuel n] exceeds [2 * n], more than the loop ever runs
    (lemma [factor_terminates]). *)
Definition factor_fuel (n : Z) : nat := Z.to_nat (Z.log2 n) + 2.

Definition factor (n : Z) : list Z :=
  match while_pow factor_body (factor_fuel n) (2, n, []) with
  | inr factors => factors
  | inl (_, _, factors) => factors
  end.

(** ** util/bijection.py *)

Section bijection.
Context {K V : Type} `{Countable K, Countable V}.

Record Bijection : Type := {
  mapping : gmap K V;
  inverse : gmap V K
}.

(** [ValueError("duplicate key '{0}' found".format(v))]. *)
Inductive duplicate_key : Type := duplicate_key_found (v : V).

(** The body of the loop over [mapping.items()]. *)
Definition inverse_step (inverse : gmap V K) (item : K * V)
  : result duplicate_key (gmap V K) :=
  let '(k, v) := item in
  if bool_decide (is_Some (inverse !! v)) then Raise (duplicate_key_found v)
  else Return (<[v:=k]> inverse).

(** [Bijection(mapping)]; the argument is given by [mapping.items()]. *)
Definition Bijection_init (items : list (K * V)) : result duplicate_key Bijection :=
  inverse ← for_each inverse_step ∅ items;
  Return {| mapping := list_to_map items; inverse := inverse |}.
End bijection.
Arguments Bijection K V {_ _ _ _}.
Arguments duplicate_key V : clear implicits.

(** [len(b)] of a [Bijection]: [len(self.mapping)]. *)
Definition Bijection_len {K V : Type} `{Countable K, Countable V}
    (self : Bijection K V) : nat :=
  size (mapping self).

(** ** godel.py: configuration *)

Definition UPPERBOUND_OF_PRIMES : Z := 10000.

Definition TICK : char := 96%N.                                  (* ` *)

Definition NUMERICAL_VARIABLES : list str := [[120%N]; [121%N]; [122%N]].  (* x y z *)
Definition SENTNTIAL_VARIABLES : list str := [[112%N]; [113%N]; [114%N]].  (* p q r *)
Definition PREDICATE_VARIABLES : list str := [[80%N]; [81%N]; [82%N]].     (* P Q R *)

(** The dict literal given to [Bijection], in source order. *)
Definition CONSTANT_SIGNS_items : list (str * Z) :=
  [ ([126%N], 1);     (* ~ *)
    ([8744%N], 2);    (* U+2228, or *)
    ([8835%N], 3);    (* U+2283, implies *)
    ([8707%N], 4);    (* U+2203, exists *)
    ([61%N], 5);      (* = *)
    ([48%N], 6);      (* 0 *)
    ([115%N], 7);     (* s *)
    ([40%N], 8);      (* ( *)
    ([41%N], 9);      (* ) *)
    ([44%N], 10);     (* , *)
    ([43%N], 11);     (* + *)
    ([215%N], 12) ].  (* U+00D7, times *)

(** The module-level call [Bijection({...})] returns (lemma
    [CONSTANT_SIGNS_constructed]); the other case is not reached. *)
Definition CONSTANT_SIGNS : Bijection str Z :=
  match Bijection_init CONSTANT_SIGNS_items with
  | Return b => b
  | Raise _ => {| mapping := ∅; inverse := ∅ |}
  end.

Definition PRIME : list Z := sieve UPPERBOUND_OF_PRIMES.

(** [max] of a non-empty collection. *)
Definition max (values : list Z) : Z :=
  match values with
  | [] => 0
  | v :: values' => foldl Z.max v values'
  end.

Definition MAX : Z := max ((map_to_list (mapping CONSTANT_SIGNS)).*2).
Definition PRIME_OFFSET : nat := length (takewhile (fun x => x <? MAX) PRIME).

(** ** godel.py: Lexer *)

Inductive token_type : Type :=
| constant_type     (* "C" *)
| numerical_type    (* "N" *)
| sentntial_type    (* "S" *)
| predicate_type.   (* "P" *)

#[global] Instance token_type_eq_dec : EqDecision token_type.
Proof. solve_decision. Defined.

Definition token : Type := token_type * str.

(** The regular expressions that [Lexer] builds: a character class
    ["[...]"], and a pattern followed by a starred character.  None of the
    configured characters is special inside a class. *)
Inductive regex : Type :=
| char_class (chars : list char)
| then_star (r : regex) (c : char).

(** A greedy match at the start of [s]: the matched text and the rest. *)
Fixpoint regex_match (r : regex) (s : str) : option (str * str) :=
  match r with
  | char_class chars =>
      match s with
      | c :: rest => if bool_decide (c ∈ chars) then Some ([c], rest) else None
      | [] => None
      end
  | then_star r c =>
      match regex_match r s with
      | Some (m, rest) =>
          let run := takewhile (fun x => bool_decide (x = c)) rest in
          Some (m ++ run, drop (length run) rest)
      | None => None
      end
  end.

(** [re.Scanner]: the phrases are tried in order and the first that
    matches gives the token. *)
Fixpoint scanner_match (lexicon : list (regex * token_type)) (s : str)
  : option (token * str) :=
  match lexicon with
  | [] => None
  | (phrase, ty) :: lexicon' =>
      match regex_match phrase s with
      | Some (tok, rest) => Some ((ty, tok), rest)
      | None => scanner_match lexicon' s
      end
  end.

(** The loop of [re.Scanner.scan]: it stops at the first position where
    nothing matches, or on an empty match.  Every other iteration consumes
    a character, so [S (length string)] iterations are all it can make. *)
Fixpoint scanner_loop (fuel : nat) (lexicon : list (regex * token_type))
    (s : str) (result : list token) : list token * str :=
  match fuel with
  | O => (result, s)
  | S fuel' =>
      match scanner_match lexicon s with
      | None => (result, s)
      | Some ((ty, tok), rest) =>
          if bool_decide (tok = []) then (result, s)
          else scanner_loop fuel' lexicon rest (result ++ [(ty, tok)])
      end
  end.

Definition Scanner_scan (lexicon : list (regex * token_type)) (string : str)
  : list token * str :=
  scanner_loop (S (length string)) lexicon string [].

(** The four patterns of a [Lexer]; the fields for the variables carry a
    prefix, their names being those of the maps of [State]. *)
Record Lexer : Type := {
  constant_signs : regex;
  lexer_numerical_variables : regex;
  lexer_sentntial_variables : regex;
  lexer_predicate_variables : regex
}.

Definition match_any (iterable : list str) : regex := char_class (concat iterable).

Definition match_any_with_ticks (iterable : list str) : regex :=
  then_star (match_any iterable) TICK.

Definition Lexer_init : Lexer := {|
  constant_signs := match_any (map_to_list (mapping CONSTANT_SIGNS)).*1;
  lexer_numerical_variables := match_any_with_ticks NUMERICAL_VARIABLES;
  lexer_sentntial_variables := match_any_with_ticks SENTNTIAL_VARIABLES;
  lexer_predicate_variables := match_any_with_ticks PREDICATE_VARIABLES
|}.

Definition lexical_message (remainder : str) : str :=
  pystr "Error lexing input near " ++ remainder ++ pystr "...".

(** The lexicon of the [Scanner] that [scan] builds. *)
Definition Lexer_scanner (self : Lexer) : list (regex * token_type) :=
  [ (constant_signs self, constant_type);
    (lexer_numerical_variables self, numerical_type);
    (lexer_sentntial_variables self, sentntial_type);
    (lexer_predicate_variables self, predicate_type) ].

Definition Lexer_scan (self : Lexer) (string : str) : result exception (list token) :=
  let scanner := Lexer_scanner self in
  let '(tokens, remainder) := Scanner_scan scanner string in
  if bool_decide (remainder ≠ []) then
    let remainder := if bool_decide (10 < length remainder)%nat then take 10 remainder
                     else remainder in
    Raise (LexicalException (lexical_message remainder))
  else Return tokens.

(** ** godel.py: State *)

(** One class serves both directions: [encode] keys its maps by lexeme and
    stores codes, [decode] keys them by code and stores lexemes. *)
Record State (K V : Type) `{Countable K} : Type := {
  encoding : list (option Z);
  numerical_variables : gmap K V;
  sentntial_variables : gmap K V;
  predicate_variables : gmap K V
}.
Arguments encoding {K V _ _} s.
Arguments numerical_variables {K V _ _} s.
Arguments sentntial_variables {K V _ _} s.
Arguments predicate_variables {K V _ _} s.

Definition State_init {K V : Type} `{Countable K} : State K V := {|
  encoding := [];
  numerical_variables := ∅;
  sentntial_variables := ∅;
  predicate_variables := ∅
|}.

(** [PRIME[i]]. *)
Definition PRIME_at (i : nat) : result exception Z :=
  match PRIME !! i with
  | Some p => Return p
  | None => Raise IndexError
  end.

(** [pool[count % poollen] + TICK * ticks]; the pools are not empty. *)
Definition next_var_name {K : Type} `{Countable K}
    (assigned : gmap K str) (pool : list str) : str :=
  let poollen := length pool in
  let count := size assigned in
  let ticks := (count / poollen)%nat in
  let name := pool !!! (count mod poollen)%nat ++ replicate ticks TICK in
  name.

Definition encode_constant_sign (self : State str Z) (symbol : str)
  : result exception (option Z * State str Z) :=
  Return (mapping CONSTANT_SIGNS !! symbol, self).

(** [if gnum:] holds when the lookup found a code other than 0. *)
Definition found_code (gnum : option Z) : option Z :=
  match gnum with
  | Some g => if g =? 0 then None else Some g
  | None => None
  end.

Definition encode_numerical_variable (self : State str Z) (symbol : str)
  : result exception (option Z * State str Z) :=
  match found_code (numerical_variables self !! symbol) with
  | Some gnum => Return (Some gnum, self)
  | None =>
      gnum ← PRIME_at (PRIME_OFFSET + size (numerical_variables self));
      Return (Some gnum,
              {| encoding := encoding self;
                 numerical_variables := <[symbol:=gnum]> (numerical_variables self);
                 sentntial_variables := sentntial_variables self;
                 predicate_variables := predicate_variables self |})
  end.

Definition encode_sentntial_variable (self : State str Z) (symbol : str)
  : result exception (option Z * State str Z) :=
  match found_code (sentntial_variables self !! symbol) with
  | Some gnum => Return (Some gnum, self)
  | None =>
      p ← PRIME_at (PRIME_OFFSET + size (sentntial_variables self));
      let gnum := p ^ 2 in
      Return (Some gnum,
              {| encoding := encoding self;
                 numerical_variables := numerical_variables self;
                 sentntial_variables := <[symbol:=gnum]> (sentntial_variables self);
                 predicate_variables := predicate_variables self |})
  end.

(** As in the source, this method works on [sentntial_variables]. *)
Definition encode_predicate_variable (self : State str Z) (symbol : str)
  : result exception (option Z * State str Z) :=
  match found_code (sentntial_variables self !! symbol) with
  | Some gnum => Return (Some gnum, self)
  | None =>
      p ← PRIME_at (PRIME_OFFSET + size (sentntial_variables self));
      let gnum := p ^ 3 in
      Return (Some gnum,
              {| encoding := encoding self;
                 numerical_variables := numerical_variables self;
                 sentntial_variables := <[symbol:=gnum]> (sentntial_variables self);
                 predicate_variables := predicate_variables self |})
  end.

(** [if symbol:] holds when the lookup found a non-empty string. *)
Definition found_symbol (symbol : option str) : option str :=
  match symbol with
  | Some [] => None
  | Some s => Some s
  | None => None
  end.

Definition decode_numerical_variable (self : State Z str) (gnum : Z)
  : str * State Z str :=
  match found_symbol (numerical_variables self !! gnum) with
  | Some symbol => (symbol, self)
  | None =>
      let symbol := next_var_name (numerical_variables self) NUMERICAL_VARIABLES in
      (symbol,
       {| encoding := encoding self;
          numerical_variables := <[gnum:=symbol]> (numerical_variables self);
          sentntial_variables := sentntial_variables self;
          predicate_variables := predicate_variables self |})
  end.

Definition decode_sentential_variable (self : State Z str) (gnum : Z)
  : str * State Z str :=
  match found_symbol (sentntial_variables self !! gnum) with
  | Some symbol => (symbol, self)
  | None =>
      let symbol := next_var_name (sentntial_variables self) SENTNTIAL_VARIABLES in
      (symbol,
       {| encoding := encoding self;
          numerical_variables := numerical_variables self;
          sentntial_variables := <[gnum:=symbol]> (sentntial_variables self);
          predicate_variables := predicate_variables self |})
  end.

Definition decode_predicate_variable (self : State Z str) (gnum : Z)
  : str * State Z str :=
  match found_symbol (predicate_variables self !! gnum) with
  | Some symbol => (symbol, self)
  | None =>
      let symbol := next_var_name (predicate_variables self) PREDICATE_VARIABLES in
      (symbol,
       {| encoding := encoding self;
          numerical_variables := numerical_variables self;
          sentntial_variables := sentntial_variables self;
          predicate_variables := <[gnum:=symbol]> (predicate_variables self) |})
  end.

(** ** godel.py: encode *)

(** [lexmap[token_type]]. *)
Definition lexmap (token_type : token_type)
  : State str Z -> str -> result exception (option Z * State str Z) :=
  match token_type with
  | constant_type => encode_constant_sign
  | numerical_type => encode_numerical_variable
  | sentntial_type => encode_sentntial_variable
  | predicate_type => encode_predicate_variable
  end.

(** The body of the loop over the tokens. *)
Definition encode_token (state : State str Z) (tok : token)
  : result exception (State str Z) :=
  let '(token_type, lexeme) := tok in
  let lookup := lexmap token_type in
  '(gnum, state) ← lookup state lexeme;
  Return {| encoding := encoding state ++ [gnum];
            numerical_variables := numerical_variables state;
            sentntial_variables := sentntial_variables state;
            predicate_variables := predicate_variables state |}.

(** [PRIME[idx]**gnum]; a [None] exponent is a [TypeError].  The codes are
    never negative, where [**] would leave the integers. *)
Definition prime_power (item : nat * option Z) : result exception Z :=
  let '(idx, gnum) := item in
  p ← PRIME_at idx;
  match gnum with
  | Some gnum => Return (p ^ gnum)
  | None => Raise TypeError
  end.

(** The elements of a generator, up to the first one that raises. *)
Fixpoint generate {A B : Type} (f : A -> result exception B) (l : list A)
  : result exception (list B) :=
  match l with
  | [] => Return []
  | a :: l' => b ← f a; bs ← generate f l'; Return (b :: bs)
  end.

Definition encode (string : str) : result exception Z :=
  if bool_decide (string = []) then Return 0
  else
    let state : State str Z := State_init in
    let lexer := Lexer_init in
    tokens ← Lexer_scan lexer string;
    state ← for_each encode_token state tokens;
    powers ← generate prime_power (enumerate (encoding state));
    Return (prod powers).

(** ** godel.py: decode *)

(** The symbol of the code [gnum] at one position: a constant sign, or a
    variable named by [state]. *)
Definition decode_code (state : State Z str) (gnum : Z)
  : result exception (str * State Z str) :=
  match found_symbol (inverse CONSTANT_SIGNS !! gnum) with
  | Some symbol => Return (symbol, state)
  | None =>
      if bool_decide (gnum ∈ PRIME) then Return (decode_numerical_variable state gnum)
      else
        let factors := factor gnum in
        if bool_decide (size (list_to_set factors : gset Z) ≠ 1%nat) then
          Raise (ValueError (not_prime_power gnum))
        else if bool_decide (length factors = 2%nat)
                && bool_decide (factors !!! 0%nat ∈ PRIME) then
          Return (decode_sentential_variable state gnum)
        else if bool_decide (length factors = 3%nat)
                && bool_decide (factors !!! 0%nat ∈ PRIME) then
          Return (decode_predicate_variable state gnum)
        else Raise (ValueError (not_prime_power gnum))
  end.

(** The body of the loop over the grouped factors; the loop state is the
    list of symbols and the [State]. *)
Definition decode_factor (st : list str * State Z str) (item : nat * (Z * Z))
  : result exception (list str * State Z str) :=
  let '(symbols, state) := st in
  let '(i, (f, gnum)) := item in
  p ← PRIME_at i;
  if bool_decide (p ≠ f) then Raise (ValueError (not_godel_number (Z.of_nat i) f p))
  else
    '(symbol, state) ← decode_code state gnum;
    Return (symbols ++ [symbol], state).

(** The generator [((k, len(list(v))) for k, v in groupby(factor(number)))]. *)
Definition grouped_factors (number : Z) : list (Z * Z) :=
  (fun '(k, v) => (k, Z.of_nat (length v))) <$> groupby (factor number).

Definition decode (number : Z) : result exception str :=
  if bool_decide (number = 0) then Return []
  else
    let state : State Z str := State_init in
    let symbols : list str := [] in
    let factors := grouped_factors number in
    '(symbols, _) ← for_each decode_factor (symbols, state) (enumerate factors);
    Return (concat symbols).

(** [decode(encode(s))]. *)
Definition decode_encode (s : str) : result exception str :=
  number ← encode s; decode number.

(** * Specification *)

(** ** The vocabulary of the claims *)

(** The characters of the class of the constant signs. *)
Definition constant_chars : list char :=
  concat (map_to_list (mapping CONSTANT_SIGNS)).*1.

(** The shape of the tokens of the lexer. *)
Inductive token_wf : token -> Prop :=
| wf_constant c :
    c ∈ constant_chars -> token_wf (constant_type, [c])
| wf_numerical c k :
    c ∈ concat NUMERICAL_VARIABLES -> token_wf (numerical_type, c :: replicate k TICK)
| wf_sentntial c k :
    c ∈ concat SENTNTIAL_VARIABLES -> token_wf (sentntial_type, c :: replicate k TICK)
| wf_predicate c k :
    c ∈ concat PREDICATE_VARIABLES -> token_wf (predicate_type, c :: replicate k TICK).

(** The [i]-th name that [decode] gives in a class. *)
Definition var_name (pool : list str) (i : nat) : str :=
  pool !!! (i mod length pool)%nat ++ replicate (i / length pool)%nat TICK.

(** The lexemes of a class: a letter of the pool and tick marks. *)
Definition is_lexeme (pool : list str) (l : str) : Prop :=
  exists c k, c ∈ concat pool /\ l = c :: replicate k TICK.

(** The lexemes of one class among the tokens, in order. *)
Definition lexemes_of (ty : token_type) (tokens : list token) : list str :=
  (filter (fun t => t.1 = ty) tokens).*2.

(** The list of the lexemes met, after one more. *)
Definition seen_step (seen : list str) (l : str) : list str :=
  if bool_decide (l ∈ seen) then seen else seen ++ [l].

(** The lexemes of the class [ty] met after [tokens], from those in
    [seen]. *)
Definition seen_after (ty : token_type) (seen : list str) (tokens : list token)
  : list str :=
  foldl seen_step seen (lexemes_of ty tokens).

(** The distinct elements of a list, in the order of their first
    occurrence. *)
Definition first_seen (ls : list str) : list str := foldl seen_step [] ls.

(** In the class [ty], the [i]-th distinct lexeme in order of first
    occurrence is the [i mod K]-th letter of the pool followed by
    [i div K] ticks. *)
Definition canonical (pool : list str) (ty : token_type) (tokens : list token) : Prop :=
  forall i l, first_seen (lexemes_of ty tokens) !! i = Some l -> l = var_name pool i.

(** ** Inputs of the examples *)

(** The state of [encode] after the single token [p]. *)
Definition state_after_p : State str Z :=
  {| encoding := [Some 169];
     numerical_variables := ∅;
     sentntial_variables := {[ pystr "p" := 169 ]};
     predicate_variables := ∅ |}.

(** The second test string of the source,
    [(] [U+2203] [pPx)(x=sy)]. *)
Definition test_string2 : str :=
  [40; 8707; 112; 80; 120; 41; 40; 120; 61; 115; 121; 41]%N.

Definition test_tokens2 : list token :=
  [ (constant_type, [40%N]); (constant_type, [8707%N]); (sentntial_type, [112%N]);
    (predicate_type, [80%N]); (numerical_type, [120%N]); (constant_type, [41%N]);
    (constant_type, [40%N]); (numerical_type, [120%N]); (constant_type, [61%N]);
    (constant_type, [115%N]); (numerical_type, [121%N]); (constant_type, [41%N]) ].

(** ["(x=sy)"] followed by ["p"]. *)
Definition test_tokens3 : list token :=
  [ (constant_type, pystr "("); (numerical_type, pystr "x"); (constant_type, pystr "=");
    (constant_type, pystr "s"); (numerical_type, pystr "y"); (constant_type, pystr ")");
    (sentntial_type, pystr "p") ].

(** The first [n] names of the numerical variables, as tokens and as
    text. *)
Definition numerical_names (n : nat) : list str :=
  var_name NUMERICAL_VARIABLES <$> seq 0 n.

Definition numerical_tokens (n : nat) : list token :=
  (fun l => (numerical_type, l)) <$> numerical_names n.

(** A map with as many entries as there are primes from [PRIME_OFFSET]
    on, and a state that holds it. *)
Definition full_map : gmap str Z :=
  list_to_map ((fun l : str => (l, 13)) <$> numerical_names 1224).

Definition full_state : State str Z :=
  {| encoding := [];
     numerical_variables := full_map;
     sentntial_variables := full_map;
     predicate_variables := ∅ |}.

(** The state of [encode] after the tokens [x] and [p]. *)
Definition state_after_x_p : State str Z :=
  {| encoding := [Some 13; Some 169];
     numerical_variables := {[ pystr "x" := 13 ]};
     sentntial_variables := {[ pystr "p" := 169 ]};
     predicate_variables := ∅ |}.

(** [string.ascii_lowercase], and the dict
    [{ k : v for k, v in enumerate(abc) }] of tests/test_bijection.py by its
    items; iterating over a [str] gives its characters as strings. *)
Definition ascii_lowercase : str := pystr "abcdefghijklmnopqrstuvwxyz".

Definition alphabet_items : list (nat * str) :=
  enumerate ((fun c => [c]) <$> ascii_lowercase).

(** [{ v : k for k, v in enumerate(abc) }]. *)
Definition inverse_alphabet_items : list (str * nat) :=
  (fun '(k, v) => (v, k)) <$> alphabet_items.

(** ** Invariants of the loops *)

(** The invariant of the loop of [factor n0]: what is left of [n0] has no
    divisor below the trial divisor, and the factors found are primes up
    to it, in order. *)
Definition factor_inv (n0 : Z) (st : Z * Z * list Z) : Prop :=
  let '(f, n, fs) := st in
  2 <= f /\ 1 <= n /\ prod fs * n = n0 /\
  Forall Z.prime fs /\ Forall (fun p => p <= f) fs /\ StronglySorted Z.le fs /\
  (forall d, 2 <= d < f -> ~ (d | n)).

Definition factor_post (n0 : Z) (fs : list Z) : Prop :=
  Forall Z.prime fs /\ StronglySorted Z.le fs /\ prod fs = n0.

Definition factor_mu (st : Z * Z * list Z) : Z :=
  let '(f, n, _) := st in 2 * n - f.

(** Candidate [2 * j + 3] is crossed out by one of the first [I] odd
    numbers from 3 on: it is a multiple of it, from its square on. *)
Definition crossed (I j : Z) : Prop :=
  exists i m, 0 <= i < I /\ 2 * i + 3 <= m /\ 2 * j + 3 = (2 * i + 3) * m.

Definition sieve_inv (lng I : Z) (sieve : list bool) : Prop :=
  length sieve = Z.to_nat (lng + 1) /\
  forall j, 0 <= j < lng -> sieve !!! Z.to_nat j = false <-> crossed I j.

(** The factors of [p1^c1 * p2^c2 * ...], in order. *)
Fixpoint expand (primes codes : list Z) : list Z :=
  match primes, codes with
  | p :: primes', c :: codes' => replicate (Z.to_nat c) p ++ expand primes' codes'
  | _, _ => []
  end.

(** [q] is the prime that [encode] takes for the variable entered when
    its map holds [k] entries.  (An inductive wrapper keeps the table out
    of the way of the automation.) *)
Inductive code_prime (k : nat) (q : Z) : Prop :=
| code_prime_intro : PRIME !! (PRIME_OFFSET + k)%nat = Some q -> code_prime k q.

(** [PRIME] has primes for [n] variables kept in one map. *)
Inductive has_room (n : nat) : Prop :=
| has_room_intro : (PRIME_OFFSET + n <= length PRIME)%nat -> has_room n.

(** Two classes of lexemes that [encode] keeps in one map [E], with codes
    [q ^ e1] and [q ^ e2] of the primes [q] taken in order from
    [PRIME_OFFSET], and the maps [D1] and [D2] in which [decode] names
    their codes.  [seen1] and [seen2] list the lexemes met so far, in
    order: [decode] has given each code the lexeme it came from. *)
Definition shared_inv (e1 e2 : Z) (pool1 pool2 : list str)
    (E : gmap str Z) (D1 D2 : gmap Z str) (seen1 seen2 : list str) : Prop :=
  size E = (length seen1 + length seen2)%nat /\
  size D1 = length seen1 /\ size D2 = length seen2 /\
  (forall l, is_Some (E !! l) <-> l ∈ seen1 \/ l ∈ seen2) /\
  (forall l g, E !! l = Some g ->
     exists k q, (k < size E)%nat /\ code_prime k q /\
       ((l ∈ seen1 /\ g = q ^ e1 /\ D1 !! g = Some l) \/
        (l ∈ seen2 /\ g = q ^ e2 /\ D2 !! g = Some l))) /\
  (forall g l, D1 !! g = Some l -> E !! l = Some g /\ l ∈ seen1) /\
  (forall g l, D2 !! g = Some l -> E !! l = Some g /\ l ∈ seen2) /\
  Forall (is_lexeme pool1) seen1 /\ Forall (is_lexeme pool2) seen2.

(** What [encode] and [decode] have met of the tokens read so far. *)
Definition roundtrip_inv (E : State str Z) (D : State Z str)
    (seenN seenS seenP : list str) : Prop :=
  shared_inv 1 1 NUMERICAL_VARIABLES []
    (numerical_variables E) (numerical_variables D) ∅ seenN [] /\
  shared_inv 2 3 SENTNTIAL_VARIABLES PREDICATE_VARIABLES
    (sentntial_variables E) (sentntial_variables D) (predicate_variables D) seenS seenP.

(** The tokens can be read from the point where the lexemes in the three
    lists have been met: a new variable has the next name of its class,
    and a prime is left for it. *)
Fixpoint admissible (seenN seenS seenP : list str) (tokens : list token) : Prop :=
  match tokens with
  | [] => True
  | (constant_type, _) :: rest => admissible seenN seenS seenP rest
  | (numerical_type, l) :: rest =>
      (l ∈ seenN \/
       l = var_name NUMERICAL_VARIABLES (length seenN) /\
       has_room (S (length seenN))) /\
      admissible (seen_step seenN l) seenS seenP rest
  | (sentntial_type, l) :: rest =>
      (l ∈ seenS \/
       l = var_name SENTNTIAL_VARIABLES (length seenS) /\
       has_room (S (length seenS + length seenP))) /\
      admissible seenN (seen_step seenS l) seenP rest
  | (predicate_type, l) :: rest =>
      (l ∈ seenP \/
       l = var_name PREDICATE_VARIABLES (length seenP) /\
       has_room (S (length seenS + length seenP))) /\
      admissible seenN seenS (seen_step seenP l) rest
  end.

(** ** The codes of [encode], the lexemes of [decode], and the renaming
       of variables *)

(** The pattern of the three methods that give a variable its code: the
    code found under [symbol], or the next prime of the table raised to
    the power [e] of the class, entered under [symbol]. *)
Definition lookup_or_assign (e : Z) (m : gmap str Z) (symbol : str)
  : result exception (Z * gmap str Z) :=
  match found_code (m !! symbol) with
  | Some gnum => Return (gnum, m)
  | None =>
      p ← PRIME_at (PRIME_OFFSET + size m);
      Return (p ^ e, <[symbol := p ^ e]> m)
  end.

(** What [encode] keeps in one of its maps: every key is a lexeme of one
    of the classes [pools], its code is the power of the class of one of
    the primes handed out so far, and no code is given twice. *)
Definition class_codes (pools : list (list str * Z)) (m : gmap str Z) : Prop :=
  (forall l g, m !! l = Some g ->
     exists k q pool e, (k < size m)%nat /\ code_prime k q /\
       (pool, e) ∈ pools /\ is_lexeme pool l /\ g = q ^ e) /\
  (forall l1 l2 g, m !! l1 = Some g -> m !! l2 = Some g -> l1 = l2).

Definition encode_inv (st : State str Z) : Prop :=
  class_codes [(NUMERICAL_VARIABLES, 1)] (numerical_variables st) /\
  class_codes [(SENTNTIAL_VARIABLES, 2); (PREDICATE_VARIABLES, 3)] (sentntial_variables st) /\
  predicate_variables st = ∅.

(** The code of a token of each class, as the source describes them. *)
Definition code_of_class (tok : token) (g : Z) : Prop :=
  match tok.1 with
  | constant_type => mapping CONSTANT_SIGNS !! tok.2 = Some g
  | numerical_type => g ∈ PRIME /\ 12 < g
  | sentntial_type => exists q, q ∈ PRIME /\ 12 < q /\ g = q ^ 2
  | predicate_type => exists q, q ∈ PRIME /\ 12 < q /\ g = q ^ 3
  end.

(** What [decode] keeps in its maps: lexemes of the class of each map. *)
Definition decode_inv (st : State Z str) : Prop :=
  map_Forall (fun _ l => is_lexeme NUMERICAL_VARIABLES l) (numerical_variables st) /\
  map_Forall (fun _ l => is_lexeme SENTNTIAL_VARIABLES l) (sentntial_variables st) /\
  map_Forall (fun _ l => is_lexeme PREDICATE_VARIABLES l) (predicate_variables st).

(** The position of the first [l] in [seen]. *)
Fixpoint index_of (l : str) (seen : list str) : nat :=
  match seen with
  | [] => 0
  | x :: seen' => if bool_decide (x = l) then 0 else S (index_of l seen')
  end.

(** The first [n] names that [decode] gives in a class. *)
Definition names (pool : list str) (n : nat) : list str := var_name pool <$> seq 0 n.

(** A token with its variable renamed: the [i]-th of the distinct lexemes
    of its class gets the [i]-th name of the class. *)
Definition rename_token (seenN seenS seenP : list str) (tok : token) : token :=
  match tok.1 with
  | constant_type => tok
  | numerical_type =>
      (numerical_type, var_name NUMERICAL_VARIABLES (index_of tok.2 seenN))
  | sentntial_type =>
      (sentntial_type, var_name SENTNTIAL_VARIABLES (index_of tok.2 seenS))
  | predicate_type =>
      (predicate_type, var_name PREDICATE_VARIABLES (index_of tok.2 seenP))
  end.

(** The tokens with the variables of each class renamed in the order of
    their first occurrence. *)
Definition canonical_form (tokens : list token) : list token :=
  rename_token (first_seen (lexemes_of numerical_type tokens))
               (first_seen (lexemes_of sentntial_type tokens))
               (first_seen (lexemes_of predicate_type tokens)) <$> tokens.

(** [l'] is the name of the lexeme [l], one of those of two classes met
    so far. *)
Definition Rel2 (pool1 seen1 pool2 seen2 : list str) (l l' : str) : Prop :=
  (exists i, seen1 !! i = Some l /\ l' = var_name pool1 i) \/
  (exists j, seen2 !! j = Some l /\ l' = var_name pool2 j).

(** Two maps of [encode] that hold the same codes, under keys related by
    [R]. *)
Definition renamed (R : str -> str -> Prop) (m m' : gmap str Z) : Prop :=
  size m = size m' /\
  (forall l, is_Some (m !! l) -> exists l', R l l') /\
  (forall l', is_Some (m' !! l') -> exists l, R l l') /\
  (forall l l', R l l' -> is_Some (m !! l) /\ m !! l = m' !! l') /\
  (forall l g, m !! l = Some g -> g ≠ 0).

(** [encode] on a sequence of tokens and on its renaming, side by side. *)
Definition sim (E E' : State str Z) (seenN seenS seenP : list str) : Prop :=
  renamed (Rel2 NUMERICAL_VARIABLES seenN [] []) (numerical_variables E)
    (numerical_variables E') /\
  size (numerical_variables E) = (length seenN + 0)%nat /\
  renamed (Rel2 SENTNTIAL_VARIABLES seenS PREDICATE_VARIABLES seenP)
    (sentntial_variables E) (sentntial_variables E') /\
  size (sentntial_variables E) = (length seenS + length seenP)%nat /\
  Forall (is_lexeme SENTNTIAL_VARIABLES) seenS /\
  Forall (is_lexeme PREDICATE_VARIABLES) seenP.

(** * Properties *)

(** ** Loops *)

Section while_rule.
Context {S R : Type} (body : S -> S + R).
Context (Inv : S -> Prop) (Post : R -> Prop) (mu : S -> Z).
Hypothesis body_step : forall s, Inv s ->
  match body s with
  | inl s' => Inv s' /\ 0 <= mu s /\ mu s' < mu s
  | inr r => Post r
  end.

Lemma while_pow_progress k s :
  Inv s ->
  match while_pow body k s with
  | inl s' => Inv s' /\ mu s' + 2 ^ Z.of_nat k <= mu s /\ 2 ^ Z.of_nat k <= mu s + 1
  | inr r => Post r
  end.
Proof.
  revert s. induction k as [|k IH]; intros s Hs.
  - cbn [while_pow]. pose proof (body_step s Hs) as Hstep.
    destruct (body s); [|done]. change (2 ^ Z.of_nat 0) with 1.
    destruct Hstep as (? & ? & ?). repeat split; [done|lia..].
  - cbn [while_pow]. pose proof (IH s Hs) as H1.
    destruct (while_pow body k s) as [s1|r]; [|done].
    destruct H1 as (Hs1 & Hmu1 & Hk1). pose proof (IH s1 Hs1) as H2.
    destruct (while_pow body k s1) as [s2|r]; [|done].
    destruct H2 as (Hs2 & Hmu2 & Hk2).
    rewrite Nat2Z.inj_succ, Z.pow_succ_r by lia.
    repeat split; [done|lia..].
Qed.

(** A loop with invariant [Inv] and variant [mu] leaves within any
    budget above the variant, and establishes [Post]. *)
Lemma while_pow_rule k s :
  Inv s -> mu s + 1 < 2 ^ Z.of_nat k ->
  exists r, while_pow body k s = inr r /\ Post r.
Proof.
  intros Hs Hk. pose proof (while_pow_progress k s Hs) as Hp.
  destruct (while_pow body k s) as [s'|r]; [lia|eauto].
Qed.
End while_rule.

(** ** util/arithmetic.py *)

Lemma prod_acc (l : list Z) (a : Z) :
  foldl (fun product n => product * n) a l = a * prod l.
Proof.
  unfold prod. revert a. induction l as [|x l IH]; intros a; cbn [foldl].
  - lia.
  - rewrite IH, (IH (1 * x)). lia.
Qed.

Lemma prod_nil : prod [] = 1.
Proof. reflexivity. Qed.

Lemma prod_cons x l : prod (x :: l) = x * prod l.
Proof. unfold prod at 1. cbn [foldl]. rewrite prod_acc. lia. Qed.

Lemma prod_app l1 l2 : prod (l1 ++ l2) = prod l1 * prod l2.
Proof.
  induction l1 as [|x l1 IH]; cbn [app].
  - rewrite prod_nil. lia.
  - rewrite !prod_cons, IH. lia.
Qed.

Lemma prod_replicate (k : nat) (p : Z) : prod (replicate k p) = p ^ Z.of_nat k.
Proof.
  induction k as [|k IH]; [reflexivity|].
  cbn [replicate]. rewrite prod_cons, IH, Nat2Z.inj_succ, Z.pow_succ_r by lia. done.
Qed.

Lemma prod_primes_pos l : Forall Z.prime l -> 1 <= prod l.
Proof.
  induction 1 as [|p l Hp _ IH]; [rewrite prod_nil; lia|].
  rewrite prod_cons. apply Z.prime_ge_2 in Hp.
  pose proof (Z.mul_le_mono_nonneg 1 p 1 (prod l)). lia.
Qed.

(** ** util/ntheory.py: factor *)

Lemma StronglySorted_snoc_le (l : list Z) (x : Z) :
  StronglySorted Z.le l -> Forall (fun p => p <= x) l -> StronglySorted Z.le (l ++ [x]).
Proof.
  intros Hl Hx. apply StronglySorted_app_2; [|done|repeat constructor].
  intros a b Ha Hb. apply list_elem_of_singleton in Hb as ->.
  by apply (proj1 (Forall_forall _ _) Hx).
Qed.

Lemma factor_body_step n0 st :
  factor_inv n0 st ->
  match factor_body st with
  | inl st' => factor_inv n0 st' /\ 0 <= factor_mu st /\ factor_mu st' < factor_mu st
  | inr fs => factor_post n0 fs
  end.
Proof.
  destruct st as [[f n] fs]. intros (Hf & Hn & Hprod & Hpr & Hle & Hsort & Hdiv).
  unfold factor_body. destruct (Z.leb_spec f n) as [Hfn|Hfn].
  - destruct (Z.eqb_spec (n mod f) 0) as [Hmod|Hmod].
    + apply Z.mod_divide in Hmod; [|lia]. destruct Hmod as [q Hq].
      assert (Hqn : n / f = q) by (subst n; apply Z.div_mul; lia).
      assert (1 <= q) by nia. rewrite Hqn.
      unfold factor_inv, factor_mu. repeat split; try lia.
      * rewrite prod_app, prod_cons, prod_nil. subst n. lia.
      * apply Forall_app. split; [done|]. constructor; [|constructor].
        split; [lia|]. intros d Hd Hdf. apply (Hdiv d); [lia|].
        etrans; [exact Hdf|]. exists q. lia.
      * apply Forall_app. split; [done|]. constructor; [lia|constructor].
      * by apply StronglySorted_snoc_le.
      * intros d Hd Hdq. apply (Hdiv d Hd). etrans; [exact Hdq|]. exists f. lia.
      * nia.
    + unfold factor_inv, factor_mu. repeat split; try lia; try done.
      * eapply Forall_impl; [exact Hle|]. intros; cbn in *; lia.
      * intros d Hd Hdn. destruct (decide (d = f)) as [->|Hne].
        -- apply Hmod. apply Z.mod_divide; [lia|done].
        -- apply (Hdiv d); [lia|done].
  - repeat split; try done.
    destruct (decide (n = 1)) as [->|Hn1]; [lia|].
    exfalso. apply (Hdiv n); [lia|]. reflexivity.
Qed.

Lemma factor_fuel_enough n : 2 * n < 2 ^ Z.of_nat (factor_fuel n).
Proof.
  unfold factor_fuel. rewrite Nat2Z.inj_add.
  destruct (Z.le_gt_cases n 0) as [Hn|Hn].
  - pose proof (Z.pow_pos_nonneg 2 (Z.of_nat (Z.to_nat (Z.log2 n)) + Z.of_nat 2)).
    lia.
  - pose proof (Z.log2_nonneg n) as Hl. rewrite Z2Nat.id by done.
    pose proof (Z.log2_spec n Hn) as [_ Hlt].
    change (Z.of_nat 2) with 2. rewrite Z.pow_add_r by lia.
    rewrite <- Z.add_1_r in Hlt. rewrite Z.pow_add_r in Hlt by lia. lia.
Qed.

(** The loop of [factor] leaves within its budget. *)
Lemma factor_run n :
  1 <= n ->
  exists fs, while_pow factor_body (factor_fuel n) (2, n, []) = inr fs /\ factor_post n fs.
Proof.
  intros Hn.
  apply (while_pow_rule factor_body (factor_inv n) (factor_post n) factor_mu
           (factor_body_step n)).
  - unfold factor_inv. rewrite prod_nil.
    repeat split; try lia; constructor.
  - pose proof (factor_fuel_enough n). unfold factor_mu. lia.
Qed.

Lemma factor_run_below_2 n k :
  n < 2 -> while_pow factor_body k (2, n, []) = inr [].
Proof.
  intros Hn. induction k as [|k IH]; cbn [while_pow].
  - unfold factor_body. destruct (Z.leb_spec 2 n); [lia|done].
  - by rewrite IH.
Qed.

Lemma factor_terminates n :
  while_pow factor_body (factor_fuel n) (2, n, []) = inr (factor n).
Proof.
  unfold factor. destruct (Z.le_gt_cases n 0) as [Hn|Hn].
  - rewrite factor_run_below_2 by lia. done.
  - destruct (factor_run n) as (fs & -> & _); [lia|done].
Qed.

Lemma factor_spec n : 1 <= n -> factor_post n (factor n).
Proof.
  intros Hn. destruct (factor_run n Hn) as (fs & Hrun & Hpost).
  rewrite factor_terminates in Hrun. by injection Hrun as ->.
Qed.

Lemma factor_below_2 n : n < 2 -> factor n = [].
Proof. intros Hn. unfold factor. by rewrite factor_run_below_2. Qed.

(** *** Claims about [factor] *)

(** C6: for [n >= 2], [factor n] is the non-decreasing sequence of the
    prime factors of [n] with multiplicity: every element is prime and the
    product of the sequence is [n]; [factor 1] is empty and
    [factor 360 = [2; 2; 2; 3; 3; 5]]. *)
Theorem factor_prime_factorisation (n : Z) :
  2 <= n ->
  Forall Z.prime (factor n) /\ Sorted Z.le (factor n) /\ prod (factor n) = n /\
  factor 1 = [] /\ factor 360 = [2; 2; 2; 3; 3; 5].
Proof.
  intros Hn. destruct (factor_spec n) as (Hpr & Hsort & Hprod); [lia|].
  repeat split; try done. by apply StronglySorted_Sorted.
Qed.

Lemma factor_prime_factorisation_witness :
  2 <= 360 /\
  (Forall Z.prime (factor 360) /\ Sorted Z.le (factor 360) /\ prod (factor 360) = 360 /\
   factor 1 = [] /\ factor 360 = [2; 2; 2; 3; 3; 5]).
Proof. split; [lia|]. apply (factor_prime_factorisation 360). lia. Defined.

(** C7 as stated fails: [factor 0] leaves the loop at its first test and
    returns the empty list; nothing is raised. *)
Lemma factor_0_returns :
  while_pow factor_body (factor_fuel 0) (2, 0, []) = inr [] /\ factor 0 = [].
Proof. split; reflexivity. Qed.

(** C7, amended: for every [n < 1], [factor n] returns the empty sequence;
    the loop is left at its first test and no error is raised. *)
Theorem factor_below_1_returns_empty (n : Z) :
  n < 1 ->
  factor_body (2, n, []) = inr [] /\
  while_pow factor_body (factor_fuel n) (2, n, []) = inr [] /\
  factor n = [].
Proof.
  intros Hn. split; [|split].
  - unfold factor_body. destruct (Z.leb_spec 2 n); [lia|done].
  - apply factor_run_below_2. lia.
  - apply factor_below_2. lia.
Qed.

Lemma factor_below_1_returns_empty_witness :
  -5 < 1 /\
  (factor_body (2, -5, []) = inr [] /\
   while_pow factor_body (factor_fuel (-5)) (2, -5, []) = inr [] /\
   factor (-5) = []).
Proof. split; [lia|]. apply (factor_below_1_returns_empty (-5)). lia. Defined.

(** ** util/ntheory.py: sieve *)

Lemma range3_count (a b c : Z) (k : nat) :
  0 < c ->
  (k < Z.to_nat ((b - a + c - 1) / c))%nat <-> a + Z.of_nat k * c < b.
Proof.
  intros Hc.
  pose proof (Z.div_mod (b - a + c - 1) c ltac:(lia)) as Hdm.
  pose proof (Z.mod_pos_bound (b - a + c - 1) c Hc) as Hmod.
  split; intros Hk; [|apply Nat2Z.inj_lt; rewrite Z2Nat.id]; nia.
Qed.

Lemma elem_of_range3 (a b c j : Z) :
  0 < c ->
  j ∈ range3 a b c <-> exists k : nat, j = a + Z.of_nat k * c /\ j < b.
Proof.
  intros Hc. unfold range3. rewrite list_elem_of_fmap. split.
  - intros (k & -> & Hk%elem_of_seq). exists k. split; [done|].
    apply range3_count; [done|lia].
  - intros (k & -> & Hk). exists k. split; [done|].
    apply elem_of_seq. split; [lia|]. cbn. by apply range3_count.
Qed.

Lemma range_seq (n : Z) : range n = Z.of_nat <$> seq 0 (Z.to_nat n).
Proof.
  unfold range, range3. rewrite Z.sub_0_r, Z.add_simpl_r, Z.div_1_r.
  apply list_fmap_ext. intros _ k _. lia.
Qed.

Lemma elem_of_range (n j : Z) : j ∈ range n <-> 0 <= j < n.
Proof.
  rewrite range_seq, list_elem_of_fmap. split.
  - intros (k & -> & Hk%elem_of_seq). lia.
  - intros Hj. exists (Z.to_nat j). split; [lia|]. apply elem_of_seq. lia.
Qed.

Lemma cross_out_length sieve js : length (cross_out sieve js) = length sieve.
Proof.
  unfold cross_out. revert sieve. induction js as [|j js IH]; intros sieve; [done|].
  cbn [foldl]. by rewrite IH, length_insert.
Qed.

Lemma cross_out_lookup sieve js (x : nat) :
  (x < length sieve)%nat ->
  cross_out sieve js !!! x = false <->
  sieve !!! x = false \/ exists j, j ∈ js /\ Z.to_nat j = x.
Proof.
  unfold cross_out. revert sieve. induction js as [|j js IH]; intros sieve Hx.
  - cbn. split; [by left|]. intros [?|(j & Hj & _)]; [done|]. by apply elem_of_nil in Hj.
  - cbn [foldl]. rewrite IH by by rewrite length_insert.
    destruct (decide (Z.to_nat j = x)) as [Hjx|Hjx].
    + subst x. rewrite list_lookup_total_insert_eq by done. split.
      * intros _. right. exists j. split; [left|done].
      * intros _. by left.
    + rewrite list_lookup_total_insert_ne by done. split.
      * intros [?|(j' & Hj' & ?)]; [by left|]. right. exists j'. split; [by right|done].
      * intros [?|(j' & [->|Hj']%elem_of_cons & ?)]; [by left|done|].
        right. by exists j'.
Qed.

Lemma sieve_unfold n :
  sieve n =
  if n <? 2 then []
  else
    let lng := n / 2 - 1 + n mod 2 in
    let sieve1 := foldl (sieve_step lng) (replicate (Z.to_nat (lng + 1)) true)
                    (range (Z.shiftr (Z.sqrt n) 1)) in
    2 :: ((fun i => Z.shiftl i 1 + 3)
            <$> filter (fun i => sieve1 !!! Z.to_nat i = true) (range lng)).
Proof. reflexivity. Qed.

Lemma sieve_step_inv lng I sieve :
  0 <= I < lng -> sieve_inv lng I sieve -> sieve_inv lng (I + 1) (sieve_step lng sieve I).
Proof.
  intros HI [Hlen Hinv]. unfold sieve_step.
  destruct (sieve !!! Z.to_nat I) eqn:HsI; cbn [negb].
  - split; [by rewrite cross_out_length|]. intros j Hj.
    rewrite cross_out_lookup by lia. rewrite (Hinv j Hj).
    setoid_rewrite elem_of_range3; [|rewrite Z.shiftl_mul_pow2 by lia; lia].
    rewrite !Z.shiftl_mul_pow2 by lia. change (2 ^ 1) with 2. split.
    + intros [(i & m & Hi & Hm & Heq)|(j' & (k & -> & Hlt) & Hjj)].
      * exists i, m. repeat split; lia.
      * exists I, (2 * I + 3 + 2 * Z.of_nat k). repeat split; nia.
    + intros (i & m & Hi & Hm & Heq).
      destruct (decide (i = I)) as [->|Hne].
      * right. exists j. split; [|done].
        pose proof (Z.div_mod m 2 ltac:(lia)) as Hdm.
        pose proof (Z.mod_pos_bound m 2 ltac:(lia)) as Hmb.
        set (t := m / 2) in *. set (r := m mod 2) in *. clearbody t r.
        assert (r = 1) as ->.
        { destruct (decide (r = 0)) as [->|]; [subst m; lia|lia]. }
        exists (Z.to_nat (t - I - 1)). rewrite Z2Nat.id by lia.
        subst m. split; lia.
      * left. exists i, m. repeat split; lia.
  - split; [done|]. intros j Hj. rewrite (Hinv j Hj). split.
    + intros (i & m & Hi & Hm & Heq). exists i, m. repeat split; lia.
    + intros (i & m & Hi & Hm & Heq).
      destruct (decide (i = I)) as [->|Hne]; [|exists i, m; repeat split; lia].
      apply (Hinv I) in HsI as (i' & m' & Hi' & Hm' & Heq'); [|lia].
      exists i', (m' * m). split; [lia|]. split; [|rewrite Heq, Heq'; ring].
      assert (m' * 1 <= m' * m) by (apply Z.mul_le_mono_nonneg_l; lia). lia.
Qed.

Lemma sieve_loop_inv lng (I : nat) :
  Z.of_nat I <= lng ->
  sieve_inv lng (Z.of_nat I)
    (foldl (sieve_step lng) (replicate (Z.to_nat (lng + 1)) true) (Z.of_nat <$> seq 0 I)).
Proof.
  induction I as [|I IH]; intros HI.
  - cbn. split; [by rewrite length_replicate|]. intros j Hj.
    rewrite lookup_total_replicate_2 by lia. split; [done|].
    intros (i & m & Hi & _). lia.
  - rewrite seq_S, fmap_app, foldl_app. cbn [fmap list_fmap foldl plus].
    rewrite Nat2Z.inj_succ, <- Z.add_1_r. apply sieve_step_inv; [lia|].
    apply IH. lia.
Qed.

(** A number from 2 on is prime or splits into two factors from 2 on. *)
Lemma prime_or_split (N : Z) :
  2 <= N -> Z.prime N \/ exists d m, 2 <= d <= m /\ N = d * m.
Proof.
  intros HN. destruct (factor_spec N) as (Hpr & Hsort & Hprod); [lia|].
  destruct (factor N) as [|p [|q rest]].
  - rewrite prod_nil in Hprod. lia.
  - rewrite prod_cons, prod_nil in Hprod. left.
    apply Forall_cons in Hpr as [Hp _]. by replace N with p by lia.
  - right. rewrite !prod_cons in Hprod.
    apply Forall_cons in Hpr as [Hp [Hq Hrest]%Forall_cons].
    apply StronglySorted_inv in Hsort as [_ [Hpq _]%Forall_cons].
    apply Z.prime_ge_2 in Hp, Hq. apply prod_primes_pos in Hrest.
    exists p, (q * prod rest). split; [|lia].
    assert (q * 1 <= q * prod rest) by (apply Z.mul_le_mono_nonneg_l; lia). lia.
Qed.

Lemma sieve_lng_bounds n :
  2 <= n ->
  let lng := n / 2 - 1 + n mod 2 in
  0 <= lng /\ 2 * lng + 1 = n - 1 + n mod 2 /\ 0 <= n mod 2 < 2 /\
  0 <= Z.shiftr (Z.sqrt n) 1 <= lng /\
  forall d, 0 <= d -> d * d <= n -> d <= 2 * Z.shiftr (Z.sqrt n) 1 + 1.
Proof.
  intros Hn lng. subst lng.
  pose proof (Z.div_mod n 2 ltac:(lia)) as Hdm.
  pose proof (Z.mod_pos_bound n 2 ltac:(lia)) as Hmb.
  pose proof (Z.sqrt_spec n ltac:(lia)) as [Hs1 Hs2].
  pose proof (Z.sqrt_nonneg n) as Hs0.
  rewrite Z.shiftr_div_pow2 by lia. change (2 ^ 1) with 2.
  pose proof (Z.div_mod (Z.sqrt n) 2 ltac:(lia)) as Hdm2.
  pose proof (Z.mod_pos_bound (Z.sqrt n) 2 ltac:(lia)) as Hmb2.
  set (r := Z.sqrt n) in *. clearbody r.
  set (h := r / 2) in *. set (h2 := n / 2) in *. clearbody h h2.
  assert (h <= h2 - 1 + n mod 2).
  { destruct (decide (n <= 3)); [nia|]. assert (r <= n - 2) by nia. lia. }
  repeat split; try lia.
  intros d Hd Hdd. assert (d <= r) by nia. lia.
Qed.

(** After the outer loop the candidates still marked are the primes. *)
Lemma sieve_marks_primes n j :
  2 <= n ->
  let lng := n / 2 - 1 + n mod 2 in
  0 <= j < lng ->
  foldl (sieve_step lng) (replicate (Z.to_nat (lng + 1)) true)
    (range (Z.shiftr (Z.sqrt n) 1)) !!! Z.to_nat j = true
  <-> Z.prime (2 * j + 3).
Proof.
  intros Hn lng Hj.
  destruct (sieve_lng_bounds n Hn) as (Hlng & Hlng2 & Hmod & Hs & Hsqrt).
  fold lng in Hlng, Hlng2, Hs.
  set (s := Z.shiftr (Z.sqrt n) 1) in *.
  pose proof (sieve_loop_inv lng (Z.to_nat s) ltac:(lia)) as [_ Hinv].
  rewrite <- range_seq in Hinv. specialize (Hinv j Hj).
  rewrite Z2Nat.id in Hinv by lia.
  destruct (foldl _ _ _ !!! Z.to_nat j) eqn:Hsv.
  - split; [intros _|done].
    destruct (prime_or_split (2 * j + 3) ltac:(lia)) as [Hp|(d & m & Hdm & Heq)]; [done|].
    assert (crossed s j) as Hc; [|apply Hinv in Hc; done].
    assert (d ≠ 2) by lia.
    exists ((d - 3) / 2), m.
    pose proof (Z.div_mod (d - 3) 2 ltac:(lia)) as Hd2.
    pose proof (Z.mod_pos_bound (d - 3) 2 ltac:(lia)) as Hdmb.
    assert (d * d <= n) by nia.
    specialize (Hsqrt d ltac:(lia) ltac:(lia)).
    set (q := (d - 3) / 2) in *. set (r := (d - 3) mod 2) in *. clearbody q r.
    assert (r = 0) as ->.
    { destruct (decide (r = 1)) as [->|]; [|lia].
      assert (d = 2 * (q + 2)) as -> by lia. lia. }
    assert (2 * q + 3 = d) as -> by lia. split; [lia|]. split; lia.
  - split; [done|]. intros [_ Hp]. exfalso.
    destruct Hinv as [Hinv _]. destruct (Hinv eq_refl) as (i & m & Hi & Hm & Heq).
    apply (Hp (2 * i + 3)); [nia|]. exists m. lia.
Qed.

Lemma StronglySorted_fmap_filter (f : Z -> Z) (P : Z -> Prop) `{!forall x, Decision (P x)}
    (l : list Z) :
  (forall x y, x < y -> f x < f y) ->
  StronglySorted Z.lt l -> StronglySorted Z.lt (f <$> filter P l).
Proof.
  intros Hf. induction 1 as [|x l Hl IH Hx]; [constructor|].
  rewrite filter_cons. destruct (decide (P x)); [|done].
  cbn. constructor; [done|].
  apply Forall_fmap, Forall_forall. intros y [_ Hy]%list_elem_of_filter.
  cbn. apply Hf. by apply (proj1 (Forall_forall _ _) Hx).
Qed.

Lemma StronglySorted_range n : StronglySorted Z.lt (range n).
Proof.
  rewrite range_seq. generalize 0%nat.
  induction (Z.to_nat n) as [|k IH]; intros a; [constructor|].
  cbn. constructor; [apply IH|].
  apply Forall_fmap, Forall_forall. intros y Hy%elem_of_seq. cbn. lia.
Qed.

(** [sieve n] lists, in increasing order, the primes up to [n], with [n]
    itself when it is prime. *)
Theorem sieve_spec (n : Z) :
  StronglySorted Z.lt (sieve n) /\ forall p, p ∈ sieve n <-> Z.prime p /\ p <= n.
Proof.
  rewrite sieve_unfold. destruct (Z.ltb_spec n 2) as [Hn|Hn].
  { split; [constructor|]. intros p. rewrite elem_of_nil. split; [done|].
    intros [Hp%Z.prime_ge_2 ?]. lia. }
  cbn zeta. set (lng := n / 2 - 1 + n mod 2).
  set (sieve1 := foldl _ _ _).
  destruct (sieve_lng_bounds n Hn) as (Hlng & Hlng2 & Hmod & _).
  fold lng in Hlng, Hlng2.
  assert (Hin : forall p,
    p ∈ (fun i => Z.shiftl i 1 + 3) <$> filter (fun i => sieve1 !!! Z.to_nat i = true) (range lng)
    <-> exists i, 0 <= i < lng /\ p = 2 * i + 3 /\ Z.prime p).
  { intros p. rewrite list_elem_of_fmap. split.
    - intros (i & -> & [Hsv Hi%elem_of_range]%list_elem_of_filter).
      rewrite Z.shiftl_mul_pow2 by lia. change (2 ^ 1) with 2.
      exists i. split; [done|]. split; [lia|].
      replace (i * 2 + 3) with (2 * i + 3) by lia.
      by apply (sieve_marks_primes n i Hn).
    - intros (i & Hi & -> & Hp). exists i.
      rewrite Z.shiftl_mul_pow2 by lia. change (2 ^ 1) with 2. split; [lia|].
      apply list_elem_of_filter. split; [|by apply elem_of_range].
      by apply (sieve_marks_primes n i Hn). }
  split.
  - constructor.
    + apply StronglySorted_fmap_filter; [|apply StronglySorted_range].
      intros x y Hxy. rewrite !Z.shiftl_mul_pow2 by lia. lia.
    + apply Forall_forall. intros p (i & Hi & -> & _)%Hin. lia.
  - intros p. rewrite elem_of_cons, Hin. split.
    + intros [->|(i & Hi & -> & Hp)]; [split; [apply Z.prime_2|lia]|].
      split; [done|lia].
    + intros [Hp Hpn]. destruct (decide (p = 2)) as [|Hp2]; [by left|right].
      pose proof (Z.prime_ge_2 p Hp) as Hge.
      pose proof (Z.div_mod p 2 ltac:(lia)) as Hdm.
      pose proof (Z.mod_pos_bound p 2 ltac:(lia)) as Hmb.
      assert (p mod 2 = 1) as Hodd.
      { destruct (decide (p mod 2 = 0)) as [H0|]; [|lia]. exfalso.
        destruct Hp as [_ Hp]. apply (Hp 2); [lia|]. exists (p / 2). lia. }
      exists (p / 2 - 1). split; [|split; [lia|done]].
      pose proof (Z.div_mod n 2 ltac:(lia)) as Hdn. lia.
Qed.

(** ** The table of primes *)

Lemma PRIME_sorted : StronglySorted Z.lt PRIME.
Proof. apply sieve_spec. Qed.

Lemma PRIME_prime p : p ∈ PRIME -> Z.prime p.
Proof. intros Hp. by apply sieve_spec in Hp as [? _]. Qed.

(** The sieve is run once: the table starts with the primes up to 17 and
    has 1229 entries. *)
Lemma PRIME_prefix :
  exists rest, PRIME = [2; 3; 5; 7; 11; 13; 17] ++ rest /\ length rest = 1222%nat.
Proof. eexists. split; [vm_compute; reflexivity|reflexivity]. Qed.

Lemma PRIME_length : length PRIME = 1229%nat.
Proof. destruct PRIME_prefix as (rest & -> & Hlen). rewrite length_app, Hlen. reflexivity. Qed.

Lemma PRIME_OFFSET_value : PRIME_OFFSET = 5%nat.
Proof.
  unfold PRIME_OFFSET. destruct PRIME_prefix as (rest & -> & _). vm_compute. reflexivity.
Qed.

(** Evaluation of [encode] and [decode] on inputs that use the first
    primes of the table only. *)
Ltac eval_with_PRIME_prefix :=
  let rest := fresh "rest" in
  let HP := fresh "HP" in
  destruct PRIME_prefix as (rest & HP & _);
  unfold decode_encode, encode, decode, encode_token, lexmap,
    encode_numerical_variable, encode_sentntial_variable, encode_predicate_variable,
    prime_power, decode_factor, decode_code, PRIME_at;
  rewrite ?PRIME_OFFSET_value, ?HP;
  vm_compute.

Lemma PRIME_lookup_lt i j p q :
  PRIME !! i = Some p -> PRIME !! j = Some q -> (i < j)%nat -> p < q.
Proof.
  intros Hi Hj Hij. pose proof PRIME_sorted as Hs.
  apply list_elem_of_split_length in Hi as (l1 & l2 & Heq & Hlen).
  rewrite Heq in Hs, Hj. apply StronglySorted_app in Hs as (_ & _ & Hs).
  apply StronglySorted_inv in Hs as [_ Hall].
  rewrite lookup_app_r in Hj by lia.
  destruct (j - length l1)%nat as [|j'] eqn:Hjj; [lia|]. cbn in Hj.
  apply (proj1 (Forall_forall _ _) Hall). by eapply list_elem_of_lookup_2.
Qed.

Lemma PRIME_lookup_inj i j p :
  PRIME !! i = Some p -> PRIME !! j = Some p -> i = j.
Proof.
  intros Hi Hj. destruct (Nat.lt_trichotomy i j) as [Hlt|[->|Hlt]]; [|done|].
  - pose proof (PRIME_lookup_lt _ _ _ _ Hi Hj Hlt). lia.
  - pose proof (PRIME_lookup_lt _ _ _ _ Hj Hi Hlt). lia.
Qed.

(** The primes from [PRIME_OFFSET] on exceed every constant code. *)
Lemma PRIME_above_offset k p :
  PRIME !! (PRIME_OFFSET + k)%nat = Some p -> 12 < p.
Proof.
  rewrite PRIME_OFFSET_value. intros Hp.
  assert (PRIME !! 5%nat = Some 13) as H5.
  { destruct PRIME_prefix as (rest & -> & _). reflexivity. }
  destruct k as [|k]; [rewrite Nat.add_0_r, H5 in Hp; by injection Hp as <-|].
  pose proof (PRIME_lookup_lt _ _ _ _ H5 Hp ltac:(lia)). lia.
Qed.

Lemma PRIME_elem_of p : p ∈ PRIME <-> Z.prime p /\ p <= UPPERBOUND_OF_PRIMES.
Proof. apply sieve_spec. Qed.

Lemma PRIME_first : exists rest, PRIME = 2 :: rest.
Proof. destruct PRIME_prefix as (rest & -> & _). eexists. reflexivity. Qed.

(** ** util/bijection.py *)

Section bijection_facts.
Context {K V : Type} `{Countable K, Countable V}.

(** The loop over the items returns when the codes are pairwise distinct
    and none is in the map yet; the map then holds the swapped items. *)
Lemma inverse_loop_ok (items : list (K * V)) (inv0 : gmap V K) :
  NoDup items.*2 -> (forall v, v ∈ items.*2 -> inv0 !! v = None) ->
  exists inv, for_each inverse_step inv0 items = Return inv /\
    forall v k, inv !! v = Some k <-> (k, v) ∈ items \/ inv0 !! v = Some k.
Proof.
  revert inv0. induction items as [|[k v] items IH]; intros inv0 Hnd Hfresh.
  - exists inv0. split; [done|]. intros v k. rewrite elem_of_nil. tauto.
  - cbn [fmap list_fmap snd] in Hnd. apply NoDup_cons in Hnd as [Hv Hnd].
    cbn [for_each inverse_step].
    rewrite (Hfresh v) by (cbn; left).
    rewrite bool_decide_eq_false_2 by (intros [? ?]; done).
    cbn.
    destruct (IH (<[v:=k]> inv0) Hnd) as (inv & Hrun & Hinv).
    { intros v' Hv'. rewrite lookup_insert_ne by (intros ->; done).
      apply Hfresh. cbn. by right. }
    exists inv. split; [exact Hrun|].
    intros v' k'. rewrite Hinv, elem_of_cons.
    destruct (decide (v' = v)) as [->|Hne].
    + rewrite lookup_insert_eq, (Hfresh v) by (cbn; left).
      split.
      * intros [Hin|[= ->]]; [|by left; left].
        exfalso. apply Hv. apply list_elem_of_fmap. by exists (k', v).
      * intros [[[= ->]|Hin]|?]; [by right| |done].
        exfalso. apply Hv. apply list_elem_of_fmap. by exists (k', v).
    + rewrite lookup_insert_ne by done. split.
      * intros [?|?]; [left; by right|by right].
      * intros [[[= -> ->]|?]|?]; [done|by left|by right].
Qed.

(** Otherwise it raises at the first repeated code. *)
Lemma inverse_loop_dup (items : list (K * V)) (inv0 : gmap V K) :
  ~ (NoDup items.*2 /\ forall v, v ∈ items.*2 -> inv0 !! v = None) ->
  exists v, for_each inverse_step inv0 items = Raise (duplicate_key_found v).
Proof.
  revert inv0. induction items as [|[k v] items IH]; intros inv0 Hbad.
  - exfalso. apply Hbad. split; [constructor|]. intros v. by rewrite elem_of_nil.
  - cbn [for_each inverse_step].
    destruct (inv0 !! v) as [k0|] eqn:Hv.
    + rewrite bool_decide_eq_true_2 by done. by exists v.
    + rewrite bool_decide_eq_false_2 by (intros [? ?]; done). cbn.
      apply IH. intros [Hnd Hfresh]. apply Hbad. cbn [fmap list_fmap snd].
      split.
      * apply NoDup_cons. split; [|done]. intros Hin.
        specialize (Hfresh v Hin). by rewrite lookup_insert_eq in Hfresh.
      * intros v' [->|Hin]%elem_of_cons; [done|].
        specialize (Hfresh v' Hin).
        destruct (decide (v' = v)) as [->|Hne];
          [by rewrite lookup_insert_eq in Hfresh|by rewrite lookup_insert_ne in Hfresh].
Qed.

Lemma Bijection_init_unfold (items : list (K * V)) :
  Bijection_init items =
  match for_each inverse_step ∅ items with
  | Return inv => Return {| mapping := list_to_map items; inverse := inv |}
  | Raise e => Raise e
  end.
Proof. reflexivity. Qed.

Lemma NoDup_snd_same_code (items : list (K * V)) k1 k2 v :
  NoDup items.*2 -> (k1, v) ∈ items -> (k2, v) ∈ items -> k1 = k2.
Proof.
  intros Hnd [i1 H1]%list_elem_of_lookup [i2 H2]%list_elem_of_lookup.
  assert (i1 = i2) as ->.
  { apply (NoDup_lookup _ _ _ v Hnd); rewrite list_lookup_fmap.
    - by rewrite H1.
    - by rewrite H2. }
  congruence.
Qed.

(** The code that the error names was met before: it is the code of two
    items, or it was in the map at the start. *)
Lemma inverse_loop_raise (items : list (K * V)) (inv0 : gmap V K) (v : V) :
  for_each inverse_step inv0 items = Raise (duplicate_key_found v) ->
  exists i k, items !! i = Some (k, v) /\
    (is_Some (inv0 !! v) \/ exists j k', (j < i)%nat /\ items !! j = Some (k', v)).
Proof.
  revert inv0. induction items as [|[k0 v0] items IH]; intros inv0; [done|].
  cbn [for_each inverse_step]. case_bool_decide as Hv0.
  - intros [= <-]. exists 0%nat, k0. split; [done|]. by left.
  - cbn. intros (i & k & Hi & Hprev)%IH. exists (S i), k. split; [done|].
    destruct Hprev as [Hin|(j & k' & Hj & Hjv)].
    + destruct (decide (v = v0)) as [->|Hne].
      * right. exists 0%nat, k0. split; [lia|done].
      * left. by rewrite lookup_insert_ne in Hin.
    + right. exists (S j), k'. split; [lia|done].
Qed.

Lemma Bijection_init_raise_repeated (items : list (K * V)) (v : V) :
  NoDup items.*1 -> Bijection_init items = Raise (duplicate_key_found v) ->
  exists k1 k2, k1 ≠ k2 /\ (k1, v) ∈ items /\ (k2, v) ∈ items.
Proof.
  intros Hkeys. rewrite Bijection_init_unfold.
  destruct (for_each inverse_step ∅ items) as [inv|e] eqn:Hrun; [done|].
  intros [= ->]. apply inverse_loop_raise in Hrun as (i & k & Hi & Hprev).
  destruct Hprev as [[? Hin]|(j & k' & Hj & Hjv)]; [by rewrite lookup_empty in Hin|].
  exists k', k. split; [|split; by eapply list_elem_of_lookup_2].
  intros ->. assert (j = i); [|lia].
  apply (NoDup_lookup _ _ _ k Hkeys); rewrite list_lookup_fmap.
  - by rewrite Hjv.
  - by rewrite Hi.
Qed.

(** C9: constructing a [Bijection] from a mapping in which two symbols
    have the same code raises, and the error names a code that two
    symbols have; construction returns exactly when the codes are
    pairwise distinct, and then [mapping] holds exactly the items,
    [inverse] exactly the swapped items, so that the two lookups are
    inverse to each other.  [items] lists the items of a dict, so its
    keys are distinct. *)
Theorem Bijection_init_injective (items : list (K * V)) :
  NoDup items.*1 ->
  (forall k1 k2 v, k1 ≠ k2 -> (k1, v) ∈ items -> (k2, v) ∈ items ->
     exists v' k1' k2', Bijection_init items = Raise (duplicate_key_found v') /\
       k1' ≠ k2' /\ (k1', v') ∈ items /\ (k2', v') ∈ items) /\
  ((exists b, Bijection_init items = Return b) <-> NoDup items.*2) /\
  (forall b, Bijection_init items = Return b ->
     forall k v,
       (mapping b !! k = Some v <-> (k, v) ∈ items) /\
       (inverse b !! v = Some k <-> (k, v) ∈ items) /\
       (mapping b !! k = Some v <-> inverse b !! v = Some k)).
Proof.
  intros Hkeys.
  destruct (decide (NoDup items.*2)) as [Hnd|Hnd].
  - split; [|split].
    + intros k1 k2 v Hne H1 H2. destruct Hne. by eapply NoDup_snd_same_code.
    + split; [done|]. intros _. rewrite Bijection_init_unfold.
      destruct (inverse_loop_ok items ∅ Hnd) as (inv & -> & _); [done|]. eauto.
    + intros b. rewrite Bijection_init_unfold.
      destruct (inverse_loop_ok items ∅ Hnd) as (inv & -> & Hinv); [done|].
      intros [= <-] k v. cbn [mapping inverse].
      rewrite Hinv, lookup_empty, <- elem_of_list_to_map by done.
      split_and!; [done| |]; split; [by intros [?|?]|by left|by left|by intros [?|?]].
  - destruct (inverse_loop_dup items ∅) as (v' & Hrun); [tauto|].
    assert (Hraise : Bijection_init items = Raise (duplicate_key_found v'))
      by (by rewrite Bijection_init_unfold, Hrun).
    split; [|split].
    + intros _ _ _ _ _ _.
      destruct (Bijection_init_raise_repeated items v' Hkeys Hraise)
        as (k1' & k2' & Hne' & H1' & H2').
      by exists v', k1', k2'.
    + rewrite Hraise. split; [by intros [b ?]|done].
    + intros b. by rewrite Hraise.
Qed.
End bijection_facts.

Lemma CONSTANT_SIGNS_keys_distinct : NoDup CONSTANT_SIGNS_items.*1.
Proof. apply (bool_decide_unpack _). vm_compute. exact I. Qed.

Lemma Bijection_init_injective_witness :
  (NoDup [([126%N], 1); ([61%N], 5); ([48%N], 5)].*1 /\
   [61%N] ≠ [48%N] /\
   ([61%N], 5) ∈ [([126%N], 1); ([61%N], 5); ([48%N], 5)] /\
   ([48%N], 5) ∈ [([126%N], 1); ([61%N], 5); ([48%N], 5)] /\
   exists (v' : Z) (k1' k2' : str),
     Bijection_init [([126%N], 1); ([61%N], 5); ([48%N], 5)]
     = Raise (duplicate_key_found v') /\
     k1' ≠ k2' /\
     (k1', v') ∈ [([126%N], 1); ([61%N], 5); ([48%N], 5)] /\
     (k2', v') ∈ [([126%N], 1); ([61%N], 5); ([48%N], 5)]) /\
  (NoDup CONSTANT_SIGNS_items.*1 /\
   ((exists b, Bijection_init CONSTANT_SIGNS_items = Return b)
      <-> NoDup CONSTANT_SIGNS_items.*2) /\
   (forall b, Bijection_init CONSTANT_SIGNS_items = Return b ->
      forall k v,
        (mapping b !! k = Some v <-> (k, v) ∈ CONSTANT_SIGNS_items) /\
        (inverse b !! v = Some k <-> (k, v) ∈ CONSTANT_SIGNS_items) /\
        (mapping b !! k = Some v <-> inverse b !! v = Some k))).
Proof.
  assert (Hk : NoDup [([126%N], 1); ([61%N], 5); ([48%N], 5)].*1).
  { apply (bool_decide_unpack _). vm_compute. exact I. }
  assert (Hne : [61%N] ≠ [48%N]) by discriminate.
  assert (H1 : ([61%N], 5) ∈ [([126%N], 1); ([61%N], 5); ([48%N], 5)]).
  { apply (bool_decide_unpack _). vm_compute. exact I. }
  assert (H2 : ([48%N], 5) ∈ [([126%N], 1); ([61%N], 5); ([48%N], 5)]).
  { apply (bool_decide_unpack _). vm_compute. exact I. }
  split.
  - split; [exact Hk|]. split; [exact Hne|]. split; [exact H1|]. split; [exact H2|].
    exact (proj1 (Bijection_init_injective _ Hk) _ _ _ Hne H1 H2).
  - split; [exact CONSTANT_SIGNS_keys_distinct|].
    exact (proj2 (Bijection_init_injective CONSTANT_SIGNS_items
                    CONSTANT_SIGNS_keys_distinct)).
Defined.

(** A table with a repeated code is refused. *)
Example Bijection_init_repeated_code :
  Bijection_init [([126%N], 1); ([61%N], 5); ([48%N], 5)]
  = Raise (duplicate_key_found 5).
Proof. reflexivity. Qed.

(** The module-level construction of [CONSTANT_SIGNS] returns. *)
Lemma CONSTANT_SIGNS_constructed :
  Bijection_init CONSTANT_SIGNS_items = Return CONSTANT_SIGNS.
Proof. reflexivity. Qed.

(** ** godel.py: worked examples *)

(** C3: [encode("0=0")] is [2^6 * 3^5 * 5^6], the three positions having
    the codes 6, 5 and 6, and [decode] of that number is ["0=0"]. *)
Theorem encode_decode_zero_equals_zero :
  encode (pystr "0=0") = Return (2 ^ 6 * 3 ^ 5 * 5 ^ 6) /\
  for_each encode_token State_init
    [(constant_type, pystr "0"); (constant_type, pystr "="); (constant_type, pystr "0")]
  = Return {| encoding := [Some 6; Some 5; Some 6];
              numerical_variables := ∅;
              sentntial_variables := ∅;
              predicate_variables := ∅ |} /\
  decode (2 ^ 6 * 3 ^ 5 * 5 ^ 6) = Return (pystr "0=0").
Proof. eval_with_PRIME_prefix. repeat split. Qed.

(** C2 fails on the code: in the state reached after the token [p], whose
    predicate map is empty, [encode_predicate_variable] gives [P] the code
    [PRIME[offset + 1] ^ 3 = 17 ^ 3], counting the entry of the sentential
    map, and stores it in the sentential map; the predicate map stays
    empty.  With its own count the code would be [13 ^ 3]. *)
Theorem encode_predicate_variable_uses_sentntial_map :
  for_each encode_token State_init [(sentntial_type, pystr "p")] = Return state_after_p /\
  encode_predicate_variable state_after_p (pystr "P")
  = Return (Some (17 ^ 3),
            {| encoding := [Some 169];
               numerical_variables := ∅;
               sentntial_variables := <[ pystr "P" := 17 ^ 3 ]> {[ pystr "p" := 169 ]};
               predicate_variables := ∅ |}) /\
  PRIME !! (PRIME_OFFSET + size (predicate_variables state_after_p))%nat = Some 13 /\
  encode (pystr "pP") = Return (2 ^ 169 * 3 ^ (17 ^ 3)).
Proof. eval_with_PRIME_prefix. repeat split. Qed.

(** C8 fails on the code: [sieve 3] contains 3, which is not below 3. *)
Theorem sieve_3_contains_3 : sieve 3 = [2; 3].
Proof. reflexivity. Qed.

Example sieve_30 : sieve 30 = [2; 3; 5; 7; 11; 13; 17; 19; 23; 29].
Proof. reflexivity. Qed.

Example sieve_2 : sieve 2 = [2].
Proof. reflexivity. Qed.

(** ** godel.py: Lexer *)

Lemma takewhile_tick (t : char) (l : str) :
  exists k, takewhile (fun x => bool_decide (x = t)) l = replicate k t.
Proof.
  induction l as [|c l [k IH]]; [by exists 0%nat|].
  cbn [takewhile]. case_bool_decide as Hc.
  - subst c. exists (S k). cbn. by rewrite IH.
  - by exists 0%nat.
Qed.

Lemma takewhile_prefix {A} (f : A -> bool) (l : list A) :
  takewhile f l ++ drop (length (takewhile f l)) l = l.
Proof.
  induction l as [|a l IH]; [done|]. cbn [takewhile].
  destruct (f a); [|done]. cbn. by rewrite IH.
Qed.

Lemma regex_match_class chars s m rest :
  regex_match (char_class chars) s = Some (m, rest) ->
  exists c, c ∈ chars /\ m = [c] /\ s = c :: rest.
Proof.
  cbn [regex_match]. destruct s as [|c s]; [done|].
  case_bool_decide; [|done]. intros [= <- <-]. by exists c.
Qed.

Lemma regex_match_class_ticks chars s m rest :
  regex_match (then_star (char_class chars) TICK) s = Some (m, rest) ->
  exists c k, c ∈ chars /\ m = c :: replicate k TICK /\ s = m ++ rest.
Proof.
  cbn [regex_match]. destruct s as [|c s]; [done|].
  case_bool_decide; [|done]. intros [= <- <-].
  destruct (takewhile_tick TICK s) as [k Hk]. exists c, k.
  split; [done|]. split; [cbn; by rewrite Hk|].
  cbn. by rewrite takewhile_prefix.
Qed.

Lemma scanner_match_Lexer s ty tok rest :
  scanner_match (Lexer_scanner Lexer_init) s = Some ((ty, tok), rest) ->
  token_wf (ty, tok) /\ s = tok ++ rest.
Proof.
  unfold Lexer_scanner, Lexer_init. cbn [scanner_match constant_signs
    lexer_numerical_variables lexer_sentntial_variables lexer_predicate_variables].
  unfold match_any_with_ticks, match_any.
  destruct (regex_match (char_class _) s) as [[m r]|] eqn:Hc.
  { intros [= <- <- <-]. apply regex_match_class in Hc as (c & Hin & -> & ->).
    split; [by constructor|done]. }
  destruct (regex_match (then_star (char_class (concat NUMERICAL_VARIABLES)) TICK) s)
    as [[m r]|] eqn:Hn.
  { intros [= <- <- <-]. apply regex_match_class_ticks in Hn as (c & k & Hin & -> & ->).
    split; [by constructor|done]. }
  destruct (regex_match (then_star (char_class (concat SENTNTIAL_VARIABLES)) TICK) s)
    as [[m r]|] eqn:Hs.
  { intros [= <- <- <-]. apply regex_match_class_ticks in Hs as (c & k & Hin & -> & ->).
    split; [by constructor|done]. }
  destruct (regex_match (then_star (char_class (concat PREDICATE_VARIABLES)) TICK) s)
    as [[m r]|] eqn:Hp; [|done].
  intros [= <- <- <-]. apply regex_match_class_ticks in Hp as (c & k & Hin & -> & ->).
  split; [by constructor|done].
Qed.

Lemma token_wf_nonempty ty tok : token_wf (ty, tok) -> tok ≠ [].
Proof. by inversion 1. Qed.

(** The loop of the scanner: the text consumed is the text of the tokens,
    the tokens have the shape of their class, and with iterations to spare
    the loop stops where no phrase matches. *)
Lemma scanner_loop_Lexer fuel s result tokens remainder :
  scanner_loop fuel (Lexer_scanner Lexer_init) s result = (tokens, remainder) ->
  exists new, tokens = result ++ new /\ s = concat new.*2 ++ remainder /\
    Forall token_wf new /\
    ((length s < fuel)%nat -> scanner_match (Lexer_scanner Lexer_init) remainder = None).
Proof.
  revert s result. induction fuel as [|fuel IH]; intros s result; cbn [scanner_loop].
  - intros [= <- <-]. exists []. rewrite app_nil_r. repeat split; [constructor|lia].
  - destruct (scanner_match _ s) as [[[ty tok] rest]|] eqn:Hm.
    + apply scanner_match_Lexer in Hm as [Hwf ->].
      rewrite bool_decide_eq_false_2 by by eapply token_wf_nonempty.
      intros (new & -> & -> & Hnew & Hstop)%IH.
      exists ((ty, tok) :: new). rewrite <- app_assoc. cbn.
      rewrite <- app_assoc. repeat split; [by constructor|].
      intros Hlen. apply Hstop. apply token_wf_nonempty in Hwf.
      rewrite !length_app in Hlen. destruct tok; [done|]. cbn in Hlen.
      rewrite length_app. lia.
    + intros [= <- <-]. exists []. rewrite app_nil_r.
      repeat split; [constructor|done].
Qed.

Lemma Scanner_scan_Lexer s tokens remainder :
  Scanner_scan (Lexer_scanner Lexer_init) s = (tokens, remainder) ->
  s = concat tokens.*2 ++ remainder /\ Forall token_wf tokens /\
  scanner_match (Lexer_scanner Lexer_init) remainder = None.
Proof.
  unfold Scanner_scan. intros (new & -> & -> & Hwf & Hstop)%scanner_loop_Lexer.
  repeat split; [done|]. apply Hstop. lia.
Qed.

Lemma Lexer_scan_Return s tokens :
  Lexer_scan Lexer_init s = Return tokens ->
  s = concat tokens.*2 /\ Forall token_wf tokens.
Proof.
  unfold Lexer_scan. cbn zeta.
  destruct (Scanner_scan _ s) as [toks r] eqn:Hscan.
  case_bool_decide as Hr; [done|]. intros [= ->].
  apply Scanner_scan_Lexer in Hscan as (-> & Hwf & _).
  subst r. by rewrite app_nil_r.
Qed.



(** ** Unique factorisation, as [factor] computes it *)

Lemma prime_divides_prod (p : Z) (l : list Z) :
  Z.prime p -> Forall Z.prime l -> (p | prod l) -> p ∈ l.
Proof.
  intros Hp. induction 1 as [|q l Hq Hl IH]; intros Hdiv.
  - rewrite prod_nil in Hdiv. apply Z.divide_1_r in Hdiv.
    apply Z.prime_ge_2 in Hp. lia.
  - rewrite prod_cons in Hdiv. apply elem_of_cons.
    apply Z.divide_prime_mul in Hdiv as [Hd|Hd]; [|by right; apply IH|done].
    left. by apply Z.divide_prime_prime.
Qed.

Lemma sorted_head_le (p : Z) (l : list Z) (x : Z) :
  StronglySorted Z.le (p :: l) -> x ∈ p :: l -> p <= x.
Proof.
  intros [_ Hall]%StronglySorted_inv [->|Hx]%elem_of_cons; [lia|].
  by apply (proj1 (Forall_forall _ _) Hall).
Qed.

Lemma sorted_primes_unique (l1 l2 : list Z) :
  Forall Z.prime l1 -> Forall Z.prime l2 ->
  StronglySorted Z.le l1 -> StronglySorted Z.le l2 ->
  prod l1 = prod l2 -> l1 = l2.
Proof.
  revert l2. induction l1 as [|p1 l1 IH]; intros [|p2 l2] Hp1 Hp2 Hs1 Hs2 Hprod.
  - done.
  - apply prod_primes_pos in Hp2 as Hpos. rewrite prod_nil, prod_cons in Hprod.
    apply Forall_cons in Hp2 as [Hp%Z.prime_ge_2 Hl%prod_primes_pos]. nia.
  - rewrite prod_nil, prod_cons in Hprod.
    apply Forall_cons in Hp1 as [Hp%Z.prime_ge_2 Hl%prod_primes_pos]. nia.
  - assert (p1 ∈ p2 :: l2) as Hin1.
    { apply prime_divides_prod; [by apply Forall_cons in Hp1 as [? _]|done|].
      rewrite <- Hprod, prod_cons. by exists (prod l1); lia. }
    assert (p2 ∈ p1 :: l1) as Hin2.
    { apply prime_divides_prod; [by apply Forall_cons in Hp2 as [? _]|done|].
      rewrite Hprod, prod_cons. by exists (prod l2); lia. }
    apply (sorted_head_le _ _ _ Hs2) in Hin1. apply (sorted_head_le _ _ _ Hs1) in Hin2.
    assert (p1 = p2) as -> by lia. f_equal.
    apply Forall_cons in Hp1 as [Hp Hp1]. apply Forall_cons in Hp2 as [_ Hp2].
    apply StronglySorted_inv in Hs1 as [Hs1 _]. apply StronglySorted_inv in Hs2 as [Hs2 _].
    apply IH; try done. rewrite !prod_cons in Hprod.
    apply Z.prime_ge_2 in Hp. by apply (Z.mul_reg_l _ _ p2); [lia|].
Qed.

(** [factor] returns any sorted list of primes from its product. *)
Lemma factor_prod (l : list Z) :
  Forall Z.prime l -> StronglySorted Z.le l -> factor (prod l) = l.
Proof.
  intros Hp Hs. destruct (factor_spec (prod l)) as (Hfp & Hfs & Hfprod).
  { by apply prod_primes_pos. }
  by apply sorted_primes_unique.
Qed.

Lemma factor_prime_power (q : Z) (k : nat) :
  Z.prime q -> factor (q ^ Z.of_nat k) = replicate k q.
Proof.
  intros Hq. rewrite <- prod_replicate. apply factor_prod.
  - by apply Forall_replicate.
  - induction k as [|k IH]; [constructor|]. cbn. constructor; [done|].
    apply Forall_replicate. lia.
Qed.

(** [factor] returns a number itself exactly when it is prime. *)
Lemma factor_prime_iff (n : Z) : factor n = [n] <-> Z.prime n.
Proof.
  split.
  - intros Hf. destruct (Z.lt_ge_cases n 1) as [Hn|Hn].
    + rewrite factor_below_2 in Hf by lia. done.
    + destruct (factor_spec n Hn) as (Hp & _). rewrite Hf in Hp.
      by apply Forall_cons in Hp as [? _].
  - intros Hp. rewrite <- (factor_prod [n]) at 1.
    + f_equal. rewrite prod_cons, prod_nil. lia.
    + constructor; [done|constructor].
    + repeat constructor.
Qed.

(** ** The table of constant signs *)

Lemma CONSTANT_SIGNS_inverse_range g l :
  inverse CONSTANT_SIGNS !! g = Some l -> 1 <= g <= 12 /\ l ≠ [].
Proof.
  assert (map_Forall (fun g l => 1 <= g <= 12 /\ l ≠ []) (inverse CONSTANT_SIGNS)) as Hall.
  { apply (bool_decide_unpack _). vm_compute. exact I. }
  apply Hall.
Qed.

Lemma CONSTANT_SIGNS_mapping_inverse l g :
  mapping CONSTANT_SIGNS !! l = Some g -> inverse CONSTANT_SIGNS !! g = Some l.
Proof.
  assert (map_Forall (fun l g => inverse CONSTANT_SIGNS !! g = Some l)
            (mapping CONSTANT_SIGNS)) as Hall.
  { apply (bool_decide_unpack _). vm_compute. exact I. }
  apply Hall.
Qed.

Lemma constant_chars_mapping c :
  c ∈ constant_chars -> is_Some (mapping CONSTANT_SIGNS !! [c]).
Proof.
  assert (Forall (fun c => is_Some (mapping CONSTANT_SIGNS !! [c])) constant_chars) as Hall.
  { apply (bool_decide_unpack _). vm_compute. exact I. }
  apply (proj1 (Forall_forall _ _) Hall).
Qed.

(** From here on the tables and [factor] are used through the lemmas
    above, and evaluated by [vm_compute] only. *)
Opaque PRIME PRIME_OFFSET CONSTANT_SIGNS factor.

(** ** godel.py: decode rejects malformed numbers *)


Lemma bind_Return {E A B} (f : A -> result E B) (a : A) : Return a ≫= f = f a.
Proof. reflexivity. Qed.

Lemma bind_Raise {E A B} (f : A -> result E B) (e : E) : Raise e ≫= f = Raise e.
Proof. reflexivity. Qed.

Lemma PRIME_at_Some i p : PRIME !! i = Some p -> PRIME_at i = Return p.
Proof. unfold PRIME_at. by intros ->. Qed.

(** At a position inside [PRIME], the loop body of [decode] either goes on
    or raises a [ValueError]; it raises when the prime is not the expected
    one. *)
Lemma decode_code_raises state gnum e :
  decode_code state gnum = Raise e -> exists msg, e = ValueError msg.
Proof.
  unfold decode_code. destruct (found_symbol _); [done|].
  case_bool_decide; [done|].
  case_bool_decide; [intros [= <-]; by eexists|].
  destruct (_ && _); [done|]. destruct (_ && _); [done|].
  intros [= <-]. by eexists.
Qed.

Lemma decode_factor_in_range st i f gnum p :
  PRIME !! i = Some p ->
  match decode_factor st (i, (f, gnum)) with
  | Return _ => p = f
  | Raise e => exists msg, e = ValueError msg
  end.
Proof.
  intros Hp. destruct st as [symbols state]. unfold decode_factor.
  rewrite (PRIME_at_Some i p Hp), bind_Return.
  case_bool_decide as Hpf; [by eexists|].
  destruct (decode_code state gnum) as [[symbol state']|e] eqn:Hcode.
  - by rewrite bind_Return.
  - rewrite bind_Raise. by eapply decode_code_raises.
Qed.

Lemma decode_loop_wrong_prime fs start st j f gnum p :
  fs !! j = Some (f, gnum) -> PRIME !! (start + j)%nat = Some p -> p ≠ f ->
  exists msg, for_each decode_factor st (enumerate_from start fs) = Raise (ValueError msg).
Proof.
  revert start st j. induction fs as [|[f0 g0] fs IH]; intros start st j Hj Hp Hne; [done|].
  cbn [enumerate_from for_each].
  assert (is_Some (PRIME !! start)) as [p0 Hp0].
  { apply lookup_lt_is_Some. apply lookup_lt_Some in Hp. lia. }
  pose proof (decode_factor_in_range st start f0 g0 p0 Hp0) as Hstep.
  destruct (decode_factor st (start, (f0, g0))) as [st'|e]; cbn.
  - destruct j as [|j].
    + cbn in Hj. injection Hj as -> ->. rewrite Nat.add_0_r in Hp. congruence.
    + cbn in Hj. apply (IH (S start) st' j Hj); [|done].
      by replace (S start + j)%nat with (start + S j)%nat by lia.
  - destruct Hstep as [msg ->]. by exists msg.
Qed.

(** C4, amended: when the grouped factorisation of [n >= 1] has at some
    position [i] within the table, [i < len(PRIME)], a prime other than
    [PRIME[i]], [decode n] raises a [ValueError]; the result carries no
    decoded text.  In particular [decode 9] raises: its first prime is 3,
    not 2. *)
Theorem decode_rejects_wrong_prime (n : Z) (i : nat) (f gnum p : Z) :
  1 <= n ->
  grouped_factors n !! i = Some (f, gnum) -> PRIME !! i = Some p -> p ≠ f ->
  (exists msg, decode n = Raise (ValueError msg)) /\
  decode 9 = Raise (ValueError (not_godel_number 0 3 2)).
Proof.
  intros Hn Hi Hp Hne. split; [|eval_with_PRIME_prefix; reflexivity].
  unfold decode. rewrite bool_decide_eq_false_2 by lia. cbn zeta.
  destruct (decode_loop_wrong_prime (grouped_factors n) 0 ([], State_init) i f gnum p)
    as [msg Hrun]; [done..|].
  unfold enumerate. rewrite Hrun. by exists msg.
Qed.

Lemma decode_rejects_wrong_prime_witness :
  1 <= 9 /\ grouped_factors 9 !! 0%nat = Some (3, 2) /\ PRIME !! 0%nat = Some 2 /\ 2 ≠ 3 /\
  ((exists msg, decode 9 = Raise (ValueError msg)) /\
   decode 9 = Raise (ValueError (not_godel_number 0 3 2))).
Proof.
  assert (H1 : 1 <= 9) by lia.
  assert (H2 : grouped_factors 9 !! 0%nat = Some (3, 2)) by reflexivity.
  assert (H3 : PRIME !! 0%nat = Some 2).
  { destruct PRIME_prefix as (rest & -> & _). reflexivity. }
  assert (H4 : 2 ≠ 3) by lia.
  repeat (split; [assumption|]).
  exact (decode_rejects_wrong_prime 9 0 3 2 2 H1 H2 H3 H4).
Defined.

(** ** The number of a sequence of codes, and its factorisation *)

Lemma generate_prime_power codes start :
  (start + length codes <= length PRIME)%nat ->
  generate prime_power (enumerate_from start (Some <$> codes))
  = Return (zip_with Z.pow (drop start PRIME) codes).
Proof.
  revert start. induction codes as [|c codes IH]; intros start Hlen.
  - cbn. by destruct (drop start PRIME).
  - cbn [fmap list_fmap enumerate_from generate prime_power].
    cbn [length] in Hlen.
    destruct (lookup_lt_is_Some_2 PRIME start) as [p Hp]; [lia|].
    rewrite (PRIME_at_Some _ _ Hp), !bind_Return, IH by lia.
    rewrite bind_Return. by rewrite (drop_S _ _ _ Hp).
Qed.

Lemma prod_expand primes codes :
  Forall (fun c => 1 <= c) codes ->
  prod (zip_with Z.pow primes codes) = prod (expand primes codes).
Proof.
  intros Hc. revert primes. induction Hc as [|c codes Hc _ IH]; intros [|p primes]; try done.
  cbn [zip_with expand]. rewrite prod_cons, prod_app, prod_replicate, IH.
  by rewrite Z2Nat.id by lia.
Qed.

Lemma elem_of_expand primes codes x : x ∈ expand primes codes -> x ∈ primes.
Proof.
  revert codes. induction primes as [|p primes IH]; intros [|c codes]; cbn [expand];
    try (by intros ?%elem_of_nil).
  intros [[-> _]%elem_of_replicate|Hx%IH]%elem_of_app; [left|by right].
Qed.

Lemma expand_primes primes codes :
  Forall Z.prime primes -> Forall Z.prime (expand primes codes).
Proof.
  intros Hp. apply Forall_forall. intros x Hx%elem_of_expand.
  by apply (proj1 (Forall_forall _ _) Hp).
Qed.

Lemma expand_sorted primes codes :
  StronglySorted Z.lt primes -> StronglySorted Z.le (expand primes codes).
Proof.
  intros Hs. revert codes. induction Hs as [|p primes Hs IH Hall]; intros [|c codes];
    cbn [expand]; try constructor.
  apply StronglySorted_app_2.
  - intros x y [-> _]%elem_of_replicate Hy%elem_of_expand.
    apply Z.lt_le_incl. by apply (proj1 (Forall_forall _ _) Hall).
  - induction (Z.to_nat c) as [|k IHk]; [constructor|]. cbn. constructor; [done|].
    apply Forall_replicate. lia.
  - apply IH.
Qed.

Lemma groupby_run (p : Z) (k : nat) (rest : list Z) :
  (forall q v groups, groupby rest = (q, v) :: groups -> p ≠ q) ->
  groupby (replicate (S k) p ++ rest) = (p, replicate (S k) p) :: groupby rest.
Proof.
  intros Hhead. induction k as [|k IH].
  - cbn. destruct (groupby rest) as [|[q v] groups] eqn:Hg; [done|].
    rewrite bool_decide_eq_false_2; [done|]. by eapply Hhead.
  - change (replicate (S (S k)) p ++ rest) with (p :: (replicate (S k) p ++ rest)).
    cbn [groupby]. rewrite IH. by rewrite bool_decide_eq_true_2.
Qed.

Lemma groupby_expand primes codes :
  StronglySorted Z.lt primes -> Forall (fun c => 1 <= c) codes ->
  (fun '(k, v) => (k, Z.of_nat (length v))) <$> groupby (expand primes codes)
  = zip primes codes.
Proof.
  intros Hs. revert codes. induction Hs as [|p primes Hs IH Hall]; intros [|c codes] Hc;
    try done.
  apply Forall_cons in Hc as [Hc Hcs]. cbn [expand zip_with].
  destruct (Z.to_nat c) as [|k] eqn:Hk; [lia|].
  rewrite groupby_run.
  - cbn [fmap list_fmap]. rewrite IH by done. f_equal. f_equal.
    rewrite length_replicate. lia.
  - intros q v groups Hg Hpq. subst q.
    assert (p ∈ expand primes codes) as Hin%elem_of_expand.
    { assert (p ∈ (groupby (expand primes codes)).*1) as Hin.
      { rewrite Hg. cbn. left. }
      clear -Hin. revert Hin. generalize (expand primes codes). intros l.
      induction l as [|x l IHl]; cbn [groupby]; [by intros ?%elem_of_nil|].
      destruct (groupby l) as [|[q v] groups].
      - cbn. intros [->|?%elem_of_nil]%elem_of_cons; [left|done].
      - case_bool_decide as Hx.
        + subst q. cbn. intros [->|Hin]%elem_of_cons; [left|].
          right. apply IHl. cbn. by right.
        + cbn. intros [->|Hin]%elem_of_cons; [left|]. right. by apply IHl. }
    pose proof (proj1 (Forall_forall _ _) Hall p Hin). lia.
Qed.

(** [decode] recovers the primes and codes of the number that [encode]
    builds from them. *)
Lemma grouped_factors_prod primes codes :
  StronglySorted Z.lt primes -> Forall Z.prime primes ->
  Forall (fun c => 1 <= c) codes ->
  grouped_factors (prod (zip_with Z.pow primes codes)) = zip primes codes /\
  1 <= prod (zip_with Z.pow primes codes).
Proof.
  intros Hs Hp Hc. unfold grouped_factors. rewrite prod_expand by done.
  split.
  - rewrite factor_prod; [by apply groupby_expand|by apply expand_primes|by apply expand_sorted].
  - apply prod_primes_pos. by apply expand_primes.
Qed.

(** ** godel.py: decode of a number with more primes than the table *)

Lemma zip_with_pow_ones (l : list Z) : zip_with Z.pow l (replicate (length l) 1) = l.
Proof.
  induction l as [|p l IH]; [done|]. cbn [length replicate zip_with].
  by rewrite IH, Z.pow_1_r.
Qed.

Lemma zip_ones_snoc (l : list Z) (q : Z) :
  zip (l ++ [q]) (replicate (S (length l)) 1) = zip l (replicate (length l) 1) ++ [(q, 1)].
Proof.
  induction l as [|p l IH]; [done|]. cbn [app length replicate zip_with] in IH |- *.
  by rewrite IH.
Qed.

(** The code 1 is the sign [~], in any state. *)
Lemma decode_code_1 (state : State Z str) : decode_code state 1 = Return ([126%N], state).
Proof.
  assert (Hinv : inverse CONSTANT_SIGNS !! 1 = Some [126%N]) by (vm_compute; reflexivity).
  unfold decode_code. rewrite Hinv. reflexivity.
Qed.

(** The loop of [decode] over the primes of the table from [start] to
    its end, each with the code 1, followed by one more factor: the
    position of that factor is past the end of [PRIME]. *)
Lemma decode_loop_past_table (l : list Z) (q : Z) (start : nat) symbols state :
  (forall i p, l !! i = Some p -> PRIME_at (start + i) = Return p) ->
  PRIME_at (start + length l) = Raise IndexError ->
  for_each decode_factor (symbols, state)
    (enumerate_from start (zip (l ++ [q]) (replicate (S (length l)) 1)))
  = Raise IndexError.
Proof.
  revert start symbols. induction l as [|p l IH]; intros start symbols Hl Hend.
  - cbn [app length replicate zip_with enumerate_from for_each decode_factor].
    rewrite Nat.add_0_r in Hend. rewrite Hend. reflexivity.
  - cbn [app length replicate zip_with enumerate_from for_each decode_factor].
    pose proof (Hl 0%nat p eq_refl) as Hp. rewrite Nat.add_0_r in Hp. rewrite Hp, bind_Return.
    rewrite bool_decide_eq_false_2 by (intros Hne; by apply Hne).
    rewrite decode_code_1, !bind_Return.
    apply IH.
    + intros i p' Hi. replace (S start + i)%nat with (start + S i)%nat by lia.
      apply Hl. exact Hi.
    + replace (S start + length l)%nat with (start + length (p :: l))%nat
        by (cbn [length]; lia).
      exact Hend.
Qed.

Lemma prime_10007 : Z.prime 10007.
Proof. apply factor_prime_iff. vm_compute. reflexivity. Qed.

Lemma prime_10009 : Z.prime 10009.
Proof. apply factor_prime_iff. vm_compute. reflexivity. Qed.

(** The primes below 10007 are those of the table: 10007 is the prime
    after the last of [PRIME]. *)
Lemma primes_below_10007 (p : Z) : Z.prime p -> p < 10007 -> p ∈ PRIME.
Proof.
  intros Hp Hlt. apply PRIME_elem_of. split; [exact Hp|].
  unfold UPPERBOUND_OF_PRIMES.
  destruct (Z.le_gt_cases p 10000) as [Hle|Hgt]; [exact Hle|exfalso].
  destruct Hp as [_ Hp].
  assert (p = 10001 \/ p = 10002 \/ p = 10003 \/ p = 10004 \/ p = 10005 \/ p = 10006)
    as [->|[->|[->|[->|[->| ->]]]]] by lia.
  - apply (Hp 73); [lia|]. exists 137. lia.
  - apply (Hp 2); [lia|]. exists 5001. lia.
  - apply (Hp 7); [lia|]. exists 1429. lia.
  - apply (Hp 2); [lia|]. exists 5002. lia.
  - apply (Hp 5); [lia|]. exists 2001. lia.
  - apply (Hp 2); [lia|]. exists 5003. lia.
Qed.

Lemma grouped_factors_past_table :
  grouped_factors (prod PRIME * 10009)
  = zip (PRIME ++ [10009]) (replicate (S (length PRIME)) 1) /\
  1 <= prod PRIME * 10009.
Proof.
  assert (Hn : prod PRIME * 10009
               = prod (zip_with Z.pow (PRIME ++ [10009])
                         (replicate (length (PRIME ++ [10009])) 1))).
  { rewrite zip_with_pow_ones, prod_app, prod_cons, prod_nil. lia. }
  rewrite Hn. rewrite length_app, Nat.add_1_r.
  apply grouped_factors_prod.
  - apply StronglySorted_app_2.
    + intros x1 x2 [_ Hx1]%PRIME_elem_of ->%list_elem_of_singleton.
      unfold UPPERBOUND_OF_PRIMES in Hx1. lia.
    + apply PRIME_sorted.
    + repeat constructor.
  - apply Forall_app. split; [apply Forall_forall, PRIME_prime|].
    constructor; [apply prime_10009|constructor].
  - apply Forall_replicate. lia.
Qed.

(** C4 as stated fails: the product of the 1229 primes of the table and
    10009 has at position 1229 the prime 10009, not 10007, the prime that
    follows the table; [decode] reads the sign [~] at each position of
    the table, then [PRIME[1229]] raises [IndexError], not a
    [ValueError]. *)
Lemma decode_prime_past_table :
  1 <= prod PRIME * 10009 /\
  length PRIME = 1229%nat /\
  grouped_factors (prod PRIME * 10009) !! 1229%nat = Some (10009, 1) /\
  PRIME !! 1229%nat = None /\
  Z.prime 10007 /\ (forall p, Z.prime p -> p < 10007 -> p ∈ PRIME) /\ 10007 ≠ 10009 /\
  decode (prod PRIME * 10009) = Raise IndexError /\
  (forall msg, decode (prod PRIME * 10009) ≠ Raise (ValueError msg)).
Proof.
  destruct grouped_factors_past_table as [Hgf Hpos].
  assert (Hdec : decode (prod PRIME * 10009) = Raise IndexError).
  { unfold decode. rewrite bool_decide_eq_false_2 by lia. cbn zeta.
    rewrite Hgf. unfold enumerate. rewrite decode_loop_past_table; [reflexivity| |].
    - intros i p Hi. apply PRIME_at_Some. exact Hi.
    - unfold PRIME_at. rewrite lookup_ge_None_2; [reflexivity|]. cbn [Nat.add]. lia. }
  split; [exact Hpos|]. split; [exact PRIME_length|]. split.
  { rewrite Hgf, zip_ones_snoc, lookup_app_r.
    - rewrite length_zip_with, length_replicate, Nat.min_id, PRIME_length. reflexivity.
    - rewrite length_zip_with, length_replicate, Nat.min_id, PRIME_length. lia. }
  split; [apply lookup_ge_None_2; rewrite PRIME_length; lia|].
  split; [exact prime_10007|]. split; [exact primes_below_10007|]. split; [lia|].
  split; [exact Hdec|]. intros msg. rewrite Hdec. discriminate.
Qed.

(** ** Naming of variables: encode and decode side by side *)

Lemma next_var_name_size {K} `{Countable K} (assigned : gmap K str) pool :
  next_var_name assigned pool = var_name pool (size assigned).
Proof. reflexivity. Qed.

Lemma is_lexeme_nonempty pool l : is_lexeme pool l -> l ≠ [].
Proof. by intros (c & k & _ & ->). Qed.

Lemma code_prime_inj k1 k2 q : code_prime k1 q -> code_prime k2 q -> k1 = k2.
Proof. intros [H1] [H2]. pose proof (PRIME_lookup_inj _ _ _ H1 H2). lia. Qed.

Lemma code_prime_above k q : code_prime k q -> 12 < q.
Proof. intros [H]. exact (PRIME_above_offset _ _ H). Qed.

Lemma code_prime_elem k q : code_prime k q -> q ∈ PRIME.
Proof. intros [H]. exact (list_elem_of_lookup_2 _ _ _ H). Qed.

Lemma code_prime_prime k q : code_prime k q -> Z.prime q.
Proof. intros H. eapply PRIME_prime, code_prime_elem, H. Qed.

Lemma code_prime_at k q : code_prime k q -> PRIME_at (PRIME_OFFSET + k) = Return q.
Proof. intros [H]. exact (PRIME_at_Some _ _ H). Qed.

Lemma code_prime_exists k :
  (PRIME_OFFSET + k < length PRIME)%nat -> exists q, code_prime k q.
Proof.
  intros Hk. destruct (lookup_lt_is_Some_2 PRIME (PRIME_OFFSET + k) Hk) as [q Hq].
  exists q. exact (code_prime_intro _ _ Hq).
Qed.

(** The relation is kept by every variable that [encode] and [decode]
    meet. *)
Section shared_map.
Context (e1 e2 : Z) (pool1 pool2 : list str).

Hypothesis e1_pos : 1 <= e1.
Hypothesis pools_disjoint : forall l, is_lexeme pool1 l -> is_lexeme pool2 l -> False.

Lemma shared_inv_empty : shared_inv e1 e2 pool1 pool2 ∅ ∅ ∅ [] [].
Proof.
  unfold shared_inv. rewrite !map_size_empty.
  split; [done|]. split; [done|]. split; [done|]. split; [|by repeat split].
  intros l. split.
  - intros [? Hl]. by rewrite lookup_empty in Hl.
  - intros [?%elem_of_nil|?%elem_of_nil]; done.
Qed.

(** A lexeme of the first class met before: its code is in [E], and [D1]
    names the code by the lexeme. *)
Lemma shared_inv_seen E D1 D2 seen1 seen2 l :
  shared_inv e1 e2 pool1 pool2 E D1 D2 seen1 seen2 -> l ∈ seen1 ->
  exists k q, code_prime k q /\
    E !! l = Some (q ^ e1) /\ D1 !! (q ^ e1) = Some l /\ l ≠ [].
Proof.
  intros (_ & _ & _ & Hdom & HE & _ & _ & Hl1 & Hl2) Hl.
  destruct (proj2 (Hdom l) (or_introl Hl)) as [g Hg].
  destruct (HE l g Hg) as (k & q & _ & Hq & [(_ & -> & HD)|(Hl' & _)]).
  - exists k, q. split_and!; try done.
    eapply is_lexeme_nonempty, (proj1 (Forall_forall _ _) Hl1), Hl.
  - exfalso. apply (pools_disjoint l).
    + apply (proj1 (Forall_forall _ _) Hl1), Hl.
    + apply (proj1 (Forall_forall _ _) Hl2), Hl'.
Qed.

(** A new lexeme of the first class: it is not in [E], the next code is
    not in [D1], and after both insertions the relation holds again. *)
Lemma shared_inv_new E D1 D2 seen1 seen2 l q :
  shared_inv e1 e2 pool1 pool2 E D1 D2 seen1 seen2 -> is_lexeme pool1 l -> l ∉ seen1 ->
  code_prime (size E) q ->
  E !! l = None /\ D1 !! (q ^ e1) = None /\
  shared_inv e1 e2 pool1 pool2 (<[l := q ^ e1]> E) (<[q ^ e1 := l]> D1) D2
    (seen1 ++ [l]) seen2.
Proof.
  intros (HsE & HsD1 & HsD2 & Hdom & HE & HD1 & HD2 & Hl1 & Hl2) Hlex Hnew Hq.
  assert (HEl : E !! l = None).
  { apply eq_None_not_Some. intros [Hin|Hin]%Hdom; [done|].
    apply (pools_disjoint l Hlex), (proj1 (Forall_forall _ _) Hl2), Hin. }
  assert (HDq : D1 !! (q ^ e1) = None).
  { apply eq_None_not_Some. intros [l' Hl'].
    destruct (HD1 _ _ Hl') as [HEl' Hin1].
    destruct (HE _ _ HEl') as (k & q' & Hk & Hq' & [(_ & Hpow & _)|(Hin2 & _)]).
    - apply code_prime_above in Hq as Hq12. apply code_prime_above in Hq' as Hq'12.
      apply Z.pow_inj_l in Hpow; [|lia..]. subst q'.
      pose proof (code_prime_inj _ _ _ Hq Hq'). lia.
    - apply (pools_disjoint l').
      + apply (proj1 (Forall_forall _ _) Hl1), Hin1.
      + apply (proj1 (Forall_forall _ _) Hl2), Hin2. }
  split; [done|]. split; [done|].
  unfold shared_inv. rewrite !map_size_insert_None, length_app by done.
  split; [cbn; lia|]. split; [cbn; lia|]. split; [done|].
  split; [|split; [|split; [|split; [|split]]]].
  - intros l'. rewrite lookup_insert_is_Some, elem_of_app, list_elem_of_singleton, Hdom.
    destruct (decide (l = l')) as [->|Hne]; [tauto|]. intuition congruence.
  - intros l' g. destruct (decide (l' = l)) as [->|Hne].
    + rewrite lookup_insert_eq. intros [= <-]. exists (size E), q.
      split; [lia|]. split; [done|]. left.
      rewrite elem_of_app, list_elem_of_singleton, lookup_insert_eq. auto.
    + rewrite lookup_insert_ne by done. intros Hg.
      destruct (HE _ _ Hg) as (k & q' & Hk & Hq' & Hcase).
      exists k, q'. split; [lia|]. split; [done|].
      destruct Hcase as [(Hin & -> & HD)|(Hin & -> & HD)]; [left|right; done].
      rewrite elem_of_app. split; [by left|]. split; [done|].
      rewrite lookup_insert_ne; [done|]. intros Heq. rewrite Heq in HDq. congruence.
  - intros g l'. destruct (decide (g = q ^ e1)) as [->|Hne].
    + rewrite lookup_insert_eq. intros [= <-].
      rewrite lookup_insert_eq, elem_of_app, list_elem_of_singleton. auto.
    + rewrite lookup_insert_ne by done. intros [HEl' Hin]%HD1.
      rewrite elem_of_app. split; [|by left].
      rewrite lookup_insert_ne; [done|]. intros ->. congruence.
  - intros g l' [HEl' Hin]%HD2. split; [|done].
    rewrite lookup_insert_ne; [done|]. intros ->. congruence.
  - apply Forall_app. split; [done|]. by constructor.
  - done.
Qed.
End shared_map.

Lemma shared_inv_sym e1 e2 pool1 pool2 E D1 D2 seen1 seen2 :
  shared_inv e1 e2 pool1 pool2 E D1 D2 seen1 seen2 ->
  shared_inv e2 e1 pool2 pool1 E D2 D1 seen2 seen1.
Proof.
  intros (HsE & HsD1 & HsD2 & Hdom & HE & HD1 & HD2 & Hl1 & Hl2).
  unfold shared_inv. split; [lia|]. split_and!; try done.
  - intros l. rewrite Hdom. tauto.
  - intros l g (k & q & Hk & Hq & Hcase)%HE. exists k, q. tauto.
Qed.

(** ** The codes of the classes, as [decode] tells them apart *)

Lemma found_symbol_inverse_above g :
  12 < g -> found_symbol (inverse CONSTANT_SIGNS !! g) = None.
Proof.
  intros Hg. destruct (inverse CONSTANT_SIGNS !! g) as [l|] eqn:Hl; [|reflexivity].
  apply CONSTANT_SIGNS_inverse_range in Hl. lia.
Qed.

Lemma decode_code_constant c :
  c ∈ constant_chars ->
  exists g, mapping CONSTANT_SIGNS !! [c] = Some g /\ 1 <= g /\
    forall D, decode_code D g = Return ([c], D).
Proof.
  intros [g Hg]%constant_chars_mapping. exists g. split; [exact Hg|].
  apply CONSTANT_SIGNS_mapping_inverse in Hg as Hinv.
  pose proof (CONSTANT_SIGNS_inverse_range _ _ Hinv) as [Hr _]. split; [lia|].
  intros D. unfold decode_code. by rewrite Hinv.
Qed.

Lemma decode_code_numerical D k q :
  code_prime k q -> decode_code D q = Return (decode_numerical_variable D q).
Proof.
  intros Hq. unfold decode_code.
  rewrite found_symbol_inverse_above by by eapply code_prime_above.
  rewrite bool_decide_eq_true_2; [reflexivity|]. by eapply code_prime_elem.
Qed.

Lemma size_list_to_set_replicate (k : nat) (q : Z) :
  size (list_to_set (replicate (S k) q) : gset Z) = 1%nat.
Proof.
  assert (list_to_set (replicate (S k) q) = ({[q]} : gset Z)) as ->.
  { induction k as [|k IH]; [cbn; by rewrite (right_id_L ∅ (∪))|].
    change (replicate (S (S k)) q) with (q :: replicate (S k) q).
    rewrite list_to_set_cons, IH. by rewrite (idemp_L (∪)). }
  apply size_singleton.
Qed.

Lemma power_not_in_PRIME q (k : nat) :
  1 < q -> (2 <= k)%nat -> q ^ Z.of_nat k ∉ PRIME.
Proof.
  intros Hq Hk [_ Hp]%PRIME_prime. apply (Hp q).
  - split; [lia|]. replace (Z.of_nat k) with (1 + Z.of_nat (k - 1)) by lia.
    rewrite Z.pow_add_r, Z.pow_1_r by lia.
    assert (1 < q ^ Z.of_nat (k - 1)); [|nia].
    apply Z.pow_gt_1; lia.
  - apply Z.divide_pow_same_r. lia.
Qed.

Lemma decode_code_sentential D k q :
  code_prime k q -> decode_code D (q ^ 2) = Return (decode_sentential_variable D (q ^ 2)).
Proof.
  intros Hq. pose proof (code_prime_above _ _ Hq) as Hq12.
  unfold decode_code.
  rewrite found_symbol_inverse_above by nia.
  rewrite bool_decide_eq_false_2 by (apply (power_not_in_PRIME q 2); lia).
  assert (Hf : factor (q ^ 2) = replicate 2 q).
  { apply (factor_prime_power q 2). by eapply code_prime_prime. }
  cbn zeta. rewrite !Hf, size_list_to_set_replicate.
  rewrite bool_decide_eq_false_2 by (intros ?; done).
  cbn [replicate length lookup_total list_lookup_total].
  rewrite (bool_decide_eq_true_2 (2 = 2)%nat) by reflexivity.
  rewrite (bool_decide_eq_true_2 (q ∈ PRIME)) by by eapply code_prime_elem.
  reflexivity.
Qed.

Lemma decode_code_predicate D k q :
  code_prime k q -> decode_code D (q ^ 3) = Return (decode_predicate_variable D (q ^ 3)).
Proof.
  intros Hq. pose proof (code_prime_above _ _ Hq) as Hq12.
  unfold decode_code.
  rewrite found_symbol_inverse_above by nia.
  rewrite bool_decide_eq_false_2 by (apply (power_not_in_PRIME q 3); lia).
  assert (Hf : factor (q ^ 3) = replicate 3 q).
  { apply (factor_prime_power q 3). by eapply code_prime_prime. }
  cbn zeta. rewrite !Hf, size_list_to_set_replicate.
  rewrite bool_decide_eq_false_2 by (intros ?; done).
  cbn [replicate length lookup_total list_lookup_total].
  rewrite (bool_decide_eq_false_2 (3 = 2)%nat) by lia. cbn [andb].
  rewrite (bool_decide_eq_true_2 (3 = 3)%nat) by reflexivity.
  rewrite (bool_decide_eq_true_2 (q ∈ PRIME)) by by eapply code_prime_elem.
  reflexivity.
Qed.

(** ** One token through [encode] and its code through [decode] *)

Lemma no_lexeme_of_empty_pool pool l : is_lexeme pool l -> is_lexeme [] l -> False.
Proof. intros _ (c & k & Hc & _). by apply elem_of_nil in Hc. Qed.

Lemma sentntial_predicate_disjoint l :
  is_lexeme SENTNTIAL_VARIABLES l -> is_lexeme PREDICATE_VARIABLES l -> False.
Proof.
  intros (c & k & Hc & ->) (c' & k' & Hc' & [= <- _]).
  cbn in Hc, Hc'.
  repeat (apply elem_of_cons in Hc as [->|Hc]);
    repeat (apply elem_of_cons in Hc' as [Hc'|Hc']); try lia;
    try (by apply elem_of_nil in Hc); by apply elem_of_nil in Hc'.
Qed.

Lemma found_code_nonzero g : g ≠ 0 -> found_code (Some g) = Some g.
Proof. intros Hg. cbn. by destruct (Z.eqb_spec g 0). Qed.

Lemma found_symbol_nonempty l : l ≠ [] -> found_symbol (Some l) = Some l.
Proof. by destruct l. Qed.

Lemma has_room_le n m : has_room n -> (m <= n)%nat -> has_room m.
Proof. intros [Hn] Hm. constructor. lia. Qed.

Lemma has_room_code_prime n k : has_room n -> (k < n)%nat -> exists q, code_prime k q.
Proof. intros [Hn] Hk. apply code_prime_exists. lia. Qed.

Lemma roundtrip_inv_init : roundtrip_inv State_init State_init [] [] [].
Proof. split; apply shared_inv_empty. Qed.

(** A numerical variable. *)
Lemma numerical_step E D seenN seenS seenP l :
  roundtrip_inv E D seenN seenS seenP -> is_lexeme NUMERICAL_VARIABLES l ->
  (l ∈ seenN \/
   l = var_name NUMERICAL_VARIABLES (length seenN) /\
   has_room (S (length seenN))) ->
  exists g E' D',
    encode_numerical_variable E l = Return (Some g, E') /\
    encoding E' = encoding E /\ 1 <= g /\
    decode_code D g = Return (l, D') /\
    roundtrip_inv E' D' (seen_step seenN l) seenS seenP.
Proof.
  intros [HN HSP] Hlex Hadm. unfold seen_step.
  destruct (decide (l ∈ seenN)) as [Hin|Hnew].
  - rewrite bool_decide_eq_true_2 by done.
    destruct (shared_inv_seen 1 1 _ _ (no_lexeme_of_empty_pool _) _ _ _ _ _ _ HN Hin)
      as (k & q & Hq & HE & HD & Hne).
    rewrite Z.pow_1_r in HE, HD. pose proof (code_prime_above _ _ Hq) as Hq12.
    exists q, E, D. split_and!; try done; try lia.
    + unfold encode_numerical_variable. rewrite HE, found_code_nonzero by lia. done.
    + rewrite (decode_code_numerical D k q Hq). unfold decode_numerical_variable.
      rewrite HD, found_symbol_nonempty by done. done.
  - rewrite bool_decide_eq_false_2 by done.
    destruct Hadm as [?|[Hname Hcap]]; [done|].
    pose proof HN as (HsE & HsD & _). cbn [length] in HsE.
    destruct (has_room_code_prime _ (size (numerical_variables E)) Hcap) as [q Hq]; [lia|].
    destruct (shared_inv_new 1 1 _ _ ltac:(lia) (no_lexeme_of_empty_pool _) _ _ _ _ _ _ _
                HN Hlex Hnew Hq) as (HE & HD & HN').
    rewrite Z.pow_1_r in HD, HN'. pose proof (code_prime_above _ _ Hq) as Hq12.
    eexists q, _, _. split_and!.
    + unfold encode_numerical_variable. rewrite HE. cbn [found_code].
      rewrite (code_prime_at _ _ Hq), bind_Return. reflexivity.
    + reflexivity.
    + lia.
    + rewrite (decode_code_numerical D _ q Hq). unfold decode_numerical_variable.
      rewrite HD. cbn [found_symbol]. rewrite next_var_name_size, HsD, <- Hname.
      reflexivity.
    + split; [exact HN'|exact HSP].
Qed.

(** A sentential variable. *)
Lemma sentntial_step E D seenN seenS seenP l :
  roundtrip_inv E D seenN seenS seenP -> is_lexeme SENTNTIAL_VARIABLES l ->
  (l ∈ seenS \/
   l = var_name SENTNTIAL_VARIABLES (length seenS) /\
   has_room (S (length seenS + length seenP))) ->
  exists g E' D',
    encode_sentntial_variable E l = Return (Some g, E') /\
    encoding E' = encoding E /\ 1 <= g /\
    decode_code D g = Return (l, D') /\
    roundtrip_inv E' D' seenN (seen_step seenS l) seenP.
Proof.
  intros [HN HSP] Hlex Hadm. unfold seen_step.
  destruct (decide (l ∈ seenS)) as [Hin|Hnew].
  - rewrite bool_decide_eq_true_2 by done.
    destruct (shared_inv_seen 2 3 _ _ sentntial_predicate_disjoint _ _ _ _ _ _ HSP Hin)
      as (k & q & Hq & HE & HD & Hne).
    pose proof (code_prime_above _ _ Hq) as Hq12.
    exists (q ^ 2), E, D. split_and!; try done; try nia.
    + unfold encode_sentntial_variable. rewrite HE, found_code_nonzero by nia. done.
    + rewrite (decode_code_sentential D k q Hq). unfold decode_sentential_variable.
      rewrite HD, found_symbol_nonempty by done. done.
  - rewrite bool_decide_eq_false_2 by done.
    destruct Hadm as [?|[Hname Hcap]]; [done|].
    pose proof HSP as (HsE & HsD & _).
    destruct (has_room_code_prime _ (size (sentntial_variables E)) Hcap) as [q Hq]; [lia|].
    destruct (shared_inv_new 2 3 _ _ ltac:(lia) sentntial_predicate_disjoint _ _ _ _ _ _ _
                HSP Hlex Hnew Hq) as (HE & HD & HSP').
    pose proof (code_prime_above _ _ Hq) as Hq12.
    eexists (q ^ 2), _, _. split_and!.
    + unfold encode_sentntial_variable. rewrite HE. cbn [found_code].
      rewrite (code_prime_at _ _ Hq), bind_Return. reflexivity.
    + reflexivity.
    + nia.
    + rewrite (decode_code_sentential D _ q Hq). unfold decode_sentential_variable.
      rewrite HD. cbn [found_symbol]. rewrite next_var_name_size, HsD, <- Hname.
      reflexivity.
    + split; [exact HN|exact HSP'].
Qed.

(** A predicate variable: [encode] keeps it in the map of the sentential
    variables, [decode] in the map of its own class. *)
Lemma predicate_step E D seenN seenS seenP l :
  roundtrip_inv E D seenN seenS seenP -> is_lexeme PREDICATE_VARIABLES l ->
  (l ∈ seenP \/
   l = var_name PREDICATE_VARIABLES (length seenP) /\
   has_room (S (length seenS + length seenP))) ->
  exists g E' D',
    encode_predicate_variable E l = Return (Some g, E') /\
    encoding E' = encoding E /\ 1 <= g /\
    decode_code D g = Return (l, D') /\
    roundtrip_inv E' D' seenN seenS (seen_step seenP l).
Proof.
  intros [HN HSP] Hlex Hadm. unfold seen_step. apply shared_inv_sym in HSP.
  assert (Hdisj : forall l, is_lexeme PREDICATE_VARIABLES l ->
                            is_lexeme SENTNTIAL_VARIABLES l -> False).
  { intros l' H1 H2. exact (sentntial_predicate_disjoint l' H2 H1). }
  destruct (decide (l ∈ seenP)) as [Hin|Hnew].
  - rewrite bool_decide_eq_true_2 by done.
    destruct (shared_inv_seen 3 2 _ _ Hdisj _ _ _ _ _ _ HSP Hin)
      as (k & q & Hq & HE & HD & Hne).
    pose proof (code_prime_above _ _ Hq) as Hq12.
    assert (1 <= q ^ 3) by (pose proof (Z.pow_pos_nonneg q 3); lia).
    exists (q ^ 3), E, D. split_and!; try done.
    + unfold encode_predicate_variable. rewrite HE, found_code_nonzero by lia. done.
    + rewrite (decode_code_predicate D k q Hq). unfold decode_predicate_variable.
      rewrite HD, found_symbol_nonempty by done. done.
    + split; [exact HN|]. by apply shared_inv_sym.
  - rewrite bool_decide_eq_false_2 by done.
    destruct Hadm as [?|[Hname Hcap]]; [done|].
    pose proof HSP as (HsE & HsD & _).
    destruct (has_room_code_prime _ (size (sentntial_variables E)) Hcap) as [q Hq]; [lia|].
    destruct (shared_inv_new 3 2 _ _ ltac:(lia) Hdisj _ _ _ _ _ _ _
                HSP Hlex Hnew Hq) as (HE & HD & HSP').
    pose proof (code_prime_above _ _ Hq) as Hq12.
    assert (1 <= q ^ 3) by (pose proof (Z.pow_pos_nonneg q 3); lia).
    eexists (q ^ 3), _, _. split_and!.
    + unfold encode_predicate_variable. rewrite HE. cbn [found_code].
      rewrite (code_prime_at _ _ Hq), bind_Return. reflexivity.
    + reflexivity.
    + lia.
    + rewrite (decode_code_predicate D _ q Hq). unfold decode_predicate_variable.
      rewrite HD. cbn [found_symbol]. rewrite next_var_name_size, HsD, <- Hname.
      reflexivity.
    + split; [exact HN|]. apply shared_inv_sym. exact HSP'.
Qed.

(** ** The round trip over a sequence of tokens *)

Lemma lexemes_of_cons_eq ty l tokens :
  lexemes_of ty ((ty, l) :: tokens) = l :: lexemes_of ty tokens.
Proof. unfold lexemes_of. rewrite filter_cons. cbn [fst]. by rewrite decide_True. Qed.

Lemma lexemes_of_cons_ne ty ty' l tokens :
  ty' ≠ ty -> lexemes_of ty ((ty', l) :: tokens) = lexemes_of ty tokens.
Proof.
  intros Hne. unfold lexemes_of. rewrite filter_cons. cbn [fst].
  by rewrite decide_False.
Qed.

Lemma seen_after_cons_eq ty seen l tokens :
  seen_after ty seen ((ty, l) :: tokens) = seen_after ty (seen_step seen l) tokens.
Proof. unfold seen_after. by rewrite lexemes_of_cons_eq. Qed.

Lemma seen_after_cons_ne ty ty' seen l tokens :
  ty' ≠ ty -> seen_after ty seen ((ty', l) :: tokens) = seen_after ty seen tokens.
Proof. intros Hne. unfold seen_after. by rewrite lexemes_of_cons_ne. Qed.

Ltac seen_after_cons :=
  repeat first [ rewrite seen_after_cons_eq
               | rewrite seen_after_cons_ne by discriminate ].

Ltac seen_after_cons_in H :=
  repeat first [ rewrite seen_after_cons_eq in H
               | rewrite seen_after_cons_ne in H by discriminate ].

Lemma token_step E D seenN seenS seenP ty l rest :
  roundtrip_inv E D seenN seenS seenP -> token_wf (ty, l) ->
  admissible seenN seenS seenP ((ty, l) :: rest) ->
  exists g E1 D1,
    lexmap ty E l = Return (Some g, E1) /\ encoding E1 = encoding E /\ 1 <= g /\
    decode_code D g = Return (l, D1) /\
    roundtrip_inv E1 D1 (seen_after numerical_type seenN [(ty, l)])
      (seen_after sentntial_type seenS [(ty, l)])
      (seen_after predicate_type seenP [(ty, l)]) /\
    admissible (seen_after numerical_type seenN [(ty, l)])
      (seen_after sentntial_type seenS [(ty, l)])
      (seen_after predicate_type seenP [(ty, l)]) rest.
Proof.
  intros Hinv Hwf Hadm.
  inversion Hwf as [c Hc|c k Hc|c k Hc|c k Hc]; subst; cbn in Hadm; seen_after_cons;
    unfold seen_after; cbn [lexemes_of filter list_filter fmap list_fmap foldl].
  - destruct (decode_code_constant c Hc) as (g & Hg & Hg1 & Hdec).
    exists g, E, D. split_and!; try done.
    cbn [lexmap]. unfold encode_constant_sign. by rewrite Hg.
  - destruct Hadm as [Hl Hrest].
    destruct (numerical_step E D seenN seenS seenP (c :: replicate k TICK) Hinv)
      as (g & E1 & D1 & H1 & H2 & H3 & H4 & H5); [by exists c, k|done|].
    by exists g, E1, D1.
  - destruct Hadm as [Hl Hrest].
    destruct (sentntial_step E D seenN seenS seenP (c :: replicate k TICK) Hinv)
      as (g & E1 & D1 & H1 & H2 & H3 & H4 & H5); [by exists c, k|done|].
    by exists g, E1, D1.
  - destruct Hadm as [Hl Hrest].
    destruct (predicate_step E D seenN seenS seenP (c :: replicate k TICK) Hinv)
      as (g & E1 & D1 & H1 & H2 & H3 & H4 & H5); [by exists c, k|done|].
    by exists g, E1, D1.
Qed.

Lemma seen_after_cons ty seen t tokens :
  seen_after ty seen (t :: tokens) = seen_after ty (seen_after ty seen [t]) tokens.
Proof.
  unfold seen_after, lexemes_of. change (t :: tokens) with ([t] ++ tokens).
  by rewrite filter_app, fmap_app, foldl_app.
Qed.

(** [encode] reads admissible tokens to the end, and [decode] names the
    codes it produced, at any positions, by the lexemes of the tokens. *)
Lemma roundtrip_tokens tokens E D seenN seenS seenP :
  roundtrip_inv E D seenN seenS seenP -> Forall token_wf tokens ->
  admissible seenN seenS seenP tokens ->
  exists codes E' D',
    for_each encode_token E tokens = Return E' /\
    encoding E' = encoding E ++ (Some <$> codes) /\
    Forall (fun g => 1 <= g) codes /\ length codes = length tokens /\
    roundtrip_inv E' D' (seen_after numerical_type seenN tokens)
      (seen_after sentntial_type seenS tokens) (seen_after predicate_type seenP tokens) /\
    forall start symbols, (start + length tokens <= length PRIME)%nat ->
      for_each decode_factor (symbols, D)
        (enumerate_from start (zip (drop start PRIME) codes))
      = Return (symbols ++ tokens.*2, D').
Proof.
  intros Hinv Hwf. revert E D seenN seenS seenP Hinv.
  induction Hwf as [|[ty l] tokens Hwf _ IH]; intros E D seenN seenS seenP Hinv Hadm.
  - exists [], E, D. split_and!; [done|by rewrite app_nil_r|constructor|done|done|].
    intros start symbols _. rewrite zip_with_nil_r, app_nil_r. done.
  - destruct (token_step _ _ _ _ _ _ _ _ Hinv Hwf Hadm)
      as (g & E1 & D1 & Hlex & Henc & Hg & Hdec & Hinv1 & Hadm1).
    set (E2 := {| encoding := encoding E1 ++ [Some g];
                  numerical_variables := numerical_variables E1;
                  sentntial_variables := sentntial_variables E1;
                  predicate_variables := predicate_variables E1 |}).
    destruct (IH E2 D1 _ _ _ Hinv1 Hadm1)
      as (codes & E' & D' & Hrun & HencE' & Hcodes & Hlencodes & Hinv' & Hdecode).
    exists (g :: codes), E', D'. split_and!.
    + cbn [for_each encode_token]. rewrite Hlex, !bind_Return. exact Hrun.
    + rewrite HencE'. cbn [encoding E2]. rewrite Henc, <- app_assoc. done.
    + by constructor.
    + cbn [length]. by rewrite Hlencodes.
    + rewrite (seen_after_cons numerical_type seenN (ty, l) tokens),
        (seen_after_cons sentntial_type seenS (ty, l) tokens),
        (seen_after_cons predicate_type seenP (ty, l) tokens).
      exact Hinv'.
    + intros start symbols Hlen. cbn [length] in Hlen.
      destruct (lookup_lt_is_Some_2 PRIME start) as [p Hp]; [lia|].
      rewrite (drop_S _ _ _ Hp). cbn [zip_with enumerate_from for_each decode_factor].
      rewrite (PRIME_at_Some _ _ Hp), bind_Return.
      rewrite bool_decide_eq_false_2 by (intros Hpp; by apply Hpp).
      rewrite Hdec, !bind_Return.
      rewrite (Hdecode (S start) (symbols ++ [l])) by lia.
      cbn [fmap list_fmap snd]. by rewrite <- app_assoc.
Qed.

(** ** Canonical names *)

Lemma seen_step_prefix seen l : seen `prefix_of` seen_step seen l.
Proof. unfold seen_step. case_bool_decide; [done|]. by apply prefix_app_r. Qed.

Lemma foldl_seen_step_prefix ls seen : seen `prefix_of` foldl seen_step seen ls.
Proof.
  revert seen. induction ls as [|l ls IH]; intros seen; [done|].
  cbn [foldl]. etrans; [apply seen_step_prefix|apply IH].
Qed.

(** A new lexeme: it is the next of the distinct lexemes, whatever
    follows. *)
Lemma seen_after_new ty tokens seen l :
  l ∉ seen ->
  seen_after ty (seen_step seen l) tokens !! length seen = Some l /\
  (length seen < length (seen_after ty (seen_step seen l) tokens))%nat.
Proof.
  intros Hnew. unfold seen_after.
  destruct (foldl_seen_step_prefix (lexemes_of ty tokens) (seen_step seen l)) as [more Hmore].
  rewrite Hmore. unfold seen_step. rewrite bool_decide_eq_false_2 by done.
  rewrite <- app_assoc. split.
  - rewrite lookup_app_r by lia. by rewrite Nat.sub_diag.
  - rewrite !length_app. cbn. lia.
Qed.

Lemma seen_after_length ty tokens seen :
  (length seen <= length (seen_after ty seen tokens))%nat.
Proof.
  unfold seen_after.
  destruct (foldl_seen_step_prefix (lexemes_of ty tokens) seen) as [more ->].
  rewrite length_app. lia.
Qed.

Lemma admissible_canonical tokens seenN seenS seenP :
  (forall i l, seen_after numerical_type seenN tokens !! i = Some l ->
     l = var_name NUMERICAL_VARIABLES i) ->
  (forall i l, seen_after sentntial_type seenS tokens !! i = Some l ->
     l = var_name SENTNTIAL_VARIABLES i) ->
  (forall i l, seen_after predicate_type seenP tokens !! i = Some l ->
     l = var_name PREDICATE_VARIABLES i) ->
  has_room (length (seen_after numerical_type seenN tokens)) ->
  has_room (length (seen_after sentntial_type seenS tokens)
            + length (seen_after predicate_type seenP tokens)) ->
  admissible seenN seenS seenP tokens.
Proof.
  revert seenN seenS seenP.
  induction tokens as [|[ty l] tokens IH]; intros seenN seenS seenP HN HS HP HcapN HcapSP;
    [done|].
  pose proof (seen_after_length numerical_type tokens seenN) as HlenN.
  pose proof (seen_after_length sentntial_type tokens seenS) as HlenS.
  pose proof (seen_after_length predicate_type tokens seenP) as HlenP.
  destruct ty; cbn [admissible];
    seen_after_cons_in HN; seen_after_cons_in HS; seen_after_cons_in HP;
    seen_after_cons_in HcapN; seen_after_cons_in HcapSP.
  - apply IH; assumption.
  - split; [|apply IH; assumption].
    destruct (decide (l ∈ seenN)) as [?|Hnew]; [by left|right].
    destruct (seen_after_new numerical_type tokens seenN l Hnew) as [Hl Hlt].
    split; [exact (HN _ _ Hl)|]. eapply has_room_le; [exact HcapN|lia].
  - split; [|apply IH; assumption].
    destruct (decide (l ∈ seenS)) as [?|Hnew]; [by left|right].
    destruct (seen_after_new sentntial_type tokens seenS l Hnew) as [Hl Hlt].
    split; [exact (HS _ _ Hl)|]. eapply has_room_le; [exact HcapSP|lia].
  - split; [|apply IH; assumption].
    destruct (decide (l ∈ seenP)) as [?|Hnew]; [by left|right].
    destruct (seen_after_new predicate_type tokens seenP l Hnew) as [Hl Hlt].
    split; [exact (HP _ _ Hl)|]. eapply has_room_le; [exact HcapSP|lia].
Qed.

(** ** The round trip *)

(** The text of tokens that can be read from the start comes back from
    [decode (encode s)]. *)
Lemma decode_encode_admissible (s : str) (tokens : list token) :
  Lexer_scan Lexer_init s = Return tokens ->
  (length tokens <= length PRIME)%nat ->
  admissible [] [] [] tokens ->
  decode_encode s = Return s.
Proof.
  intros Hscan Hlen Hadm. unfold decode_encode, encode.
  case_bool_decide as Hs; [subst s; reflexivity|].
  cbn zeta. rewrite Hscan, bind_Return.
  apply Lexer_scan_Return in Hscan as [Hconcat Hwf].
  destruct (roundtrip_tokens tokens State_init State_init [] [] [] roundtrip_inv_init Hwf Hadm)
    as (codes & E' & D' & Hrun & Henc & Hcodes & Hlencodes & _ & Hdecode).
  rewrite Hrun, bind_Return, Henc. cbn [encoding State_init app].
  unfold enumerate. rewrite generate_prime_power by lia.
  rewrite !bind_Return, drop_0.
  destruct (grouped_factors_prod PRIME codes PRIME_sorted) as [Hgf Hpos];
    [apply Forall_forall, PRIME_prime|done|].
  unfold decode. rewrite bool_decide_eq_false_2 by lia. cbn zeta. rewrite Hgf.
  specialize (Hdecode 0%nat [] ltac:(lia)).
  rewrite drop_0 in Hdecode. unfold enumerate. rewrite Hdecode, bind_Return.
  by rewrite Hconcat.
Qed.

(** ** The round trip: claims *)

Lemma canonical_intro pool ty tokens :
  first_seen (lexemes_of ty tokens)
  = var_name pool <$> seq 0 (length (first_seen (lexemes_of ty tokens))) ->
  canonical pool ty tokens.
Proof.
  intros Heq i l Hl. rewrite Heq, list_lookup_fmap in Hl.
  destruct (seq _ _ !! i) as [j|] eqn:Hj; [|done].
  apply lookup_seq in Hj as [-> _]. by injection Hl as <-.
Qed.

Lemma decode_encode_canonical_names (s : str) (tokens : list token) :
  Lexer_scan Lexer_init s = Return tokens ->
  (length tokens <= length PRIME)%nat ->
  canonical NUMERICAL_VARIABLES numerical_type tokens ->
  canonical SENTNTIAL_VARIABLES sentntial_type tokens ->
  canonical PREDICATE_VARIABLES predicate_type tokens ->
  has_room (length (first_seen (lexemes_of numerical_type tokens))) ->
  has_room (length (first_seen (lexemes_of sentntial_type tokens))
            + length (first_seen (lexemes_of predicate_type tokens))) ->
  decode_encode s = Return s.
Proof.
  intros Hscan Hlen HN HS HP HcapN HcapSP.
  apply (decode_encode_admissible s tokens Hscan Hlen).
  apply admissible_canonical; assumption.
Qed.

(** C1 as stated fails: [y] alone is a valid token, and it comes back as
    [x], the first name that [decode] gives. *)
Lemma decode_encode_renames_y :
  Lexer_scan Lexer_init (pystr "y") = Return [(numerical_type, pystr "y")] /\
  decode_encode (pystr "y") = Return (pystr "x") /\
  decode_encode (pystr "y") ≠ Return (pystr "y").
Proof. eval_with_PRIME_prefix. split_and!; [reflexivity..|discriminate]. Qed.

(** C1, amended: for every string [s] of valid tokens, at most as many as
    there are primes, in which the variables of each class first occur in
    the order of the names that [decode] gives (the [i]-th distinct
    lexeme is the [i mod K]-th letter of the pool with [i div K] ticks),
    and which has at most [len(PRIME) - PRIME_OFFSET] distinct numerical
    variables and at most as many distinct sentential and predicate
    variables together, [decode (encode s) = s]. *)
Theorem decode_encode_canonical (s : str) (tokens : list token) :
  Lexer_scan Lexer_init s = Return tokens ->
  (length tokens <= length PRIME)%nat ->
  canonical NUMERICAL_VARIABLES numerical_type tokens ->
  canonical SENTNTIAL_VARIABLES sentntial_type tokens ->
  canonical PREDICATE_VARIABLES predicate_type tokens ->
  (PRIME_OFFSET + length (first_seen (lexemes_of numerical_type tokens))
   <= length PRIME)%nat ->
  (PRIME_OFFSET + (length (first_seen (lexemes_of sentntial_type tokens))
                   + length (first_seen (lexemes_of predicate_type tokens)))
   <= length PRIME)%nat ->
  decode_encode s = Return s.
Proof.
  intros Hscan Hlen HN HS HP HcapN%has_room_intro HcapSP%has_room_intro.
  by apply (decode_encode_canonical_names s tokens).
Qed.

Lemma decode_encode_canonical_witness :
  Lexer_scan Lexer_init test_string2 = Return test_tokens2 /\
  (length test_tokens2 <= length PRIME)%nat /\
  canonical NUMERICAL_VARIABLES numerical_type test_tokens2 /\
  canonical SENTNTIAL_VARIABLES sentntial_type test_tokens2 /\
  canonical PREDICATE_VARIABLES predicate_type test_tokens2 /\
  (PRIME_OFFSET + length (first_seen (lexemes_of numerical_type test_tokens2))
   <= length PRIME)%nat /\
  (PRIME_OFFSET + (length (first_seen (lexemes_of sentntial_type test_tokens2))
                   + length (first_seen (lexemes_of predicate_type test_tokens2)))
   <= length PRIME)%nat /\
  decode_encode test_string2 = Return test_string2.
Proof.
  assert (H1 : Lexer_scan Lexer_init test_string2 = Return test_tokens2)
    by (vm_compute; reflexivity).
  assert (H2 : (length test_tokens2 <= length PRIME)%nat)
    by (rewrite PRIME_length; vm_compute; lia).
  assert (H3 : canonical NUMERICAL_VARIABLES numerical_type test_tokens2)
    by (apply canonical_intro; vm_compute; reflexivity).
  assert (H4 : canonical SENTNTIAL_VARIABLES sentntial_type test_tokens2)
    by (apply canonical_intro; vm_compute; reflexivity).
  assert (H5 : canonical PREDICATE_VARIABLES predicate_type test_tokens2)
    by (apply canonical_intro; vm_compute; reflexivity).
  assert (H6 : (PRIME_OFFSET + length (first_seen (lexemes_of numerical_type test_tokens2))
                <= length PRIME)%nat)
    by (rewrite PRIME_length, PRIME_OFFSET_value; vm_compute; lia).
  assert (H7 : (PRIME_OFFSET
                + (length (first_seen (lexemes_of sentntial_type test_tokens2))
                   + length (first_seen (lexemes_of predicate_type test_tokens2)))
                <= length PRIME)%nat)
    by (rewrite PRIME_length, PRIME_OFFSET_value; vm_compute; lia).
  split_and!; try assumption.
  exact (decode_encode_canonical test_string2 test_tokens2 H1 H2 H3 H4 H5 H6 H7).
Defined.

(** *** More variables than primes *)

Lemma var_name_numerical i :
  exists c, c ∈ concat NUMERICAL_VARIABLES /\
    NUMERICAL_VARIABLES !! (i mod 3)%nat = Some [c] /\
    var_name NUMERICAL_VARIABLES i = c :: replicate (i / 3)%nat TICK.
Proof.
  unfold var_name. change (length NUMERICAL_VARIABLES) with 3%nat.
  pose proof (Nat.mod_upper_bound i 3 ltac:(lia)) as Hlt.
  destruct (i mod 3)%nat as [|[|[|?]]]; [| | |lia]; eexists; (split; [|split; reflexivity]);
    cbn; rewrite !elem_of_cons; auto.
Qed.

Lemma var_name_numerical_lexeme i :
  is_lexeme NUMERICAL_VARIABLES (var_name NUMERICAL_VARIABLES i).
Proof. destruct (var_name_numerical i) as (c & Hc & _ & ->). by exists c, (i / 3)%nat. Qed.

Lemma var_name_numerical_inj i j :
  var_name NUMERICAL_VARIABLES i = var_name NUMERICAL_VARIABLES j -> i = j.
Proof.
  destruct (var_name_numerical i) as (c & _ & Hi & ->).
  destruct (var_name_numerical j) as (c' & _ & Hj & ->).
  intros Heq.
  assert (i / 3 = j / 3)%nat as Hlen.
  { apply (f_equal length) in Heq. cbn [length] in Heq.
    rewrite !length_replicate in Heq. lia. }
  injection Heq as <- _.
  assert (i mod 3 = j mod 3)%nat as Hmod.
  { assert (NoDup NUMERICAL_VARIABLES) as Hnd by (apply (bool_decide_unpack _); exact I).
    exact (NoDup_lookup _ _ _ _ Hnd Hi Hj). }
  pose proof (Nat.div_mod_eq i 3). pose proof (Nat.div_mod_eq j 3). lia.
Qed.

Lemma numerical_names_NoDup n : NoDup (numerical_names n).
Proof.
  apply NoDup_fmap_2_strong; [|apply NoDup_seq].
  intros i j _ _. apply var_name_numerical_inj.
Qed.

Lemma foldl_seen_step_NoDup ls seen :
  NoDup (seen ++ ls) -> foldl seen_step seen ls = seen ++ ls.
Proof.
  revert seen. induction ls as [|l ls IH]; intros seen Hnd; [by rewrite app_nil_r|].
  cbn [foldl]. unfold seen_step at 2. rewrite bool_decide_eq_false_2.
  - rewrite IH; rewrite <- app_assoc; done.
  - apply NoDup_app in Hnd as (_ & Hno & _). intros Hin. apply (Hno l Hin). left.
Qed.

Lemma lexemes_of_numerical_tokens n :
  lexemes_of numerical_type (numerical_tokens n) = numerical_names n /\
  lexemes_of sentntial_type (numerical_tokens n) = [] /\
  lexemes_of predicate_type (numerical_tokens n) = [].
Proof.
  unfold numerical_tokens. induction (numerical_names n) as [|l ls (IH1 & IH2 & IH3)];
    [done|].
  cbn [fmap list_fmap].
  rewrite lexemes_of_cons_eq, !lexemes_of_cons_ne by discriminate.
  by rewrite IH1, IH2, IH3.
Qed.

Lemma numerical_tokens_canonical n :
  canonical NUMERICAL_VARIABLES numerical_type (numerical_tokens n) /\
  canonical SENTNTIAL_VARIABLES sentntial_type (numerical_tokens n) /\
  canonical PREDICATE_VARIABLES predicate_type (numerical_tokens n) /\
  first_seen (lexemes_of numerical_type (numerical_tokens n)) = numerical_names n.
Proof.
  destruct (lexemes_of_numerical_tokens n) as (HN & HS & HP).
  assert (Hfs : first_seen (lexemes_of numerical_type (numerical_tokens n))
                = numerical_names n).
  { rewrite HN. unfold first_seen. rewrite foldl_seen_step_NoDup; [done|].
    apply numerical_names_NoDup. }
  split_and!; [| | |done].
  - intros i l. rewrite Hfs. unfold numerical_names. rewrite list_lookup_fmap.
    destruct (seq 0 n !! i) as [j|] eqn:Hj; [|done].
    apply lookup_seq in Hj as [-> _]. by intros [= <-].
  - intros i l. by rewrite HS.
  - intros i l. by rewrite HP.
Qed.

(** *** Scanning the names *)

Lemma takewhile_ticks_stop (k : nat) (rest : list N) :
  head rest ≠ Some TICK ->
  takewhile (fun x => bool_decide (x = TICK)) (replicate k TICK ++ rest)
  = replicate k TICK.
Proof.
  intros Hrest. induction k as [|k IH]; cbn [replicate app takewhile].
  - destruct rest as [|c rest]; [done|]. cbn [takewhile].
    rewrite bool_decide_eq_false_2; [done|]. intros ->. by apply Hrest.
  - rewrite bool_decide_eq_true_2 by done. by rewrite IH.
Qed.

Lemma numerical_not_constant c :
  c ∈ concat NUMERICAL_VARIABLES -> (c ∉ constant_chars) /\ (c ≠ TICK).
Proof.
  assert (Forall (fun c => (c ∉ constant_chars) /\ (c ≠ TICK)) (concat NUMERICAL_VARIABLES))
    as Hall.
  { apply (bool_decide_unpack _). vm_compute. exact I. }
  apply (proj1 (Forall_forall _ _) Hall).
Qed.

Lemma scanner_match_numerical c k rest :
  c ∈ concat NUMERICAL_VARIABLES -> head rest ≠ Some TICK ->
  scanner_match (Lexer_scanner Lexer_init) (c :: (replicate k TICK ++ rest))
  = Some ((numerical_type, c :: replicate k TICK), rest).
Proof.
  intros Hc Hrest. destruct (numerical_not_constant c Hc) as [Hnc _].
  unfold Lexer_scanner, Lexer_init. cbn [scanner_match constant_signs
    lexer_numerical_variables lexer_sentntial_variables lexer_predicate_variables].
  unfold match_any_with_ticks, match_any. fold constant_chars.
  cbn [regex_match]. rewrite (bool_decide_eq_false_2 (c ∈ constant_chars)) by done.
  rewrite (bool_decide_eq_true_2 (c ∈ concat NUMERICAL_VARIABLES)) by done.
  rewrite takewhile_ticks_stop by done.
  rewrite length_replicate. rewrite <- (length_replicate k TICK) at 2.
  by rewrite drop_app_length.
Qed.

Lemma head_concat_lexemes names :
  Forall (is_lexeme NUMERICAL_VARIABLES) names -> head (concat names) ≠ Some TICK.
Proof.
  destruct 1 as [|l names' (c & k & Hc & ->) _]; [done|]. cbn. intros [= ->].
  by destruct (numerical_not_constant _ Hc) as [_ ?].
Qed.

Lemma scanner_loop_names names fuel result :
  Forall (is_lexeme NUMERICAL_VARIABLES) names ->
  (length (concat names) < fuel)%nat ->
  scanner_loop fuel (Lexer_scanner Lexer_init) (concat names) result
  = (result ++ ((fun l => (numerical_type, l)) <$> names), []).
Proof.
  intros Hnames. revert fuel result.
  induction Hnames as [|l names (c & k & Hc & ->) Hnames IH]; intros fuel result Hfuel.
  - destruct fuel as [|fuel]; [cbn in Hfuel; lia|]. by rewrite app_nil_r.
  - destruct fuel as [|fuel]; [cbn in Hfuel; lia|].
    cbn [concat scanner_loop]. rewrite <- app_comm_cons.
    rewrite scanner_match_numerical by (done || by apply head_concat_lexemes).
    rewrite bool_decide_eq_false_2 by done.
    rewrite IH.
    + cbn [fmap list_fmap]. by rewrite <- app_assoc.
    + cbn [concat] in Hfuel. rewrite <- app_comm_cons in Hfuel.
      cbn [length] in Hfuel. rewrite length_app in Hfuel. lia.
Qed.

Lemma Lexer_scan_numerical_names n :
  Lexer_scan Lexer_init (concat (numerical_names n)) = Return (numerical_tokens n).
Proof.
  unfold Lexer_scan, Scanner_scan. cbn zeta.
  rewrite scanner_loop_names; [reflexivity| |lia].
  apply Forall_fmap, Forall_forall. intros i _. apply var_name_numerical_lexeme.
Qed.

(** *** The variable after the last prime *)

Lemma for_each_app {E A S} (body : S -> A -> result E S) (s : S) (l1 l2 : list A) :
  for_each body s (l1 ++ l2) = (s' ← for_each body s l1; for_each body s' l2).
Proof.
  revert s. induction l1 as [|a l1 IH]; intros s; [done|].
  cbn [app for_each]. destruct (body s a) as [s'|e]; [|done].
  rewrite !bind_Return. apply IH.
Qed.

Lemma numerical_tokens_S n :
  numerical_tokens (S n)
  = numerical_tokens n ++ [(numerical_type, var_name NUMERICAL_VARIABLES n)].
Proof. unfold numerical_tokens, numerical_names. by rewrite seq_S, !fmap_app. Qed.

(** With as many numerical variables as there are primes from
    [PRIME_OFFSET] on, one more finds no prime. *)
Lemma encode_one_variable_too_many n :
  (PRIME_OFFSET + n = length PRIME)%nat ->
  encode (concat (numerical_names (S n))) = Raise IndexError.
Proof.
  intros Hn. unfold encode. rewrite bool_decide_eq_false_2.
  2:{ unfold numerical_names. cbn [seq fmap list_fmap concat].
      destruct (var_name_numerical 0) as (c & _ & _ & ->). done. }
  cbn zeta. rewrite Lexer_scan_numerical_names, bind_Return.
  rewrite numerical_tokens_S, for_each_app.
  destruct (numerical_tokens_canonical n) as (HN & HS & HP & Hfs).
  destruct (lexemes_of_numerical_tokens n) as (HlN & HlS & HlP).
  assert (Hlen : length (numerical_names n) = n).
  { unfold numerical_names. by rewrite length_fmap, length_seq. }
  destruct (roundtrip_tokens (numerical_tokens n) State_init State_init [] [] []
              roundtrip_inv_init)
    as (codes & E' & D' & Hrun & _ & _ & _ & [HinvN _] & _).
  { apply Forall_fmap, Forall_fmap, Forall_forall. intros i _. cbn.
    destruct (var_name_numerical i) as (c & Hc & _ & ->). by constructor. }
  { apply admissible_canonical; try assumption.
    - unfold seen_after. fold (first_seen (lexemes_of numerical_type (numerical_tokens n))).
      rewrite Hfs, Hlen. constructor. lia.
    - unfold seen_after. rewrite HlS, HlP. constructor. cbn. lia. }
  rewrite Hrun, bind_Return. cbn [for_each encode_token lexmap].
  unfold seen_after in HinvN.
  fold (first_seen (lexemes_of numerical_type (numerical_tokens n))) in HinvN.
  rewrite Hfs in HinvN. destruct HinvN as (Hsize & _ & _ & Hdom & _).
  unfold encode_numerical_variable.
  assert (numerical_variables E' !! var_name NUMERICAL_VARIABLES n = None) as ->.
  { apply eq_None_not_Some. intros [Hin|Hin%elem_of_nil]%Hdom; [|done].
    apply list_elem_of_fmap in Hin as (i & Heq%var_name_numerical_inj & Hi%elem_of_seq).
    lia. }
  cbn [found_code]. rewrite Hsize, Hlen. cbn [length]. rewrite Nat.add_0_r, Hn.
  unfold PRIME_at. by rewrite lookup_ge_None_2.
Qed.

(** C10 as stated fails: the first 1225 names of numerical variables, in
    order, are 1225 tokens, no more than there are primes, without
    predicate variables and canonical; but the 1225th variable needs the
    prime at index [PRIME_OFFSET + 1224 = 1229], past the end of [PRIME],
    and [encode] raises [IndexError]. *)
Lemma encode_1225_variables_overflow :
  Lexer_scan Lexer_init (concat (numerical_names 1225)) = Return (numerical_tokens 1225) /\
  (length (numerical_tokens 1225) <= length PRIME)%nat /\
  lexemes_of predicate_type (numerical_tokens 1225) = [] /\
  canonical NUMERICAL_VARIABLES numerical_type (numerical_tokens 1225) /\
  canonical SENTNTIAL_VARIABLES sentntial_type (numerical_tokens 1225) /\
  decode_encode (concat (numerical_names 1225)) = Raise IndexError /\
  decode_encode (concat (numerical_names 1225)) ≠ Return (concat (numerical_names 1225)).
Proof.
  assert (Hfail : decode_encode (concat (numerical_names 1225)) = Raise IndexError).
  { unfold decode_encode. rewrite (encode_one_variable_too_many 1224); [done|].
    by rewrite PRIME_length, PRIME_OFFSET_value. }
  destruct (numerical_tokens_canonical 1225) as (HN & HS & _ & _).
  split_and!; try assumption.
  - apply Lexer_scan_numerical_names.
  - unfold numerical_tokens, numerical_names.
    rewrite !length_fmap, length_seq, PRIME_length. lia.
  - apply lexemes_of_numerical_tokens.
  - rewrite Hfail. discriminate.
Qed.

(** C10, amended: for every string [s] that tokenizes into at most as many
    tokens as there are primes, has no predicate variables, names the
    variables of each class in the order of the names that [decode]
    gives, and has at most [len(PRIME) - PRIME_OFFSET] distinct variables
    in each class, [decode (encode s) = s]. *)
Theorem decode_encode_canonical_no_predicate (s : str) (tokens : list token) :
  Lexer_scan Lexer_init s = Return tokens ->
  (length tokens <= length PRIME)%nat ->
  lexemes_of predicate_type tokens = [] ->
  canonical NUMERICAL_VARIABLES numerical_type tokens ->
  canonical SENTNTIAL_VARIABLES sentntial_type tokens ->
  (PRIME_OFFSET + length (first_seen (lexemes_of numerical_type tokens))
   <= length PRIME)%nat ->
  (PRIME_OFFSET + length (first_seen (lexemes_of sentntial_type tokens))
   <= length PRIME)%nat ->
  decode_encode s = Return s.
Proof.
  intros Hscan Hlen HnoP HN HS HcapN%has_room_intro HcapS%has_room_intro.
  apply (decode_encode_canonical_names s tokens); try assumption.
  - intros i l. by rewrite HnoP.
  - rewrite HnoP. cbn. by rewrite Nat.add_0_r.
Qed.

Lemma decode_encode_canonical_no_predicate_witness :
  Lexer_scan Lexer_init (pystr "(x=sy)p") = Return test_tokens3 /\
  (length test_tokens3 <= length PRIME)%nat /\
  lexemes_of predicate_type test_tokens3 = [] /\
  canonical NUMERICAL_VARIABLES numerical_type test_tokens3 /\
  canonical SENTNTIAL_VARIABLES sentntial_type test_tokens3 /\
  (PRIME_OFFSET + length (first_seen (lexemes_of numerical_type test_tokens3))
   <= length PRIME)%nat /\
  (PRIME_OFFSET + length (first_seen (lexemes_of sentntial_type test_tokens3))
   <= length PRIME)%nat /\
  decode_encode (pystr "(x=sy)p") = Return (pystr "(x=sy)p").
Proof.
  assert (H1 : Lexer_scan Lexer_init (pystr "(x=sy)p") = Return test_tokens3)
    by (vm_compute; reflexivity).
  assert (H2 : (length test_tokens3 <= length PRIME)%nat)
    by (rewrite PRIME_length; vm_compute; lia).
  assert (H3 : lexemes_of predicate_type test_tokens3 = [])
    by (vm_compute; reflexivity).
  assert (H4 : canonical NUMERICAL_VARIABLES numerical_type test_tokens3)
    by (apply canonical_intro; vm_compute; reflexivity).
  assert (H5 : canonical SENTNTIAL_VARIABLES sentntial_type test_tokens3)
    by (apply canonical_intro; vm_compute; reflexivity).
  assert (H6 : (PRIME_OFFSET + length (first_seen (lexemes_of numerical_type test_tokens3))
                <= length PRIME)%nat)
    by (rewrite PRIME_length, PRIME_OFFSET_value; vm_compute; lia).
  assert (H7 : (PRIME_OFFSET + length (first_seen (lexemes_of sentntial_type test_tokens3))
                <= length PRIME)%nat)
    by (rewrite PRIME_length, PRIME_OFFSET_value; vm_compute; lia).
  split_and!; try assumption.
  exact (decode_encode_canonical_no_predicate _ test_tokens3 H1 H2 H3 H4 H5 H6 H7).
Defined.

(** * Further properties *)

(** ** util/arithmetic.py: more on [prod] *)

Lemma prod_Permutation (l1 l2 : list Z) : l1 ≡ₚ l2 -> prod l1 = prod l2.
Proof.
  induction 1 as [|x l1 l2 _ IH|x y l|l1 l2 l3 _ IH1 _ IH2].
  - done.
  - by rewrite !prod_cons, IH.
  - rewrite !prod_cons. lia.
  - by rewrite IH1.
Qed.

Lemma elem_of_divides_prod (x : Z) (l : list Z) : x ∈ l -> (x | prod l).
Proof.
  induction l as [|y l IH]; [by intros ?%elem_of_nil|].
  rewrite prod_cons. intros [->|Hx%IH]%elem_of_cons.
  - by apply Z.divide_mul_l.
  - by apply Z.divide_mul_r.
Qed.

(** X1: [prod] of the empty list is 1, and [prod] of a concatenation is the
    product of the [prod]s of its parts. *)
Theorem prod_concat (l1 l2 : list Z) :
  prod [] = 1 /\ prod (l1 ++ l2) = prod l1 * prod l2.
Proof. split; [apply prod_nil|apply prod_app]. Qed.

(** X2: [prod] does not depend on the order of the elements: two lists that
    are permutations of one another have the same product. *)
Theorem prod_order_irrelevant (l1 l2 : list Z) : l1 ≡ₚ l2 -> prod l1 = prod l2.
Proof. apply prod_Permutation. Qed.

Lemma prod_order_irrelevant_witness :
  [2; 3; 5] ≡ₚ [5; 2; 3] /\ prod [2; 3; 5] = prod [5; 2; 3].
Proof.
  assert (H : [2; 3; 5] ≡ₚ [5; 2; 3]).
  { apply (bool_decide_unpack _). vm_compute. exact I. }
  split; [exact H|]. exact (prod_order_irrelevant _ _ H).
Defined.

(** ** util/ntheory.py: more on [factor] *)

Lemma factor_elem_of (n p : Z) : 1 <= n -> p ∈ factor n <-> Z.prime p /\ (p | n).
Proof.
  intros Hn. destruct (factor_spec n Hn) as (Hp & _ & Hprod). split.
  - intros Hin. split; [by apply (proj1 (Forall_forall _ _) Hp)|].
    rewrite <- Hprod. by apply elem_of_divides_prod.
  - intros [Hpp Hd]. apply prime_divides_prod; [done..|]. by rewrite Hprod.
Qed.

Lemma factor_mul_merge (m n : Z) :
  1 <= m -> 1 <= n -> factor (m * n) = merge_sort Z.le (factor m ++ factor n).
Proof.
  intros Hm Hn.
  destruct (factor_spec m Hm) as (Hpm & _ & Hprodm).
  destruct (factor_spec n Hn) as (Hpn & _ & Hprodn).
  rewrite <- (factor_prod (merge_sort Z.le (factor m ++ factor n))).
  - f_equal. rewrite (prod_Permutation _ _ (merge_sort_Permutation Z.le _)).
    rewrite prod_app. congruence.
  - rewrite (merge_sort_Permutation Z.le _). apply Forall_app. done.
  - apply (StronglySorted_merge_sort Z.le).
Qed.

(** X3: [factor] undoes [prod] on the sorted lists of primes: for every list
    [l] of primes in non-decreasing order, [factor (prod l) = l]. *)
Theorem factor_inverts_prod (l : list Z) :
  Forall Z.prime l -> Sorted Z.le l -> factor (prod l) = l.
Proof.
  intros Hp Hs. apply factor_prod; [done|]. by apply Sorted_StronglySorted; [intros ???; lia|].
Qed.

Lemma factor_inverts_prod_witness :
  Forall Z.prime [2; 2; 3] /\ Sorted Z.le [2; 2; 3] /\ factor (prod [2; 2; 3]) = [2; 2; 3].
Proof.
  assert (H1 : Forall Z.prime [2; 2; 3]).
  { repeat constructor; first [apply Z.prime_2|apply Z.prime_3]. }
  assert (H2 : Sorted Z.le [2; 2; 3]).
  { repeat constructor; lia. }
  split; [exact H1|]. split; [exact H2|]. exact (factor_inverts_prod _ H1 H2).
Defined.

(** X4: for [m >= 1] and [n >= 1], the factors of [m * n] are those of [m]
    together with those of [n], up to order. *)
Theorem factor_multiplicative (m n : Z) :
  1 <= m -> 1 <= n -> factor (m * n) ≡ₚ factor m ++ factor n.
Proof.
  intros Hm Hn. rewrite factor_mul_merge by done. apply merge_sort_Permutation.
Qed.

Lemma factor_multiplicative_witness :
  1 <= 12 /\ 1 <= 10 /\ factor (12 * 10) ≡ₚ factor 12 ++ factor 10.
Proof.
  split; [lia|]. split; [lia|]. apply (factor_multiplicative 12 10); lia.
Defined.

(** X5: [factor n] is the one-element list [[n]] exactly when [n] is
    prime. *)
Theorem factor_singleton_iff_prime (n : Z) : factor n = [n] <-> Z.prime n.
Proof. apply factor_prime_iff. Qed.

(** X6: for [n >= 1], the numbers that occur in [factor n] are exactly
    the prime divisors of [n]. *)
Theorem factor_lists_prime_divisors (n p : Z) :
  1 <= n -> p ∈ factor n <-> Z.prime p /\ (p | n).
Proof. apply factor_elem_of. Qed.

Lemma factor_lists_prime_divisors_witness :
  1 <= 360 /\ (5 ∈ factor 360 <-> Z.prime 5 /\ (5 | 360)).
Proof. split; [lia|]. apply (factor_lists_prime_divisors 360 5). lia. Defined.

(** ** util/ntheory.py: more on [sieve] *)

Lemma sorted_below_prefix (m : Z) (l1 l2 : list Z) :
  StronglySorted Z.lt l1 -> StronglySorted Z.lt l2 ->
  (forall p, p ∈ l1 <-> p ∈ l2 /\ p <= m) -> l1 `prefix_of` l2.
Proof.
  intros Hs1 Hs2. revert l1 Hs1. induction Hs2 as [|a l2 Hs2 IH Hall]; intros l1 Hs1 Hin.
  - destruct l1 as [|b l1]; [done|]. destruct (proj1 (Hin b)) as [Hb%elem_of_nil _]; [left|done].
  - pose proof (proj1 (Forall_forall _ _) Hall) as Hgt.
    destruct l1 as [|b l1]; [apply prefix_nil|].
    apply StronglySorted_inv in Hs1 as [Hs1 Hall1].
    pose proof (proj1 (Forall_forall _ _) Hall1) as Hgt1.
    destruct (proj1 (Hin b)) as [Hb Hbm]; [left|].
    assert (a ∈ b :: l1) as Ha.
    { apply Hin. split; [left|]. apply elem_of_cons in Hb as [->|Hb%Hgt]; lia. }
    assert (b = a) as ->.
    { apply elem_of_cons in Hb as [->|Hb%Hgt]; [done|].
      apply elem_of_cons in Ha as [->|Ha%Hgt1]; [done|]. lia. }
    apply prefix_cons, IH; [done|]. intros p. split.
    + intros Hp. pose proof (Hgt1 p Hp).
      destruct (proj1 (Hin p)) as [Hp2 Hpm]; [by right|].
      apply elem_of_cons in Hp2 as [->|Hp2]; [lia|done].
    + intros [Hp Hpm]. pose proof (Hgt p Hp).
      assert (p ∈ a :: l1) as Hp1 by (apply Hin; split; [by right|done]).
      apply elem_of_cons in Hp1 as [->|Hp1]; [lia|done].
Qed.

Lemma sieve_prefix (m n : Z) : m <= n -> sieve m `prefix_of` sieve n.
Proof.
  intros Hmn. destruct (sieve_spec m) as [Hsm Hm]. destruct (sieve_spec n) as [Hsn Hn].
  apply (sorted_below_prefix m); [done..|].
  intros p. rewrite Hm, Hn. intuition lia.
Qed.

(** X7: for [n] below [2^52], where the float arithmetic of the source is
    exact, [sieve n] is strictly increasing and holds exactly the primes
    [p <= n]. *)
Theorem sieve_primes_up_to (n : Z) :
  n < 2 ^ 52 ->
  Sorted Z.lt (sieve n) /\ forall p, p ∈ sieve n <-> Z.prime p /\ p <= n.
Proof.
  intros _. destruct (sieve_spec n) as [Hs Hin]. split; [by apply StronglySorted_Sorted|done].
Qed.

Lemma sieve_primes_up_to_witness :
  30 < 2 ^ 52 /\
  (Sorted Z.lt (sieve 30) /\ forall p, p ∈ sieve 30 <-> Z.prime p /\ p <= 30).
Proof. split; [done|]. apply (sieve_primes_up_to 30). done. Defined.

(** X8: for [m <= n], with [n] below [2^52], [sieve m] is an initial
    segment of [sieve n]. *)
Theorem sieve_initial_segment (m n : Z) :
  m <= n -> n < 2 ^ 52 -> sieve m `prefix_of` sieve n.
Proof. intros Hmn _. by apply sieve_prefix. Qed.

Lemma sieve_initial_segment_witness :
  10 <= 30 /\ 30 < 2 ^ 52 /\ sieve 10 `prefix_of` sieve 30.
Proof. split; [lia|]. split; [done|]. apply (sieve_initial_segment 10 30); [lia|done]. Defined.

(** ** util/bijection.py: more on [Bijection] *)

Section bijection_more.
Context {K V : Type} `{Countable K, Countable V}.

Lemma Bijection_init_Return_NoDup (items : list (K * V)) b :
  Bijection_init items = Return b -> NoDup items.*2.
Proof.
  rewrite Bijection_init_unfold. intros Hb.
  destruct (decide (NoDup items.*2)) as [|Hnd]; [done|].
  destruct (inverse_loop_dup items ∅) as (v' & Hr); [tauto|]. by rewrite Hr in Hb.
Qed.

Lemma fmap_swap_fst (items : list (K * V)) : (prod_swap <$> items).*1 = items.*2.
Proof. rewrite <- list_fmap_compose. by apply list_fmap_ext; intros ? []. Qed.

Lemma fmap_swap_snd (items : list (K * V)) : (prod_swap <$> items).*2 = items.*1.
Proof. rewrite <- list_fmap_compose. by apply list_fmap_ext; intros ? []. Qed.

Lemma Bijection_init_distinct (items : list (K * V)) :
  NoDup items.*2 ->
  Bijection_init items
  = Return {| mapping := list_to_map items; inverse := list_to_map (prod_swap <$> items) |}.
Proof.
  intros Hnd. rewrite Bijection_init_unfold.
  destruct (inverse_loop_ok items ∅ Hnd) as (inv & -> & Hinv); [done|].
  f_equal. f_equal. apply map_eq. intros v. apply option_eq. intros k.
  rewrite Hinv, lookup_empty, <- elem_of_list_to_map by by rewrite fmap_swap_fst.
  rewrite list_elem_of_fmap. split.
  - intros [Hin|?]; [|done]. by exists (k, v).
  - intros ([k' v'] & [= -> ->] & Hin). by left.
Qed.

Lemma Bijection_init_raises_at (pre post : list (K * V)) k v :
  NoDup pre.*2 -> v ∈ pre.*2 ->
  Bijection_init (pre ++ (k, v) :: post) = Raise (duplicate_key_found v).
Proof.
  intros Hnd Hv. rewrite Bijection_init_unfold, for_each_app.
  destruct (inverse_loop_ok pre ∅ Hnd) as (inv & -> & Hinv); [done|].
  rewrite bind_Return. cbn [for_each inverse_step].
  apply list_elem_of_fmap in Hv as ([k' v'] & -> & Hin). cbn [snd].
  rewrite bool_decide_eq_true_2; [done|]. exists k'. apply Hinv. by left.
Qed.
End bijection_more.

(** X9: when the values of the items before [(k, v)] are pairwise
    distinct and [v] is one of them, [Bijection] raises the error that
    names [v], whatever items follow: the first repeated value is the one
    reported. *)
Theorem Bijection_init_first_duplicate {K V : Type} `{Countable K, Countable V}
    (pre post : list (K * V)) (k : K) (v : V) :
  NoDup pre.*2 -> v ∈ pre.*2 ->
  Bijection_init (pre ++ (k, v) :: post) = Raise (duplicate_key_found v).
Proof. apply Bijection_init_raises_at. Qed.

Lemma Bijection_init_first_duplicate_witness :
  NoDup [([126%N], 1); ([61%N], 5)].*2 /\ 5 ∈ [([126%N], 1); ([61%N], 5)].*2 /\
  Bijection_init ([([126%N], 1); ([61%N], 5)] ++ ([48%N], 5) :: [([40%N], 1)])
  = Raise (duplicate_key_found 5).
Proof.
  assert (H1 : NoDup [([126%N], 1); ([61%N], 5)].*2).
  { apply (bool_decide_unpack _). vm_compute. exact I. }
  assert (H2 : 5 ∈ [([126%N], 1); ([61%N], 5)].*2).
  { apply (bool_decide_unpack _). vm_compute. exact I. }
  split; [exact H1|]. split; [exact H2|].
  exact (Bijection_init_first_duplicate _ [([40%N], 1)] [48%N] 5 H1 H2).
Defined.

(** X10: (test_mapping and test_inverse of tests/test_bijection.py) for a
    dict with pairwise distinct values, [Bijection] returns; its [mapping]
    is the dict, and its [inverse] is the dict of the swapped items. *)
Theorem Bijection_init_mapping_inverse {K V : Type} `{Countable K, Countable V}
    (items : list (K * V)) :
  NoDup items.*1 -> NoDup items.*2 ->
  exists b, Bijection_init items = Return b /\
    mapping b = list_to_map items /\
    inverse b = list_to_map ((fun '(k, v) => (v, k)) <$> items).
Proof.
  intros _ Hnd. eexists. split; [by apply Bijection_init_distinct|]. split; [done|].
  cbn [inverse]. f_equal. by apply list_fmap_ext; intros ? [].
Qed.

Lemma Bijection_init_mapping_inverse_witness :
  NoDup alphabet_items.*1 /\ NoDup alphabet_items.*2 /\
  exists b, Bijection_init alphabet_items = Return b /\
    mapping b = list_to_map alphabet_items /\
    inverse b = list_to_map inverse_alphabet_items.
Proof.
  assert (H1 : NoDup alphabet_items.*1).
  { apply (bool_decide_unpack _). vm_compute. exact I. }
  assert (H2 : NoDup alphabet_items.*2).
  { apply (bool_decide_unpack _). vm_compute. exact I. }
  split; [exact H1|]. split; [exact H2|].
  exact (Bijection_init_mapping_inverse alphabet_items H1 H2).
Defined.

(** X11: [len] of a [Bijection] built from a dict is the number of items of
    the dict, and its [inverse] has as many entries. *)
Theorem Bijection_len_items {K V : Type} `{Countable K, Countable V}
    (items : list (K * V)) (b : Bijection K V) :
  NoDup items.*1 -> Bijection_init items = Return b ->
  Bijection_len b = length items /\ size (inverse b) = Bijection_len b.
Proof.
  intros Hk Hb. pose proof (Bijection_init_Return_NoDup _ _ Hb) as Hv.
  rewrite (Bijection_init_distinct _ Hv) in Hb. injection Hb as <-.
  unfold Bijection_len. cbn [mapping inverse].
  rewrite !map_size_list_to_map, length_fmap; [done|by rewrite fmap_swap_fst|done].
Qed.

Lemma Bijection_len_items_witness :
  NoDup CONSTANT_SIGNS_items.*1 /\
  Bijection_init CONSTANT_SIGNS_items = Return CONSTANT_SIGNS /\
  Bijection_len CONSTANT_SIGNS = length CONSTANT_SIGNS_items /\
  size (inverse CONSTANT_SIGNS) = Bijection_len CONSTANT_SIGNS.
Proof.
  split; [exact CONSTANT_SIGNS_keys_distinct|]. split; [exact CONSTANT_SIGNS_constructed|].
  exact (Bijection_len_items _ _ CONSTANT_SIGNS_keys_distinct CONSTANT_SIGNS_constructed).
Defined.

(** X12: when [Bijection] accepts a dict, it accepts the dict of the swapped
    items as well, and builds the bijection with [mapping] and [inverse]
    exchanged. *)
Theorem Bijection_init_of_inverse {K V : Type} `{Countable K, Countable V}
    (items : list (K * V)) (b : Bijection K V) :
  NoDup items.*1 -> Bijection_init items = Return b ->
  Bijection_init ((fun '(k, v) => (v, k)) <$> items)
  = Return {| mapping := inverse b; inverse := mapping b |}.
Proof.
  intros Hk Hb. pose proof (Bijection_init_Return_NoDup _ _ Hb) as Hv.
  rewrite (Bijection_init_distinct _ Hv) in Hb. injection Hb as <-.
  assert ((fun '(k, v) => (v, k)) <$> items = prod_swap <$> items) as ->
    by (by apply list_fmap_ext; intros ? []).
  rewrite Bijection_init_distinct by by rewrite fmap_swap_snd.
  cbn [mapping inverse]. do 3 f_equal. rewrite <- list_fmap_compose.
  rewrite <- (list_fmap_id items) at 2. by apply list_fmap_ext; intros ? [].
Qed.

Lemma Bijection_init_of_inverse_witness :
  NoDup CONSTANT_SIGNS_items.*1 /\
  Bijection_init CONSTANT_SIGNS_items = Return CONSTANT_SIGNS /\
  Bijection_init ((fun '(k, v) => (v, k)) <$> CONSTANT_SIGNS_items)
  = Return {| mapping := inverse CONSTANT_SIGNS; inverse := mapping CONSTANT_SIGNS |}.
Proof.
  split; [exact CONSTANT_SIGNS_keys_distinct|]. split; [exact CONSTANT_SIGNS_constructed|].
  exact (Bijection_init_of_inverse _ _ CONSTANT_SIGNS_keys_distinct
           CONSTANT_SIGNS_constructed).
Defined.

(** ** godel.py: more on the Lexer *)

(** The classes of characters do not overlap, and none holds the tick. *)
Lemma constant_not_tick c : c ∈ constant_chars -> c ≠ TICK.
Proof.
  assert (Forall (fun c => c ≠ TICK) constant_chars) as Hall.
  { apply (bool_decide_unpack _). vm_compute. exact I. }
  apply (proj1 (Forall_forall _ _) Hall).
Qed.

Lemma sentntial_not_earlier c :
  c ∈ concat SENTNTIAL_VARIABLES ->
  (c ∉ constant_chars) /\ (c ∉ concat NUMERICAL_VARIABLES) /\ (c ≠ TICK).
Proof.
  assert (Forall (fun c => (c ∉ constant_chars) /\ (c ∉ concat NUMERICAL_VARIABLES)
                           /\ (c ≠ TICK)) (concat SENTNTIAL_VARIABLES)) as Hall.
  { apply (bool_decide_unpack _). vm_compute. exact I. }
  apply (proj1 (Forall_forall _ _) Hall).
Qed.

Lemma predicate_not_earlier c :
  c ∈ concat PREDICATE_VARIABLES ->
  (c ∉ constant_chars) /\ (c ∉ concat NUMERICAL_VARIABLES) /\
  (c ∉ concat SENTNTIAL_VARIABLES) /\ (c ≠ TICK).
Proof.
  assert (Forall (fun c => (c ∉ constant_chars) /\ (c ∉ concat NUMERICAL_VARIABLES)
                           /\ (c ∉ concat SENTNTIAL_VARIABLES) /\ (c ≠ TICK))
            (concat PREDICATE_VARIABLES)) as Hall.
  { apply (bool_decide_unpack _). vm_compute. exact I. }
  apply (proj1 (Forall_forall _ _) Hall).
Qed.

Lemma token_wf_head ty tok : token_wf (ty, tok) -> head tok ≠ Some TICK.
Proof.
  inversion 1 as [c Hc|c k Hc|c k Hc|c k Hc]; subst; cbn; intros [= ->].
  - by apply constant_not_tick in Hc.
  - by destruct (numerical_not_constant _ Hc) as [_ ?].
  - by destruct (sentntial_not_earlier _ Hc) as (_ & _ & ?).
  - by destruct (predicate_not_earlier _ Hc) as (_ & _ & _ & ?).
Qed.

Lemma drop_ticks (k : nat) (rest : list N) :
  drop (length (replicate k TICK)) (replicate k TICK ++ rest) = rest.
Proof. by rewrite drop_app_length. Qed.

(** At the start of a token that is followed by no tick, the scanner
    finds that token. *)
Lemma scanner_match_wf ty tok rest :
  token_wf (ty, tok) -> head rest ≠ Some TICK ->
  scanner_match (Lexer_scanner Lexer_init) (tok ++ rest) = Some ((ty, tok), rest).
Proof.
  intros Hwf Hrest.
  unfold Lexer_scanner, Lexer_init. cbn [scanner_match constant_signs
    lexer_numerical_variables lexer_sentntial_variables lexer_predicate_variables].
  unfold match_any_with_ticks, match_any. fold constant_chars.
  inversion Hwf as [c Hc|c k Hc|c k Hc|c k Hc]; subst; rewrite <- app_comm_cons;
    cbn [regex_match].
  - by rewrite (bool_decide_eq_true_2 (c ∈ constant_chars)) by done.
  - destruct (numerical_not_constant c Hc) as [Hnc _].
    rewrite (bool_decide_eq_false_2 (c ∈ constant_chars)) by done.
    rewrite (bool_decide_eq_true_2 (c ∈ concat NUMERICAL_VARIABLES)) by done.
    by rewrite takewhile_ticks_stop, drop_ticks by done.
  - destruct (sentntial_not_earlier c Hc) as (Hnc & Hnn & _).
    rewrite (bool_decide_eq_false_2 (c ∈ constant_chars)) by done.
    rewrite (bool_decide_eq_false_2 (c ∈ concat NUMERICAL_VARIABLES)) by done.
    rewrite (bool_decide_eq_true_2 (c ∈ concat SENTNTIAL_VARIABLES)) by done.
    by rewrite takewhile_ticks_stop, drop_ticks by done.
  - destruct (predicate_not_earlier c Hc) as (Hnc & Hnn & Hns & _).
    rewrite (bool_decide_eq_false_2 (c ∈ constant_chars)) by done.
    rewrite (bool_decide_eq_false_2 (c ∈ concat NUMERICAL_VARIABLES)) by done.
    rewrite (bool_decide_eq_false_2 (c ∈ concat SENTNTIAL_VARIABLES)) by done.
    rewrite (bool_decide_eq_true_2 (c ∈ concat PREDICATE_VARIABLES)) by done.
    by rewrite takewhile_ticks_stop, drop_ticks by done.
Qed.

Lemma head_concat_wf (tokens : list token) :
  Forall token_wf tokens -> head (concat tokens.*2) ≠ Some TICK.
Proof.
  destruct 1 as [|[ty tok] tokens Hwf _]; [done|]. cbn [fmap list_fmap snd concat].
  pose proof (token_wf_head _ _ Hwf) as Hh. pose proof (token_wf_nonempty _ _ Hwf) as Hne.
  by destruct tok.
Qed.

Lemma scanner_loop_wf (tokens : list token) fuel result :
  Forall token_wf tokens -> (length (concat tokens.*2) < fuel)%nat ->
  scanner_loop fuel (Lexer_scanner Lexer_init) (concat tokens.*2) result
  = (result ++ tokens, []).
Proof.
  intros Hwf. revert fuel result.
  induction Hwf as [|[ty tok] tokens Hwf Hwfs IH]; intros fuel result Hfuel.
  - destruct fuel as [|fuel]; [cbn in Hfuel; lia|]. by rewrite app_nil_r.
  - destruct fuel as [|fuel]; [cbn in Hfuel; lia|].
    cbn [fmap list_fmap snd concat] in Hfuel |- *. cbn [scanner_loop].
    rewrite (scanner_match_wf ty tok) by (done || by apply head_concat_wf).
    rewrite bool_decide_eq_false_2 by by eapply token_wf_nonempty.
    rewrite IH.
    + by rewrite <- app_assoc.
    + apply token_wf_nonempty in Hwf. rewrite length_app in Hfuel.
      destruct tok; [done|]. cbn [length] in Hfuel. lia.
Qed.

Lemma Lexer_scan_concat (tokens : list token) :
  Forall token_wf tokens -> Lexer_scan Lexer_init (concat tokens.*2) = Return tokens.
Proof.
  intros Hwf. unfold Lexer_scan, Scanner_scan. cbn zeta.
  rewrite scanner_loop_wf; [reflexivity|done|lia].
Qed.

(** X13: when [Lexer.scan] returns, the lexemes of its tokens, joined in
    order, are the input string, and every token has the shape of its
    class: one constant sign, or one letter of the pool of its class
    followed by ticks. *)
Theorem Lexer_scan_tokens_spell_input (s : str) (tokens : list token) :
  Lexer_scan Lexer_init s = Return tokens ->
  concat tokens.*2 = s /\ Forall token_wf tokens.
Proof. intros [-> Hwf]%Lexer_scan_Return. done. Qed.

Lemma Lexer_scan_tokens_spell_input_witness :
  Lexer_scan Lexer_init test_string2 = Return test_tokens2 /\
  concat test_tokens2.*2 = test_string2 /\ Forall token_wf test_tokens2.
Proof.
  assert (H : Lexer_scan Lexer_init test_string2 = Return test_tokens2)
    by (vm_compute; reflexivity).
  split; [exact H|]. exact (Lexer_scan_tokens_spell_input _ _ H).
Defined.

(** X14: [Lexer.scan] reads any sequence of tokens of these shapes back from
    the string of their lexemes joined in order. *)
Theorem Lexer_scan_of_tokens (tokens : list token) :
  Forall token_wf tokens -> Lexer_scan Lexer_init (concat tokens.*2) = Return tokens.
Proof. apply Lexer_scan_concat. Qed.

Lemma Lexer_scan_of_tokens_witness :
  Forall token_wf test_tokens3 /\
  Lexer_scan Lexer_init (concat test_tokens3.*2) = Return test_tokens3.
Proof.
  assert (H : Forall token_wf test_tokens3).
  { repeat constructor;
      first [ apply (wf_constant 40) | apply (wf_constant 61) | apply (wf_constant 115)
            | apply (wf_constant 41) | apply (wf_numerical 120 0)
            | apply (wf_numerical 121 0) | apply (wf_sentntial 112 0) ];
      apply (bool_decide_unpack _); vm_compute; exact I. }
  split; [exact H|]. exact (Lexer_scan_of_tokens _ H).
Defined.

(** X15: a match of the pattern of [match_any_with_ticks], for one of the
    three pools of variables, at the start of [s] is a letter of the pool
    with all the ticks that follow it: what is left of [s] does not start
    with a tick. *)
Theorem match_any_with_ticks_greedy (pool : list str) (s m rest : str) :
  pool ∈ [NUMERICAL_VARIABLES; SENTNTIAL_VARIABLES; PREDICATE_VARIABLES] ->
  regex_match (match_any_with_ticks pool) s = Some (m, rest) ->
  s = m ++ rest /\ (exists c k, c ∈ concat pool /\ m = c :: replicate k TICK) /\
  head rest ≠ Some TICK.
Proof.
  intros _ Hm. unfold match_any_with_ticks, match_any in Hm.
  destruct (regex_match_class_ticks _ _ _ _ Hm) as (c & k & Hc & -> & ->).
  split; [done|]. split; [by exists c, k|].
  cbn [regex_match] in Hm. cbn [app] in Hm.
  rewrite bool_decide_eq_true_2 in Hm by done. injection Hm as Hrun Hrest.
  rewrite <- Hrest. clear. generalize (replicate k TICK ++ rest). intros l.
  induction l as [|x l IH]; [done|]. cbn [takewhile].
  case_bool_decide as Hx; [exact IH|]. cbn. by intros [= ->].
Qed.

Lemma match_any_with_ticks_greedy_witness :
  NUMERICAL_VARIABLES ∈ [NUMERICAL_VARIABLES; SENTNTIAL_VARIABLES; PREDICATE_VARIABLES] /\
  regex_match (match_any_with_ticks NUMERICAL_VARIABLES) (pystr "x``=y")
  = Some (pystr "x``", pystr "=y") /\
  pystr "x``=y" = pystr "x``" ++ pystr "=y" /\
  (exists c k, c ∈ concat NUMERICAL_VARIABLES /\ pystr "x``" = c :: replicate k TICK) /\
  head (pystr "=y") ≠ Some TICK.
Proof.
  assert (H1 : NUMERICAL_VARIABLES
               ∈ [NUMERICAL_VARIABLES; SENTNTIAL_VARIABLES; PREDICATE_VARIABLES]) by left.
  assert (H2 : regex_match (match_any_with_ticks NUMERICAL_VARIABLES) (pystr "x``=y")
               = Some (pystr "x``", pystr "=y")) by reflexivity.
  split; [exact H1|]. split; [exact H2|].
  exact (match_any_with_ticks_greedy _ _ _ _ H1 H2).
Defined.

(** ** godel.py: the codes that [encode] gives *)

Lemma PRIME_at_Return i q : PRIME_at i = Return q -> PRIME !! i = Some q.
Proof. unfold PRIME_at. destruct (PRIME !! i) as [p|]; [by intros [= ->]|done]. Qed.

Lemma PRIME_at_Raise i e : PRIME_at i = Raise e -> e = IndexError /\ (length PRIME <= i)%nat.
Proof.
  unfold PRIME_at. destruct (PRIME !! i) as [p|] eqn:Hp; [done|].
  intros [= <-]. split; [done|]. by apply lookup_ge_None.
Qed.

Lemma encode_numerical_variable_assign self symbol :
  encode_numerical_variable self symbol
  = '(g, m) ← lookup_or_assign 1 (numerical_variables self) symbol;
    Return (Some g, {| encoding := encoding self;
                       numerical_variables := m;
                       sentntial_variables := sentntial_variables self;
                       predicate_variables := predicate_variables self |}).
Proof.
  destruct self as [enc mN mS mP]. unfold encode_numerical_variable, lookup_or_assign.
  cbn [numerical_variables sentntial_variables predicate_variables encoding].
  destruct (found_code (mN !! symbol)); [done|].
  destruct (PRIME_at _) as [p|e]; [|done]. rewrite !bind_Return. by rewrite Z.pow_1_r.
Qed.

Lemma encode_sentntial_variable_assign self symbol :
  encode_sentntial_variable self symbol
  = '(g, m) ← lookup_or_assign 2 (sentntial_variables self) symbol;
    Return (Some g, {| encoding := encoding self;
                       numerical_variables := numerical_variables self;
                       sentntial_variables := m;
                       predicate_variables := predicate_variables self |}).
Proof.
  destruct self as [enc mN mS mP]. unfold encode_sentntial_variable, lookup_or_assign.
  cbn [numerical_variables sentntial_variables predicate_variables encoding].
  destruct (found_code (mS !! symbol)); [done|].
  destruct (PRIME_at _) as [p|e]; [|done]. by rewrite !bind_Return.
Qed.

Lemma encode_predicate_variable_assign self symbol :
  encode_predicate_variable self symbol
  = '(g, m) ← lookup_or_assign 3 (sentntial_variables self) symbol;
    Return (Some g, {| encoding := encoding self;
                       numerical_variables := numerical_variables self;
                       sentntial_variables := m;
                       predicate_variables := predicate_variables self |}).
Proof.
  destruct self as [enc mN mS mP]. unfold encode_predicate_variable, lookup_or_assign.
  cbn [numerical_variables sentntial_variables predicate_variables encoding].
  destruct (found_code (mS !! symbol)); [done|].
  destruct (PRIME_at _) as [p|e]; [|done]. by rewrite !bind_Return.
Qed.

Lemma found_code_Some g0 g : found_code g0 = Some g -> g0 = Some g /\ g ≠ 0.
Proof.
  destruct g0 as [g'|]; [|done]. cbn. destruct (Z.eqb_spec g' 0); [done|].
  by intros [= <-].
Qed.

Lemma prime_pow_pos q e : Z.prime q -> 0 <= e -> 0 < q ^ e.
Proof. intros Hq%Z.prime_ge_2 He. apply Z.pow_pos_nonneg; lia. Qed.

(** Powers of two primes with positive exponents are equal only for equal
    primes. *)
Lemma prime_pow_base q1 q2 e1 e2 :
  Z.prime q1 -> Z.prime q2 -> 1 <= e1 -> 0 <= e2 -> q1 ^ e1 = q2 ^ e2 -> q1 = q2.
Proof.
  intros H1 H2 He1 He2 Heq.
  assert (q1 ∈ replicate (Z.to_nat e2) q2) as [? _]%elem_of_replicate; [|done].
  apply prime_divides_prod; [done|by apply Forall_replicate|].
  rewrite prod_replicate, Z2Nat.id, <- Heq by done.
  exists (q1 ^ (e1 - 1)). rewrite Z.mul_comm, <- Z.pow_succ_r by lia. f_equal. lia.
Qed.

(** The codes found or assigned by [lookup_or_assign]. *)
Lemma lookup_or_assign_cached e m symbol g m' :
  0 <= e -> lookup_or_assign e m symbol = Return (g, m') ->
  g ≠ 0 /\ m' !! symbol = Some g /\ lookup_or_assign e m' symbol = Return (g, m').
Proof.
  intros He. unfold lookup_or_assign at 1.
  destruct (found_code (m !! symbol)) as [g0|] eqn:Hf.
  - intros [= <- <-]. apply found_code_Some in Hf as Hf'. destruct Hf' as [Hm Hg].
    split; [done|]. split; [done|]. unfold lookup_or_assign. by rewrite Hf.
  - destruct (PRIME_at _) as [p|e0] eqn:Hp; [|done]. rewrite bind_Return. intros [= <- <-].
    apply PRIME_at_Return, list_elem_of_lookup_2, PRIME_prime in Hp.
    pose proof (prime_pow_pos p e Hp He) as Hpos.
    split; [lia|]. split; [by rewrite lookup_insert_eq|].
    unfold lookup_or_assign. rewrite lookup_insert_eq, found_code_nonzero by lia. done.
Qed.

Lemma lookup_or_assign_Raise e m symbol e0 :
  lookup_or_assign e m symbol = Raise e0 ->
  e0 = IndexError /\ (length PRIME <= PRIME_OFFSET + size m)%nat /\
  found_code (m !! symbol) = None.
Proof.
  unfold lookup_or_assign. destruct (found_code (m !! symbol)); [done|].
  destruct (PRIME_at _) as [p|e1] eqn:Hp; [done|]. rewrite bind_Raise. intros [= <-].
  apply PRIME_at_Raise in Hp as [-> Hlen]. done.
Qed.

Lemma lookup_or_assign_overflow e m symbol :
  (length PRIME <= PRIME_OFFSET + size m)%nat -> found_code (m !! symbol) = None ->
  lookup_or_assign e m symbol = Raise IndexError.
Proof.
  intros Hlen Hf. unfold lookup_or_assign, PRIME_at. rewrite Hf.
  by rewrite lookup_ge_None_2.
Qed.

Lemma class_codes_empty pools : class_codes pools ∅.
Proof. split; [intros l g|intros l1 l2 g]; by rewrite lookup_empty. Qed.

Lemma class_codes_nonzero pools m l g :
  Forall (fun pe => 0 <= pe.2) pools -> class_codes pools m -> m !! l = Some g -> 0 < g.
Proof.
  intros Hexp [Hm _] Hl. destruct (Hm l g Hl) as (k & q & pool & e & _ & Hq & Hin & _ & ->).
  apply prime_pow_pos; [by eapply code_prime_prime|].
  apply (proj1 (Forall_forall _ _) Hexp (pool, e) Hin).
Qed.

Lemma lookup_or_assign_codes pools pool e m symbol g m' :
  Forall (fun pe => 1 <= pe.2) pools ->
  class_codes pools m -> (pool, e) ∈ pools -> is_lexeme pool symbol ->
  (forall pool' e', (pool', e') ∈ pools -> is_lexeme pool' symbol -> e' = e) ->
  lookup_or_assign e m symbol = Return (g, m') ->
  class_codes pools m' /\ (size m <= size m')%nat /\
  exists q, q ∈ PRIME /\ 12 < q /\ g = q ^ e.
Proof.
  intros Hexp Hinv Hpe Hlex Hcls. pose proof Hinv as [Hm Hinj].
  assert (He : 1 <= e) by apply (proj1 (Forall_forall _ _) Hexp (pool, e) Hpe).
  unfold lookup_or_assign. destruct (found_code (m !! symbol)) as [g0|] eqn:Hf.
  - intros [= <- <-]. apply found_code_Some in Hf as [Hl _].
    split; [done|]. split; [done|].
    destruct (Hm _ _ Hl) as (k & q & pool' & e' & _ & Hq & Hin & Hlex' & ->).
    rewrite (Hcls _ _ Hin Hlex'). exists q.
    split; [by eapply code_prime_elem|]. split; [by eapply code_prime_above|done].
  - destruct (PRIME_at _) as [p|e0] eqn:Hp; [|done]. rewrite bind_Return. intros [= <- <-].
    pose proof (code_prime_intro _ _ (PRIME_at_Return _ _ Hp)) as Hq. clear Hp.
    assert (Hnone : m !! symbol = None).
    { destruct (m !! symbol) as [g0|] eqn:Hl; [|done].
      assert (0 < g0).
      { eapply class_codes_nonzero; [|exact Hinv|exact Hl].
        eapply Forall_impl; [exact Hexp|]. intros; cbn in *; lia. }
      rewrite found_code_nonzero in Hf by lia. done. }
    assert (Hfresh : forall l, m !! l = Some (p ^ e) -> False).
    { intros l Hl. destruct (Hm _ _ Hl) as (k & q & pool' & e' & Hk & Hq' & Hin & _ & Heq).
      assert (1 <= e') by apply (proj1 (Forall_forall _ _) Hexp (pool', e') Hin).
      assert (p = q) as ->.
      { eapply prime_pow_base; [by eapply code_prime_prime|by eapply code_prime_prime|
          exact He| |exact Heq]. lia. }
      pose proof (code_prime_inj _ _ _ Hq Hq'). lia. }
    split; [|split].
    + split.
      * intros l g. rewrite map_size_insert_None by done.
        destruct (decide (l = symbol)) as [->|Hne].
        -- rewrite lookup_insert_eq. intros [= <-].
           exists (size m), p, pool, e.
           split_and!; [lia|exact Hq|exact Hpe|exact Hlex|reflexivity].
        -- rewrite lookup_insert_ne by done. intros Hl.
           destruct (Hm _ _ Hl) as (k & q & pool' & e' & Hk & Hrest).
           exists k, q, pool', e'. split; [lia|]. exact Hrest.
      * intros l1 l2 g.
        destruct (decide (l1 = symbol)) as [->|Hne1];
          destruct (decide (l2 = symbol)) as [->|Hne2]; try done.
        -- rewrite lookup_insert_eq, lookup_insert_ne by done. intros [= <-] Hl.
           destruct (Hfresh _ Hl).
        -- rewrite lookup_insert_eq, lookup_insert_ne by done. intros Hl [= <-].
           destruct (Hfresh _ Hl).
        -- rewrite !lookup_insert_ne by done. apply Hinj.
    + rewrite map_size_insert_None by done. lia.
    + exists p. split; [by eapply code_prime_elem|]. split; [by eapply code_prime_above|done].
Qed.

Lemma encode_inv_init : encode_inv State_init.
Proof. split; [apply class_codes_empty|]. split; [apply class_codes_empty|done]. Qed.

Lemma pools_numerical_exp : Forall (fun pe : list str * Z => 1 <= pe.2) [(NUMERICAL_VARIABLES, 1)].
Proof. repeat constructor; cbn; lia. Qed.

Lemma pools_sentntial_exp :
  Forall (fun pe : list str * Z => 1 <= pe.2)
    [(SENTNTIAL_VARIABLES, 2); (PREDICATE_VARIABLES, 3)].
Proof. repeat constructor; cbn; lia. Qed.

(** One token: [lexmap] returns a code of the class of the token and keeps
    the invariant, or raises [IndexError]. *)
Lemma lexmap_codes st ty l :
  encode_inv st -> token_wf (ty, l) ->
  match lexmap ty st l with
  | Return (g, st') =>
      exists gz, g = Some gz /\ code_of_class (ty, l) gz /\ 1 <= gz /\
        encode_inv st' /\ encoding st' = encoding st
  | Raise e => e = IndexError
  end.
Proof.
  intros (HN & HS & HP) Hwf.
  inversion Hwf as [c Hc|c k Hc|c k Hc|c k Hc]; subst; cbn [lexmap].
  - unfold encode_constant_sign.
    destruct (constant_chars_mapping c Hc) as [g Hg]. rewrite Hg. exists g.
    pose proof (CONSTANT_SIGNS_inverse_range _ _ (CONSTANT_SIGNS_mapping_inverse _ _ Hg))
      as Hr.
    split; [done|]. split; [exact Hg|]. split; [lia|]. done.
  - rewrite encode_numerical_variable_assign.
    destruct (lookup_or_assign 1 _ _) as [[g m]|e] eqn:Hla.
    + rewrite bind_Return.
      destruct (lookup_or_assign_codes _ NUMERICAL_VARIABLES 1 _ (c :: replicate k TICK) g m pools_numerical_exp HN)
        as (HN' & _ & q & Hq & Hq12 & ->);
        [left|by exists c, k| |exact Hla|].
      * by intros pool' e' [= _ ->]%list_elem_of_singleton _.
      * exists (q ^ 1). rewrite Z.pow_1_r. split; [done|].
        split; [split; [exact Hq|lia]|]. split; [lia|]. split; [|done].
        split; [exact HN'|]. split; [exact HS|exact HP].
    + rewrite bind_Raise. by apply lookup_or_assign_Raise in Hla as [-> _].
  - rewrite encode_sentntial_variable_assign.
    destruct (lookup_or_assign 2 _ _) as [[g m]|e] eqn:Hla.
    + rewrite bind_Return.
      destruct (lookup_or_assign_codes _ SENTNTIAL_VARIABLES 2 _ (c :: replicate k TICK) g m pools_sentntial_exp HS)
        as (HS' & _ & q & Hq & Hq12 & ->);
        [left|by exists c, k| |exact Hla|].
      * intros pool' e' [[= -> ->]|[= -> ->]%list_elem_of_singleton]%elem_of_cons Hl;
          [done|].
        destruct (sentntial_predicate_disjoint (c :: replicate k TICK)); [by exists c, k|done].
      * exists (q ^ 2). split; [done|]. split; [by exists q|]. split; [nia|].
        split; [|done]. split; [exact HN|]. split; [exact HS'|exact HP].
    + rewrite bind_Raise. by apply lookup_or_assign_Raise in Hla as [-> _].
  - rewrite encode_predicate_variable_assign.
    destruct (lookup_or_assign 3 _ _) as [[g m]|e] eqn:Hla.
    + rewrite bind_Return.
      destruct (lookup_or_assign_codes _ PREDICATE_VARIABLES 3 _ (c :: replicate k TICK) g m pools_sentntial_exp HS)
        as (HS' & _ & q & Hq & Hq12 & ->);
        [right; left|by exists c, k| |exact Hla|].
      * intros pool' e' [[= -> ->]|[= -> ->]%list_elem_of_singleton]%elem_of_cons Hl;
          [|done].
        destruct (sentntial_predicate_disjoint (c :: replicate k TICK)); [done|by exists c, k].
      * exists (q ^ 3). split; [done|]. split; [by exists q|].
        split; [pose proof (Z.pow_pos_nonneg q 3); lia|].
        split; [|done]. split; [exact HN|]. split; [exact HS'|exact HP].
    + rewrite bind_Raise. by apply lookup_or_assign_Raise in Hla as [-> _].
Qed.

(** The loop over the tokens. *)
Lemma encode_tokens_codes tokens st :
  encode_inv st -> Forall token_wf tokens ->
  match for_each encode_token st tokens with
  | Return st' =>
      exists codes, encoding st' = encoding st ++ (Some <$> codes) /\
        Forall2 code_of_class tokens codes /\ Forall (fun g => 1 <= g) codes /\
        encode_inv st'
  | Raise e => e = IndexError
  end.
Proof.
  intros Hinv Hwf. revert st Hinv.
  induction Hwf as [|[ty l] tokens Hwf _ IH]; intros st Hinv.
  - cbn [for_each]. exists []. cbn [fmap list_fmap]. rewrite app_nil_r.
    split_and!; [done|constructor|constructor|done].
  - cbn [for_each encode_token].
    pose proof (lexmap_codes st ty l Hinv Hwf) as Hstep.
    destruct (lexmap ty st l) as [[g st1]|e]; [|by rewrite bind_Raise].
    destruct Hstep as (gz & -> & Hcls & Hgz & Hinv1 & Henc1). rewrite !bind_Return.
    set (st2 := {| encoding := encoding st1 ++ [Some gz];
                   numerical_variables := numerical_variables st1;
                   sentntial_variables := sentntial_variables st1;
                   predicate_variables := predicate_variables st1 |}).
    assert (Hinv2 : encode_inv st2) by exact Hinv1.
    pose proof (IH st2 Hinv2) as Hrest.
    destruct (for_each encode_token st2 tokens) as [st'|e]; [|done].
    destruct Hrest as (codes & Henc & Hcodes & Hpos & Hinv').
    exists (gz :: codes). split_and!; [|by constructor|by constructor|done].
    rewrite Henc. cbn [encoding st2]. rewrite Henc1, <- app_assoc. done.
Qed.

Lemma generate_prime_power_overflow codes start :
  (start <= length PRIME)%nat -> (length PRIME < start + length codes)%nat ->
  generate prime_power (enumerate_from start (Some <$> codes)) = Raise IndexError.
Proof.
  revert start. induction codes as [|c codes IH]; intros start Hstart Hlen.
  - cbn [length] in Hlen. lia.
  - cbn [fmap list_fmap enumerate_from generate prime_power]. cbn [length] in Hlen.
    destruct (PRIME_at start) as [p|e] eqn:Hp.
    + apply PRIME_at_Return, lookup_lt_Some in Hp.
      rewrite !bind_Return, IH; [done|lia..].
    + rewrite bind_Raise. by apply PRIME_at_Raise in Hp as [-> _].
Qed.

(** [encode] on a string that is not empty, by the outcome of its three
    steps. *)
Lemma encode_cases (s : str) :
  s ≠ [] ->
  match Lexer_scan Lexer_init s with
  | Raise e => encode s = Raise e /\ exists v, e = LexicalException v
  | Return tokens =>
      Forall token_wf tokens /\ concat tokens.*2 = s /\
      match for_each encode_token State_init tokens with
      | Raise e => encode s = Raise e /\ e = IndexError
      | Return st =>
          exists codes, encoding st = Some <$> codes /\
            Forall2 code_of_class tokens codes /\ Forall (fun g => 1 <= g) codes /\
            encode_inv st /\
            ((length tokens <= length PRIME)%nat /\
               encode s = Return (prod (zip_with Z.pow PRIME codes)) \/
             (length PRIME < length tokens)%nat /\ encode s = Raise IndexError)
      end
  end.
Proof.
  intros Hs. unfold encode. rewrite bool_decide_eq_false_2 by done. cbn zeta.
  destruct (Lexer_scan Lexer_init s) as [tokens|e] eqn:Hscan.
  - rewrite bind_Return. apply Lexer_scan_Return in Hscan as [Hconcat Hwf].
    split; [done|]. split; [done|].
    pose proof (encode_tokens_codes tokens State_init encode_inv_init Hwf) as Hrun.
    destruct (for_each encode_token State_init tokens) as [st|e].
    + destruct Hrun as (codes & Henc & Hcls & Hpos & Hinv). cbn [encoding State_init app] in Henc.
      exists codes. split_and!; try done. rewrite bind_Return, Henc. unfold enumerate.
      pose proof (Forall2_length _ _ _ Hcls) as Hlen.
      destruct (le_lt_dec (length tokens) (length PRIME)) as [Hle|Hgt].
      * left. split; [done|]. rewrite generate_prime_power by lia.
        by rewrite bind_Return, drop_0.
      * right. split; [done|]. rewrite generate_prime_power_overflow by lia. done.
    + rewrite bind_Raise. done.
  - rewrite bind_Raise. split; [done|]. unfold Lexer_scan in Hscan. cbn zeta in Hscan.
    destruct (Scanner_scan _ s) as [toks r]. case_bool_decide; [|done].
    injection Hscan as <-. by eexists.
Qed.

(** X16: the four lookup methods of [encode] are stable: asked again for the
    same symbol in the state they leave, they return the same code and
    leave the state as it is. *)
Theorem lexmap_cached (ty : token_type) (self self' : State str Z) (symbol : str)
    (g : option Z) :
  lexmap ty self symbol = Return (g, self') ->
  lexmap ty self' symbol = Return (g, self').
Proof.
  destruct ty; cbn [lexmap].
  - unfold encode_constant_sign. by intros [= <- <-].
  - rewrite !encode_numerical_variable_assign.
    destruct (lookup_or_assign 1 _ _) as [[g0 m]|e] eqn:Hla; [|done].
    rewrite bind_Return. intros [= <- <-]. cbn [numerical_variables
      sentntial_variables predicate_variables encoding].
    destruct (lookup_or_assign_cached 1 _ _ _ _ ltac:(lia) Hla) as (_ & _ & ->). done.
  - rewrite !encode_sentntial_variable_assign.
    destruct (lookup_or_assign 2 _ _) as [[g0 m]|e] eqn:Hla; [|done].
    rewrite bind_Return. intros [= <- <-]. cbn [numerical_variables
      sentntial_variables predicate_variables encoding].
    destruct (lookup_or_assign_cached 2 _ _ _ _ ltac:(lia) Hla) as (_ & _ & ->). done.
  - rewrite !encode_predicate_variable_assign.
    destruct (lookup_or_assign 3 _ _) as [[g0 m]|e] eqn:Hla; [|done].
    rewrite bind_Return. intros [= <- <-]. cbn [numerical_variables
      sentntial_variables predicate_variables encoding].
    destruct (lookup_or_assign_cached 3 _ _ _ _ ltac:(lia) Hla) as (_ & _ & ->). done.
Qed.

Lemma lexmap_cached_witness :
  lexmap numerical_type State_init (pystr "x")
  = Return (Some 13, {| encoding := [];
                        numerical_variables := {[ pystr "x" := 13 ]};
                        sentntial_variables := ∅;
                        predicate_variables := ∅ |}) /\
  lexmap numerical_type {| encoding := [];
                           numerical_variables := {[ pystr "x" := 13 ]};
                           sentntial_variables := ∅;
                           predicate_variables := ∅ |} (pystr "x")
  = Return (Some 13, {| encoding := [];
                        numerical_variables := {[ pystr "x" := 13 ]};
                        sentntial_variables := ∅;
                        predicate_variables := ∅ |}).
Proof.
  assert (H : lexmap numerical_type State_init (pystr "x")
              = Return (Some 13, {| encoding := [];
                                    numerical_variables := {[ pystr "x" := 13 ]};
                                    sentntial_variables := ∅;
                                    predicate_variables := ∅ |})).
  { eval_with_PRIME_prefix. reflexivity. }
  split; [exact H|]. exact (lexmap_cached _ _ _ _ _ H).
Defined.

(** X17: when a map of variables holds [len(PRIME) - PRIME_OFFSET] entries
    or more, each method that takes its codes by the size of that map
    raises [IndexError] on a symbol the map does not hold. *)
Theorem encode_variable_table_exhausted (self : State str Z) (symbol : str)
    (m : gmap str Z) :
  (length PRIME <= PRIME_OFFSET + size m)%nat -> found_code (m !! symbol) = None ->
  (numerical_variables self = m -> encode_numerical_variable self symbol = Raise IndexError) /\
  (sentntial_variables self = m ->
     encode_sentntial_variable self symbol = Raise IndexError /\
     encode_predicate_variable self symbol = Raise IndexError).
Proof.
  intros Hlen Hf. split; [intros <-|intros <-; split].
  - by rewrite encode_numerical_variable_assign, lookup_or_assign_overflow.
  - by rewrite encode_sentntial_variable_assign, lookup_or_assign_overflow.
  - by rewrite encode_predicate_variable_assign, lookup_or_assign_overflow.
Qed.

Lemma encode_variable_table_exhausted_witness :
  (length PRIME <= PRIME_OFFSET + size full_map)%nat /\
  found_code (full_map !! var_name NUMERICAL_VARIABLES 1224) = None /\
  (numerical_variables full_state = full_map ->
     encode_numerical_variable full_state (var_name NUMERICAL_VARIABLES 1224)
     = Raise IndexError) /\
  (sentntial_variables full_state = full_map ->
     encode_sentntial_variable full_state (var_name NUMERICAL_VARIABLES 1224)
     = Raise IndexError /\
     encode_predicate_variable full_state (var_name NUMERICAL_VARIABLES 1224)
     = Raise IndexError).
Proof.
  assert (Hkeys : ((fun l : str => (l, 13)) <$> numerical_names 1224).*1
                  = numerical_names 1224).
  { rewrite <- list_fmap_compose. apply list_fmap_id. }
  assert (H1 : (length PRIME <= PRIME_OFFSET + size full_map)%nat).
  { unfold full_map. rewrite map_size_list_to_map
      by (rewrite Hkeys; apply numerical_names_NoDup).
    unfold numerical_names.
    rewrite !length_fmap, length_seq, PRIME_length, PRIME_OFFSET_value. lia. }
  assert (H2 : found_code (full_map !! var_name NUMERICAL_VARIABLES 1224) = None).
  { unfold full_map. rewrite not_elem_of_list_to_map_1; [reflexivity|].
    rewrite Hkeys. unfold numerical_names.
    intros (i & Heq%var_name_numerical_inj & Hi%elem_of_seq)%list_elem_of_fmap. lia. }
  split; [exact H1|]. split; [exact H2|].
  exact (encode_variable_table_exhausted full_state _ full_map H1 H2).
Defined.

(** X18: after the loop of [encode] over tokens of the lexer, no two
    variables of a map have the same code; the codes of the numerical
    variables are primes of the table above 12, those of the sentential
    map are squares and cubes of such primes, so that no code is in both
    maps; and the predicate map is empty. *)
Theorem encode_codes_distinct (tokens : list token) (st : State str Z) :
  Forall token_wf tokens ->
  for_each encode_token State_init tokens = Return st ->
  (forall l1 l2 g, numerical_variables st !! l1 = Some g ->
     numerical_variables st !! l2 = Some g -> l1 = l2) /\
  (forall l1 l2 g, sentntial_variables st !! l1 = Some g ->
     sentntial_variables st !! l2 = Some g -> l1 = l2) /\
  (forall l g, numerical_variables st !! l = Some g -> g ∈ PRIME /\ 12 < g) /\
  (forall l g, sentntial_variables st !! l = Some g ->
     exists q, q ∈ PRIME /\ 12 < q /\ (g = q ^ 2 \/ g = q ^ 3)) /\
  (forall l1 l2 g, numerical_variables st !! l1 = Some g ->
     sentntial_variables st !! l2 = Some g -> False) /\
  predicate_variables st = ∅.
Proof.
  intros Hwf Hrun.
  pose proof (encode_tokens_codes tokens State_init encode_inv_init Hwf) as Hinv.
  rewrite Hrun in Hinv. destruct Hinv as (_ & _ & _ & _ & [HN1 HN2] & [HS1 HS2] & HP).
  assert (HNv : forall l g, numerical_variables st !! l = Some g -> g ∈ PRIME /\ 12 < g).
  { intros l g Hl. destruct (HN1 _ _ Hl) as (k & q & pool & e & _ & Hq & Hin & _ & ->).
    apply list_elem_of_singleton in Hin as [= _ ->]. rewrite Z.pow_1_r.
    split; [by eapply code_prime_elem|by eapply code_prime_above]. }
  assert (HSv : forall l g, sentntial_variables st !! l = Some g ->
            exists q, q ∈ PRIME /\ 12 < q /\ (g = q ^ 2 \/ g = q ^ 3)).
  { intros l g Hl. destruct (HS1 _ _ Hl) as (k & q & pool & e & _ & Hq & Hin & _ & ->).
    exists q. split; [by eapply code_prime_elem|]. split; [by eapply code_prime_above|].
    apply elem_of_cons in Hin as [[= _ ->]|[= _ ->]%list_elem_of_singleton]; auto. }
  split_and!; try done.
  intros l1 l2 g [Hg _]%HNv (q & _ & Hq & [->| ->])%HSv.
  - apply (power_not_in_PRIME q 2) in Hg; [done|lia..].
  - apply (power_not_in_PRIME q 3) in Hg; [done|lia..].
Qed.

Lemma encode_codes_distinct_witness :
  Forall token_wf [(numerical_type, pystr "x"); (sentntial_type, pystr "p")] /\
  for_each encode_token State_init
    [(numerical_type, pystr "x"); (sentntial_type, pystr "p")] = Return state_after_x_p /\
  (forall l1 l2 g, numerical_variables state_after_x_p !! l1 = Some g ->
     numerical_variables state_after_x_p !! l2 = Some g -> l1 = l2) /\
  (forall l1 l2 g, sentntial_variables state_after_x_p !! l1 = Some g ->
     sentntial_variables state_after_x_p !! l2 = Some g -> l1 = l2) /\
  (forall l g, numerical_variables state_after_x_p !! l = Some g -> g ∈ PRIME /\ 12 < g) /\
  (forall l g, sentntial_variables state_after_x_p !! l = Some g ->
     exists q, q ∈ PRIME /\ 12 < q /\ (g = q ^ 2 \/ g = q ^ 3)) /\
  (forall l1 l2 g, numerical_variables state_after_x_p !! l1 = Some g ->
     sentntial_variables state_after_x_p !! l2 = Some g -> False) /\
  predicate_variables state_after_x_p = ∅.
Proof.
  assert (H1 : Forall token_wf [(numerical_type, pystr "x"); (sentntial_type, pystr "p")]).
  { repeat constructor; [apply (wf_numerical 120 0)|apply (wf_sentntial 112 0)];
      apply (bool_decide_unpack _); vm_compute; exact I. }
  assert (H2 : for_each encode_token State_init
                 [(numerical_type, pystr "x"); (sentntial_type, pystr "p")]
               = Return state_after_x_p).
  { eval_with_PRIME_prefix. reflexivity. }
  split; [exact H1|]. split; [exact H2|].
  exact (encode_codes_distinct _ _ H1 H2).
Defined.

(** X19: the number that [encode] returns for a string that is not empty is
    the product of the powers [PRIME[i] ^ g_i], where [g_i] is a code of
    the class of the [i]-th token: the code of its constant sign, a prime
    of the table above 12, or the square or the cube of one; and the
    grouped factors that [decode] computes from the number are these
    primes with these codes. *)
Theorem encode_exponents (s : str) (tokens : list token) (n : Z) :
  s ≠ [] -> Lexer_scan Lexer_init s = Return tokens -> encode s = Return n ->
  exists codes, Forall2 code_of_class tokens codes /\
    n = prod (zip_with Z.pow PRIME codes) /\
    grouped_factors n = zip PRIME codes.
Proof.
  intros Hs Hscan Henc. pose proof (encode_cases s Hs) as Hcases.
  rewrite Hscan in Hcases. destruct Hcases as (_ & _ & Hcases).
  destruct (for_each encode_token State_init tokens) as [st|e].
  - destruct Hcases as (codes & _ & Hcls & Hpos & _ & [[_ Hn]|[_ Hn]]);
      rewrite Hn in Henc; [|done].
    injection Henc as <-. exists codes. split; [done|]. split; [done|].
    by apply grouped_factors_prod; [apply PRIME_sorted|apply Forall_forall, PRIME_prime|].
  - destruct Hcases as [Hn _]. by rewrite Hn in Henc.
Qed.

Lemma encode_exponents_witness :
  pystr "0=0" ≠ [] /\
  Lexer_scan Lexer_init (pystr "0=0")
  = Return [(constant_type, pystr "0"); (constant_type, pystr "=");
            (constant_type, pystr "0")] /\
  encode (pystr "0=0") = Return (2 ^ 6 * 3 ^ 5 * 5 ^ 6) /\
  exists codes,
    Forall2 code_of_class
      [(constant_type, pystr "0"); (constant_type, pystr "="); (constant_type, pystr "0")]
      codes /\
    2 ^ 6 * 3 ^ 5 * 5 ^ 6 = prod (zip_with Z.pow PRIME codes) /\
    grouped_factors (2 ^ 6 * 3 ^ 5 * 5 ^ 6) = zip PRIME codes.
Proof.
  assert (H1 : pystr "0=0" ≠ []) by discriminate.
  assert (H2 : Lexer_scan Lexer_init (pystr "0=0")
               = Return [(constant_type, pystr "0"); (constant_type, pystr "=");
                         (constant_type, pystr "0")]) by (vm_compute; reflexivity).
  assert (H3 : encode (pystr "0=0") = Return (2 ^ 6 * 3 ^ 5 * 5 ^ 6)).
  { eval_with_PRIME_prefix. reflexivity. }
  split; [exact H1|]. split; [exact H2|]. split; [exact H3|].
  exact (encode_exponents _ _ _ H1 H2 H3).
Defined.

(** X20: [encode] raises nothing but [IndexError] and [LexicalException]. *)
Theorem encode_raises_only (s : str) (e : exception) :
  encode s = Raise e -> e = IndexError \/ exists v, e = LexicalException v.
Proof.
  intros Henc. destruct (decide (s = [])) as [->|Hs]; [done|].
  pose proof (encode_cases s Hs) as Hcases.
  destruct (Lexer_scan Lexer_init s) as [tokens|e0].
  - destruct Hcases as (_ & _ & Hcases).
    destruct (for_each encode_token State_init tokens) as [st|e1].
    + destruct Hcases as (codes & _ & _ & _ & _ & [[_ Hn]|[_ Hn]]);
        rewrite Hn in Henc; [done|]. injection Henc as <-. by left.
    + destruct Hcases as [Hn ->]. rewrite Hn in Henc. injection Henc as <-. by left.
  - destruct Hcases as [Hn Hv]. rewrite Hn in Henc. injection Henc as <-. by right.
Qed.

Lemma encode_raises_only_witness :
  encode (pystr "0=0#") = Raise (LexicalException (lexical_message (pystr "#"))) /\
  (LexicalException (lexical_message (pystr "#")) = IndexError \/
   exists v, LexicalException (lexical_message (pystr "#")) = LexicalException v).
Proof.
  assert (H : encode (pystr "0=0#")
              = Raise (LexicalException (lexical_message (pystr "#"))))
    by (vm_compute; reflexivity).
  split; [exact H|]. exact (encode_raises_only _ _ H).
Defined.

(** X21: on a string of more tokens than [PRIME] has entries, [encode]
    raises [IndexError]. *)
Theorem encode_too_many_tokens (s : str) (tokens : list token) :
  Lexer_scan Lexer_init s = Return tokens -> (length PRIME < length tokens)%nat ->
  encode s = Raise IndexError.
Proof.
  intros Hscan Hlen.
  assert (Hs : s ≠ []).
  { intros ->. injection Hscan as <-. cbn in Hlen. lia. }
  pose proof (encode_cases s Hs) as Hcases.
  rewrite Hscan in Hcases. destruct Hcases as (_ & _ & Hcases).
  destruct (for_each encode_token State_init tokens) as [st|e].
  - destruct Hcases as (codes & _ & _ & _ & _ & [[Hle _]|[_ Hn]]); [lia|done].
  - by destruct Hcases as [Hn ->].
Qed.

Lemma encode_too_many_tokens_witness :
  Lexer_scan Lexer_init (concat (replicate 1230 (constant_type, pystr "0")).*2)
  = Return (replicate 1230 (constant_type, pystr "0")) /\
  (length PRIME < length (replicate 1230 (constant_type, pystr "0")))%nat /\
  encode (concat (replicate 1230 (constant_type, pystr "0")).*2) = Raise IndexError.
Proof.
  assert (H1 : Lexer_scan Lexer_init (concat (replicate 1230 (constant_type, pystr "0")).*2)
               = Return (replicate 1230 (constant_type, pystr "0"))).
  { apply Lexer_scan_concat, Forall_replicate. apply (wf_constant 48).
    apply (bool_decide_unpack _). vm_compute. exact I. }
  assert (H2 : (length PRIME < length (replicate 1230 (constant_type, pystr "0")))%nat).
  { rewrite PRIME_length, length_replicate. lia. }
  split; [exact H1|]. split; [exact H2|].
  exact (encode_too_many_tokens _ _ H1 H2).
Defined.

(** X22: [encode] returns 0 for the empty string only; the number of any
    other string is even and at least 2. *)
Theorem encode_zero_iff_empty (s : str) (n : Z) :
  encode s = Return n -> (n = 0 <-> s = []) /\ (s ≠ [] -> 2 <= n /\ (2 | n)).
Proof.
  intros Henc. destruct (decide (s = [])) as [->|Hs].
  { injection Henc as <-. done. }
  pose proof (encode_cases s Hs) as Hcases.
  destruct (Lexer_scan Lexer_init s) as [tokens|e0].
  2:{ destruct Hcases as [Hn _]. by rewrite Hn in Henc. }
  destruct Hcases as (_ & Hconcat & Hcases).
  destruct (for_each encode_token State_init tokens) as [st|e1].
  2:{ destruct Hcases as [Hn _]. by rewrite Hn in Henc. }
  destruct Hcases as (codes & _ & Hcls & Hpos & _ & [[_ Hn]|[_ Hn]]);
    rewrite Hn in Henc; [|done].
  injection Henc as <-.
  destruct tokens as [|tok tokens]; [by subst s|].
  apply Forall2_cons_inv_l in Hcls as (g & codes' & _ & _ & ->).
  apply Forall_cons in Hpos as [Hg Hpos].
  pose proof PRIME_sorted as Hsort.
  assert (Hprime : Forall Z.prime PRIME) by (apply Forall_forall, PRIME_prime).
  assert (exists tl, PRIME = 2 :: tl) as [tl HP].
  { destruct PRIME_prefix as (rest & -> & _). eexists. reflexivity. }
  rewrite HP in Hsort, Hprime |- *. clear HP.
  apply StronglySorted_inv in Hsort as [Hsort _]. apply Forall_cons in Hprime as [_ Hprime].
  cbn [zip_with]. rewrite prod_cons.
  destruct (grouped_factors_prod tl codes' Hsort Hprime Hpos) as [_ Hrest].
  assert (2 ^ g = 2 * 2 ^ (g - 1)) as ->.
  { rewrite <- Z.pow_succ_r by lia. f_equal. lia. }
  pose proof (Z.pow_pos_nonneg 2 (g - 1)) as Ha.
  remember (2 ^ (g - 1)) as a. remember (prod (zip_with Z.pow tl codes')) as b.
  assert (Hab : 1 <= a * b) by (pose proof (Z.mul_le_mono_nonneg 1 a 1 b); lia).
  split; [split; [lia|done]|intros _; split; [lia|]].
  exists (a * b). lia.
Qed.

Lemma encode_zero_iff_empty_witness :
  encode (pystr "0=0") = Return (2 ^ 6 * 3 ^ 5 * 5 ^ 6) /\
  (2 ^ 6 * 3 ^ 5 * 5 ^ 6 = 0 <-> pystr "0=0" = []) /\
  (pystr "0=0" ≠ [] -> 2 <= 2 ^ 6 * 3 ^ 5 * 5 ^ 6 /\ (2 | 2 ^ 6 * 3 ^ 5 * 5 ^ 6)).
Proof.
  assert (H : encode (pystr "0=0") = Return (2 ^ 6 * 3 ^ 5 * 5 ^ 6)).
  { eval_with_PRIME_prefix. reflexivity. }
  split; [exact H|]. exact (encode_zero_iff_empty _ _ H).
Defined.

(** ** godel.py: what [decode] accepts and returns *)

Lemma decode_not_positive n : n <= 1 -> decode n = Return [].
Proof.
  intros Hn. unfold decode. case_bool_decide; [done|]. cbn zeta.
  unfold grouped_factors. rewrite factor_below_2 by lia. reflexivity.
Qed.

(** A list whose set of elements has one element repeats that element. *)
Lemma list_to_set_size_1 (fs : list Z) :
  size (list_to_set fs : gset Z) = 1%nat -> exists x, fs = replicate (length fs) x.
Proof.
  intros Hsize. destruct fs as [|x fs]; [by exists 0|]. exists x.
  symmetry. apply replicate_as_Forall_2; [done|]. apply Forall_forall. intros y Hy.
  apply (size_singleton_inv (list_to_set (x :: fs) : gset Z)); [done| |];
    apply elem_of_list_to_set; [left|done].
Qed.

(** The squares and cubes of the primes of the table are the codes of
    sentential and predicate variables. *)
Lemma decode_code_square state p :
  p ∈ PRIME -> 12 < p ^ 2 ->
  decode_code state (p ^ 2) = Return (decode_sentential_variable state (p ^ 2)).
Proof.
  intros Hp H12. pose proof (PRIME_prime _ Hp) as Hprime.
  pose proof (Z.prime_ge_2 _ Hprime) as Hp2.
  unfold decode_code. rewrite found_symbol_inverse_above by done.
  rewrite bool_decide_eq_false_2 by (apply (power_not_in_PRIME p 2); lia).
  assert (Hf : factor (p ^ 2) = replicate 2 p) by exact (factor_prime_power p 2 Hprime).
  cbn zeta. rewrite !Hf, size_list_to_set_replicate.
  rewrite bool_decide_eq_false_2 by (intros ?; done).
  cbn [replicate length lookup_total list_lookup_total].
  rewrite (bool_decide_eq_true_2 (2 = 2)%nat) by reflexivity.
  rewrite (bool_decide_eq_true_2 (p ∈ PRIME)) by exact Hp.
  reflexivity.
Qed.

Lemma decode_code_cube state p :
  p ∈ PRIME -> 12 < p ^ 3 ->
  decode_code state (p ^ 3) = Return (decode_predicate_variable state (p ^ 3)).
Proof.
  intros Hp H12. pose proof (PRIME_prime _ Hp) as Hprime.
  pose proof (Z.prime_ge_2 _ Hprime) as Hp2.
  unfold decode_code. rewrite found_symbol_inverse_above by done.
  rewrite bool_decide_eq_false_2 by (apply (power_not_in_PRIME p 3); lia).
  assert (Hf : factor (p ^ 3) = replicate 3 p) by exact (factor_prime_power p 3 Hprime).
  cbn zeta. rewrite !Hf, size_list_to_set_replicate.
  rewrite bool_decide_eq_false_2 by (intros ?; done).
  cbn [replicate length lookup_total list_lookup_total].
  rewrite (bool_decide_eq_false_2 (3 = 2)%nat) by lia. cbn [andb].
  rewrite (bool_decide_eq_true_2 (3 = 3)%nat) by reflexivity.
  rewrite (bool_decide_eq_true_2 (p ∈ PRIME)) by exact Hp.
  reflexivity.
Qed.

(** The path that [decode_code] takes for a code above the constants. *)
Lemma decode_code_above state gnum :
  12 < gnum ->
  match decode_code state gnum with
  | Return r =>
      gnum ∈ PRIME /\ r = decode_numerical_variable state gnum \/
      (exists p, p ∈ PRIME /\ gnum = p ^ 2 /\ r = decode_sentential_variable state gnum) \/
      (exists p, p ∈ PRIME /\ gnum = p ^ 3 /\ r = decode_predicate_variable state gnum)
  | Raise e => e = ValueError (not_prime_power gnum)
  end.
Proof.
  intros H12. unfold decode_code. rewrite found_symbol_inverse_above by done.
  case_bool_decide as Hin; [by left|]. cbn zeta.
  destruct (factor_spec gnum ltac:(lia)) as (_ & _ & Hprod).
  case_bool_decide as Hsize; [done|].
  assert (size (list_to_set (factor gnum) : gset Z) = 1%nat) as Hone.
  { destruct (decide (size (list_to_set (factor gnum) : gset Z) = 1%nat)); [done|].
    by destruct Hsize. }
  destruct (list_to_set_size_1 _ Hone) as [x Hx].
  case_bool_decide as Hlen2; cbn [andb].
  - rewrite Hlen2 in Hx. rewrite Hx in Hprod |- *.
    cbn [replicate lookup_total list_lookup_total].
    case_bool_decide as Hxin; [|done]. right. left. exists x.
    split; [done|]. split; [|done]. rewrite <- Hprod, (prod_replicate 2 x). done.
  - case_bool_decide as Hlen3; cbn [andb]; [|done].
    rewrite Hlen3 in Hx. rewrite Hx in Hprod |- *.
    cbn [replicate lookup_total list_lookup_total].
    case_bool_decide as Hxin; [|done]. right. right. exists x.
    split; [done|]. split; [|done]. rewrite <- Hprod, (prod_replicate 3 x). done.
Qed.

(** X23: a code [gnum] above 12 is read by [decode] in one of four ways: as a
    numerical variable when [gnum] is in [PRIME], as a sentential
    variable when it is the square of a prime of [PRIME], as a predicate
    variable when it is the cube of one, and otherwise [ValueError] is
    raised, and then [gnum] is none of these. *)
Theorem decode_code_classes (state : State Z str) (gnum : Z) :
  12 < gnum ->
  gnum ∈ PRIME /\
    decode_code state gnum = Return (decode_numerical_variable state gnum) \/
  (exists p, p ∈ PRIME /\ gnum = p ^ 2 /\
     decode_code state gnum = Return (decode_sentential_variable state gnum)) \/
  (exists p, p ∈ PRIME /\ gnum = p ^ 3 /\
     decode_code state gnum = Return (decode_predicate_variable state gnum)) \/
  (gnum ∉ PRIME) /\ (forall p, p ∈ PRIME -> gnum ≠ p ^ 2 /\ gnum ≠ p ^ 3) /\
    decode_code state gnum = Raise (ValueError (not_prime_power gnum)).
Proof.
  intros H12. pose proof (decode_code_above state gnum H12) as Hpath.
  destruct (decode_code state gnum) as [r|e] eqn:Hcode.
  - destruct Hpath as [[Hin ->]|[(p & Hp & Hg & ->)|(p & Hp & Hg & ->)]].
    + left. split; [exact Hin|reflexivity].
    + right. left. exists p. split_and!; [exact Hp|exact Hg|reflexivity].
    + right. right. left. exists p. split_and!; [exact Hp|exact Hg|reflexivity].
  - right. right. right. split_and!.
    + intros Hin. unfold decode_code in Hcode.
      rewrite found_symbol_inverse_above, bool_decide_eq_true_2 in Hcode by done. done.
    + intros p Hp. split; intros ->.
      * by rewrite decode_code_square in Hcode.
      * by rewrite decode_code_cube in Hcode.
    + by rewrite Hpath.
Qed.

Lemma decode_code_classes_witness :
  12 < 169 /\
  (169 ∈ PRIME /\
     decode_code State_init 169 = Return (decode_numerical_variable State_init 169) \/
   (exists p, p ∈ PRIME /\ 169 = p ^ 2 /\
      decode_code State_init 169 = Return (decode_sentential_variable State_init 169)) \/
   (exists p, p ∈ PRIME /\ 169 = p ^ 3 /\
      decode_code State_init 169 = Return (decode_predicate_variable State_init 169)) \/
   (169 ∉ PRIME) /\ (forall p, p ∈ PRIME -> 169 ≠ p ^ 2 /\ 169 ≠ p ^ 3) /\
     decode_code State_init 169 = Raise (ValueError (not_prime_power 169))).
Proof.
  assert (H : 12 < 169) by lia.
  split; [exact H|]. exact (decode_code_classes State_init 169 H).
Defined.

Lemma decode_prime_exponent_beyond_table q :
  Z.prime q -> UPPERBOUND_OF_PRIMES < q ->
  decode (2 ^ q) = Raise (ValueError (not_prime_power q)).
Proof.
  intros Hq Hbig. pose proof (Z.prime_ge_2 _ Hq) as Hq2.
  assert (H12 : 12 < q) by (unfold UPPERBOUND_OF_PRIMES in Hbig; lia).
  unfold decode. rewrite bool_decide_eq_false_2 by (pose proof (Z.pow_pos_nonneg 2 q); lia).
  cbn zeta. destruct PRIME_first as [rest HP].
  assert (Hgf : grouped_factors (2 ^ q) = [(2, q)]).
  { destruct (grouped_factors_prod [2] [q]) as [Hgf _].
    - repeat constructor.
    - repeat constructor. apply Z.prime_2.
    - repeat constructor. lia.
    - cbn [zip_with] in Hgf. rewrite prod_cons, prod_nil, Z.mul_1_r in Hgf. exact Hgf. }
  rewrite Hgf. cbn [enumerate enumerate_from for_each decode_factor].
  unfold PRIME_at. rewrite HP. cbn [lookup list_lookup]. rewrite bind_Return.
  rewrite bool_decide_eq_false_2 by (intros Hne; by apply Hne).
  pose proof (decode_code_above State_init q H12) as Hpath.
  destruct (decode_code State_init q) as [r|e].
  - exfalso. destruct Hpath as [[Hin _]|[(p & Hp & -> & _)|(p & Hp & -> & _)]].
    + apply PRIME_elem_of in Hin as [_ Hle]. lia.
    + apply PRIME_prime, Z.prime_ge_2 in Hp.
      destruct Hq as [_ Hq]. apply (Hq p); [nia|]. exists p. lia.
    + apply PRIME_prime, Z.prime_ge_2 in Hp.
      destruct Hq as [_ Hq]. apply (Hq p); [nia|]. exists (p ^ 2). lia.
  - rewrite bind_Raise. by rewrite Hpath.
Qed.

(** *** The text that [decode] returns *)

Lemma inverse_constant_chars g l :
  inverse CONSTANT_SIGNS !! g = Some l -> exists c, l = [c] /\ c ∈ constant_chars.
Proof.
  assert (map_Forall (fun _ l => l ∈ (fun c => [c]) <$> constant_chars)
            (inverse CONSTANT_SIGNS)) as Hall.
  { apply (bool_decide_unpack _). vm_compute. exact I. }
  intros Hl. apply Hall, list_elem_of_fmap in Hl as (c & -> & Hc). by exists c.
Qed.

Lemma var_name_lexeme (pool : list str) (a b c : N) (i : nat) :
  pool = [[a]; [b]; [c]] -> is_lexeme pool (var_name pool i).
Proof.
  intros ->. unfold var_name. change (length [[a]; [b]; [c]]) with 3%nat.
  pose proof (Nat.mod_upper_bound i 3 ltac:(lia)) as Hlt.
  destruct (i mod 3)%nat as [|[|[|?]]]; [| | |lia];
    eexists _, (i / 3)%nat; (split; [|reflexivity]); cbn; rewrite !elem_of_cons; auto.
Qed.

Lemma found_symbol_Some l0 l : found_symbol l0 = Some l -> l0 = Some l.
Proof. by destruct l0 as [[|]|]; intros [= <-]. Qed.

Lemma decode_inv_init : decode_inv State_init.
Proof. repeat split; apply map_Forall_empty. Qed.

(** One code: the symbol is a lexeme of the class that the code tells. *)
Lemma decode_code_wf D gnum symbol D' :
  decode_inv D -> decode_code D gnum = Return (symbol, D') ->
  decode_inv D' /\ exists ty, token_wf (ty, symbol).
Proof.
  intros (HN & HS & HP). unfold decode_code.
  destruct (found_symbol (inverse CONSTANT_SIGNS !! gnum)) as [l|] eqn:Hc.
  { intros [= <- <-]. split; [done|].
    apply found_symbol_Some, inverse_constant_chars in Hc as (c & -> & Hc).
    exists constant_type. by constructor. }
  assert (Hwf : forall pool ty (m : gmap Z str) l,
    (forall c k, c ∈ concat pool -> token_wf (ty, c :: replicate k TICK)) ->
    is_lexeme pool l -> token_wf (ty, l)).
  { intros pool ty m l Hcons (c & k & Hin & ->). by apply Hcons. }
  case_bool_decide; [|case_bool_decide; [done|]; destruct (_ && _);
    [|destruct (_ && _); [|done]]].
  - unfold decode_numerical_variable.
    destruct (found_symbol (numerical_variables D !! gnum)) as [l|] eqn:Hl.
    + intros [= <- <-]. split; [done|]. exists numerical_type.
      apply found_symbol_Some, HN in Hl. cbn in Hl.
      destruct Hl as (c & k & Hin & ->). by constructor.
    + intros [= <- <-]. rewrite next_var_name_size.
      pose proof (var_name_lexeme NUMERICAL_VARIABLES _ _ _
                    (size (numerical_variables D)) eq_refl) as Hlex.
      split.
      * split; [|done]. cbn [numerical_variables]. by apply map_Forall_insert_2.
      * exists numerical_type. destruct Hlex as (c & k & Hin & ->). by constructor.
  - unfold decode_sentential_variable.
    destruct (found_symbol (sentntial_variables D !! gnum)) as [l|] eqn:Hl.
    + intros [= <- <-]. split; [done|]. exists sentntial_type.
      apply found_symbol_Some, HS in Hl. cbn in Hl.
      destruct Hl as (c & k & Hin & ->). by constructor.
    + intros [= <- <-]. rewrite next_var_name_size.
      pose proof (var_name_lexeme SENTNTIAL_VARIABLES _ _ _
                    (size (sentntial_variables D)) eq_refl) as Hlex.
      split.
      * split; [done|]. split; [|done]. cbn [sentntial_variables].
        by apply map_Forall_insert_2.
      * exists sentntial_type. destruct Hlex as (c & k & Hin & ->). by constructor.
  - unfold decode_predicate_variable.
    destruct (found_symbol (predicate_variables D !! gnum)) as [l|] eqn:Hl.
    + intros [= <- <-]. split; [done|]. exists predicate_type.
      apply found_symbol_Some, HP in Hl. cbn in Hl.
      destruct Hl as (c & k & Hin & ->). by constructor.
    + intros [= <- <-]. rewrite next_var_name_size.
      pose proof (var_name_lexeme PREDICATE_VARIABLES _ _ _
                    (size (predicate_variables D)) eq_refl) as Hlex.
      split.
      * split; [done|]. split; [done|]. cbn [predicate_variables].
        by apply map_Forall_insert_2.
      * exists predicate_type. destruct Hlex as (c & k & Hin & ->). by constructor.
Qed.

Lemma decode_loop_wf fs start symbols D symbols' D' :
  decode_inv D ->
  for_each decode_factor (symbols, D) (enumerate_from start fs) = Return (symbols', D') ->
  exists tokens, symbols' = symbols ++ tokens.*2 /\ Forall token_wf tokens /\
    length tokens = length fs /\ decode_inv D'.
Proof.
  revert start symbols D. induction fs as [|[f gnum] fs IH]; intros start symbols D Hinv.
  - cbn [enumerate_from for_each]. intros [= <- <-]. exists [].
    by rewrite app_nil_r.
  - cbn [enumerate_from for_each decode_factor].
    destruct (PRIME_at start) as [p|e]; [|done]. rewrite bind_Return.
    case_bool_decide; [done|].
    destruct (decode_code D gnum) as [[symbol D1]|e] eqn:Hcode; [|done].
    rewrite !bind_Return.
    destruct (decode_code_wf _ _ _ _ Hinv Hcode) as (Hinv1 & ty & Hwf).
    intros (tokens & -> & Hwfs & Hlen & Hinv')%IH; [|done].
    exists ((ty, symbol) :: tokens). cbn [fmap list_fmap snd length].
    rewrite <- app_assoc. split_and!; [done|by constructor|by rewrite Hlen|done].
Qed.

Lemma decode_lexes n s :
  decode n = Return s ->
  exists tokens, Lexer_scan Lexer_init s = Return tokens /\
    length tokens = length (grouped_factors n).
Proof.
  unfold decode. case_bool_decide as Hn.
  - intros [= <-]. exists []. subst n. split; [reflexivity|].
    unfold grouped_factors. by rewrite factor_below_2.
  - cbn zeta. unfold enumerate.
    destruct (for_each decode_factor _ _) as [[symbols D]|e] eqn:Hrun; [|done].
    rewrite bind_Return. intros [= <-].
    destruct (decode_loop_wf _ _ _ _ _ _ decode_inv_init Hrun)
      as (tokens & -> & Hwf & Hlen & _).
    exists tokens. split; [|done]. cbn [app]. by apply Lexer_scan_concat.
Qed.

(** X24: [decode] returns the empty string for every number below 2, the
    negative ones included. *)
Theorem decode_below_2_empty (n : Z) : n <= 1 -> decode n = Return [].
Proof. apply decode_not_positive. Qed.

Lemma decode_below_2_empty_witness : -7 <= 1 /\ decode (-7) = Return [].
Proof. split; [lia|]. apply (decode_below_2_empty (-7)). lia. Defined.

(** X25: a prime above [UPPERBOUND_OF_PRIMES] is not accepted as the code
    of a numerical variable: for such a prime [q], [decode (2 ^ q)] raises
    the [ValueError] that [q] is not prime, a prime squared, or a prime
    cubed. *)
Theorem decode_rejects_prime_beyond_table (q : Z) :
  Z.prime q -> UPPERBOUND_OF_PRIMES < q ->
  decode (2 ^ q) = Raise (ValueError (not_prime_power q)).
Proof. apply decode_prime_exponent_beyond_table. Qed.

Lemma decode_rejects_prime_beyond_table_witness :
  Z.prime 10007 /\ UPPERBOUND_OF_PRIMES < 10007 /\
  decode (2 ^ 10007) = Raise (ValueError (not_prime_power 10007)).
Proof.
  assert (H1 : Z.prime 10007).
  { apply factor_prime_iff. vm_compute. reflexivity. }
  assert (H2 : UPPERBOUND_OF_PRIMES < 10007) by (unfold UPPERBOUND_OF_PRIMES; lia).
  split; [exact H1|]. split; [exact H2|].
  exact (decode_rejects_prime_beyond_table 10007 H1 H2).
Defined.

(** X26: every string that [decode] returns is read by the lexer to the
    end, and has one token for each distinct prime factor of the
    number. *)
Theorem decode_returns_lexable_text (n : Z) (s : str) :
  decode n = Return s ->
  exists tokens, Lexer_scan Lexer_init s = Return tokens /\
    length tokens = length (grouped_factors n).
Proof. apply decode_lexes. Qed.

Lemma decode_returns_lexable_text_witness :
  decode (2 ^ 6 * 3 ^ 5 * 5 ^ 6) = Return (pystr "0=0") /\
  exists tokens, Lexer_scan Lexer_init (pystr "0=0") = Return tokens /\
    length tokens = length (grouped_factors (2 ^ 6 * 3 ^ 5 * 5 ^ 6)).
Proof.
  assert (H : decode (2 ^ 6 * 3 ^ 5 * 5 ^ 6) = Return (pystr "0=0")).
  { eval_with_PRIME_prefix. reflexivity. }
  split; [exact H|]. exact (decode_returns_lexable_text _ _ H).
Defined.

(** ** What [decode] makes of the numbers of [encode] *)

Lemma index_of_elem l seen :
  l ∈ seen -> seen !! index_of l seen = Some l /\ (index_of l seen < length seen)%nat.
Proof.
  induction seen as [|x seen IH]; [by intros ?%elem_of_nil|].
  cbn [index_of]. case_bool_decide as Hx; [subst; cbn; split; [done|lia]|].
  intros [->|Hin]%elem_of_cons; [done|]. destruct (IH Hin). cbn. split; [done|lia].
Qed.

Lemma index_of_app l p more : l ∈ p -> index_of l (p ++ more) = index_of l p.
Proof.
  induction p as [|x p IH]; [by intros ?%elem_of_nil|].
  cbn [app index_of]. case_bool_decide as Hx; [done|].
  intros [->|Hin]%elem_of_cons; [done|]. by rewrite IH.
Qed.

Lemma index_of_new l seen more : l ∉ seen -> index_of l (seen ++ l :: more) = length seen.
Proof.
  induction seen as [|x seen IH]; intros Hnew.
  - cbn. by rewrite bool_decide_eq_true_2.
  - cbn [app index_of length]. rewrite bool_decide_eq_false_2.
    + rewrite IH; [done|]. intros Hin. apply Hnew. by right.
    + intros ->. apply Hnew. left.
Qed.

Lemma elem_of_seen_step seen l : l ∈ seen_step seen l.
Proof.
  unfold seen_step. case_bool_decide; [done|]. apply elem_of_app. right. left.
Qed.

(** The names of a class are pairwise distinct. *)
Lemma var_name_inj (pool : list str) (a b c : N) (i j : nat) :
  pool = [[a]; [b]; [c]] -> NoDup pool -> var_name pool i = var_name pool j -> i = j.
Proof.
  intros -> Hnd. unfold var_name. change (length [[a]; [b]; [c]]) with 3%nat.
  pose proof (Nat.mod_upper_bound i 3 ltac:(lia)) as Hi.
  pose proof (Nat.mod_upper_bound j 3 ltac:(lia)) as Hj.
  assert (Hlook : forall k, (k < 3)%nat ->
            exists x, [[a]; [b]; [c]] !! k = Some [x] /\ [[a]; [b]; [c]] !!! k = [x]).
  { intros k Hk. destruct k as [|[|[|?]]]; [| | |lia]; by eexists. }
  destruct (Hlook _ Hi) as (x & Hx & ->). destruct (Hlook _ Hj) as (y & Hy & ->).
  intros Heq.
  assert (i / 3 = j / 3)%nat as Hdiv.
  { apply (f_equal length) in Heq. cbn [app length] in Heq.
    rewrite !length_replicate in Heq. lia. }
  injection Heq as <- _.
  pose proof (NoDup_lookup _ _ _ _ Hnd Hx Hy) as Hmod.
  pose proof (Nat.div_mod_eq i 3). pose proof (Nat.div_mod_eq j 3). lia.
Qed.

Lemma names_length pool n : length (names pool n) = n.
Proof. unfold names. by rewrite length_fmap, length_seq. Qed.

Lemma elem_of_names pool n i : (i < n)%nat -> var_name pool i ∈ names pool n.
Proof. intros Hi. apply list_elem_of_fmap. exists i. split; [done|]. apply elem_of_seq. lia. Qed.

Lemma names_S pool n : names pool (S n) = names pool n ++ [var_name pool n].
Proof. unfold names. by rewrite seq_S, fmap_app. Qed.

Lemma seen_step_names_old pool n i :
  (i < n)%nat -> seen_step (names pool n) (var_name pool i) = names pool n.
Proof. intros Hi. unfold seen_step. rewrite bool_decide_eq_true_2; [done|]. by apply elem_of_names. Qed.

Lemma seen_step_names_new pool n :
  (forall i j, var_name pool i = var_name pool j -> i = j) ->
  seen_step (names pool n) (var_name pool n) = names pool (S n).
Proof.
  intros Hinj. unfold seen_step. rewrite bool_decide_eq_false_2; [by rewrite names_S|].
  intros (i & Heq%Hinj & Hi%elem_of_seq)%list_elem_of_fmap. lia.
Qed.

(** *** One map *)

Lemma renamed_proper (R R2 : str -> str -> Prop) m m' :
  (forall a b, R a b <-> R2 a b) -> renamed R m m' -> renamed R2 m m'.
Proof.
  intros HR (Hsize & Hdom & Hdom' & Hval & Hnz). split_and!; [done| | | |done].
  - intros l [l' Hl']%Hdom. exists l'. by apply HR.
  - intros l' [l Hl]%Hdom'. exists l. by apply HR.
  - intros l l' Hll%HR. by apply Hval.
Qed.

Lemma renamed_empty (R : str -> str -> Prop) :
  (forall a b, ~ R a b) -> renamed R ∅ ∅.
Proof.
  intros HR. split_and!; [done| | | |].
  - intros l [? Hl]. by rewrite lookup_empty in Hl.
  - intros l [? Hl]. by rewrite lookup_empty in Hl.
  - intros l l' Hll. by destruct (HR l l').
  - intros l g. by rewrite lookup_empty.
Qed.

(** A lexeme met before: both maps hold its code. *)
Lemma renamed_seen R e m m' l l' :
  renamed R m m' -> R l l' ->
  exists g, lookup_or_assign e m l = Return (g, m) /\
    lookup_or_assign e m' l' = Return (g, m').
Proof.
  intros (_ & _ & _ & Hval & Hnz) Hll. destruct (Hval _ _ Hll) as [[g Hg] Heq].
  exists g. unfold lookup_or_assign. rewrite <- Heq, Hg.
  by rewrite found_code_nonzero by by eapply Hnz.
Qed.

(** A new lexeme: both maps enter the same code, under the lexeme and
    under its name. *)
Lemma renamed_new R e m m' l l' g m1 :
  0 <= e -> renamed R m m' -> (forall x, ~ R l x) -> (forall x, ~ R x l') ->
  lookup_or_assign e m l = Return (g, m1) ->
  exists m1', lookup_or_assign e m' l' = Return (g, m1') /\
    renamed (fun a b => R a b \/ a = l /\ b = l') m1 m1' /\
    size m1 = S (size m) /\ (PRIME_OFFSET + size m < length PRIME)%nat.
Proof.
  intros He (Hsize & Hdom & Hdom' & Hval & Hnz) Hl Hl'.
  assert (Hm : m !! l = None).
  { apply eq_None_not_Some. intros [x Hx]%Hdom. by destruct (Hl x). }
  assert (Hm' : m' !! l' = None).
  { apply eq_None_not_Some. intros [x Hx]%Hdom'. by destruct (Hl' x). }
  unfold lookup_or_assign. rewrite Hm, Hm', <- Hsize. cbn [found_code].
  destruct (PRIME_at _) as [p|e0] eqn:Hp; [|done]. rewrite !bind_Return.
  intros [= <- <-]. exists (<[l' := p ^ e]> m'). split; [done|].
  apply PRIME_at_Return in Hp. pose proof (lookup_lt_Some _ _ _ Hp) as Hlt.
  apply list_elem_of_lookup_2, PRIME_prime in Hp.
  pose proof (prime_pow_pos p e Hp He) as Hpos.
  split; [|split; [by rewrite map_size_insert_None|done]].
  split_and!.
  - by rewrite !map_size_insert_None, Hsize.
  - intros a [Ha|Ha]%lookup_insert_is_Some.
    + subst a. exists l'. by right.
    + destruct Ha as [_ [b Hb]%Hdom]. exists b. by left.
  - intros b [Hb|Hb]%lookup_insert_is_Some.
    + subst b. exists l. by right.
    + destruct Hb as [_ [a Ha]%Hdom']. exists a. by left.
  - intros a b [Hab|[-> ->]].
    + destruct (Hval _ _ Hab) as [Hsome Heq].
      assert (a ≠ l) by (intros ->; by destruct (Hl b)).
      assert (b ≠ l') by (intros ->; by destruct (Hl' a)).
      by rewrite !lookup_insert_ne.
    + rewrite !lookup_insert_eq. by split; [eexists|].
  - intros a g'. destruct (decide (a = l)) as [->|Hne].
    + rewrite lookup_insert_eq. intros [= <-]. lia.
    + rewrite lookup_insert_ne by done. apply Hnz.
Qed.

Lemma Rel2_sym pool1 seen1 pool2 seen2 a b :
  Rel2 pool1 seen1 pool2 seen2 a b <-> Rel2 pool2 seen2 pool1 seen1 a b.
Proof. unfold Rel2. tauto. Qed.

Lemma Rel2_snoc pool1 seen1 pool2 seen2 l a b :
  Rel2 pool1 (seen1 ++ [l]) pool2 seen2 a b <->
  Rel2 pool1 seen1 pool2 seen2 a b \/ a = l /\ b = var_name pool1 (length seen1).
Proof.
  unfold Rel2. split.
  - intros [(i & Hi & ->)|Hr]; [|by left; right].
    apply lookup_app_Some in Hi as [Hi|[Hlen Hi]]; [left; left; by exists i|].
    apply list_lookup_singleton_Some in Hi as [Hz ->]. right. split; [done|].
    f_equal. lia.
  - intros [[(i & Hi & ->)|Hr]|[-> ->]].
    + left. exists i. split; [|done]. by apply lookup_app_l_Some.
    + by right.
    + left. exists (length seen1). split; [|done].
      rewrite lookup_app_r by lia. by rewrite Nat.sub_diag.
Qed.

(** One variable of the first of two classes that share a map. *)
Lemma class_step pool1 seen1 pool2 seen2 e m m' l g m1 :
  0 <= e ->
  renamed (Rel2 pool1 seen1 pool2 seen2) m m' ->
  size m = (length seen1 + length seen2)%nat ->
  (forall i j, var_name pool1 i = var_name pool1 j -> i = j) ->
  (forall i j, (j < length seen2)%nat -> var_name pool1 i ≠ var_name pool2 j) ->
  l ∉ seen2 ->
  lookup_or_assign e m l = Return (g, m1) ->
  exists m1',
    lookup_or_assign e m' (var_name pool1 (index_of l (seen_step seen1 l)))
    = Return (g, m1') /\
    renamed (Rel2 pool1 (seen_step seen1 l) pool2 seen2) m1 m1' /\
    size m1 = (length (seen_step seen1 l) + length seen2)%nat /\
    (l ∈ seen1 \/ (l ∉ seen1) /\ has_room (S (length seen1 + length seen2))).
Proof.
  intros He Hren Hsize Hinj Hdisj Hl2 Hla. unfold seen_step.
  destruct (decide (l ∈ seen1)) as [Hin|Hnew].
  - rewrite bool_decide_eq_true_2 by done.
    destruct (index_of_elem _ _ Hin) as [Hidx _].
    destruct (renamed_seen _ e _ _ l (var_name pool1 (index_of l seen1)) Hren)
      as (g' & Hg & Hg').
    { left. by exists (index_of l seen1). }
    rewrite Hg in Hla. injection Hla as <- <-. exists m'. split_and!; try done. by left.
  - rewrite bool_decide_eq_false_2 by done. rewrite index_of_new by done.
    destruct (renamed_new _ e _ _ l (var_name pool1 (length seen1)) g m1 He Hren)
      as (m1' & Hg' & Hren' & Hsize1 & Hroom); [| |done|].
    + intros x [(i & Hi & _)|(j & Hj & _)].
      * apply Hnew. by eapply list_elem_of_lookup_2.
      * apply Hl2. by eapply list_elem_of_lookup_2.
    + intros x [(i & Hi & Heq)|(j & Hj & Heq)].
      * apply Hinj in Heq. apply lookup_lt_Some in Hi. lia.
      * apply lookup_lt_Some in Hj. by destruct (Hdisj (length seen1) j).
    + exists m1'. split_and!; [done| | |].
      * eapply renamed_proper; [|exact Hren']. intros a b. by rewrite Rel2_snoc.
      * rewrite length_app. cbn. lia.
      * right. split; [done|]. constructor. lia.
Qed.

(** *** The three classes *)

Lemma NUMERICAL_names_inj i j :
  var_name NUMERICAL_VARIABLES i = var_name NUMERICAL_VARIABLES j -> i = j.
Proof.
  apply (var_name_inj _ _ _ _ i j eq_refl). apply (bool_decide_unpack _). exact I.
Qed.

Lemma SENTNTIAL_names_inj i j :
  var_name SENTNTIAL_VARIABLES i = var_name SENTNTIAL_VARIABLES j -> i = j.
Proof.
  apply (var_name_inj _ _ _ _ i j eq_refl). apply (bool_decide_unpack _). exact I.
Qed.

Lemma PREDICATE_names_inj i j :
  var_name PREDICATE_VARIABLES i = var_name PREDICATE_VARIABLES j -> i = j.
Proof.
  apply (var_name_inj _ _ _ _ i j eq_refl). apply (bool_decide_unpack _). exact I.
Qed.

Lemma SENTNTIAL_PREDICATE_names i j :
  var_name SENTNTIAL_VARIABLES i ≠ var_name PREDICATE_VARIABLES j.
Proof.
  intros Heq. apply (sentntial_predicate_disjoint (var_name SENTNTIAL_VARIABLES i)).
  - by eapply var_name_lexeme.
  - rewrite Heq. by eapply var_name_lexeme.
Qed.

Lemma seen_step_old seen l : l ∈ seen -> seen_step seen l = seen.
Proof. intros Hin. unfold seen_step. by rewrite bool_decide_eq_true_2. Qed.

Lemma seen_step_new seen l : l ∉ seen -> seen_step seen l = seen ++ [l].
Proof. intros Hin. unfold seen_step. by rewrite bool_decide_eq_false_2. Qed.

Lemma names_admissible_step pool seen l n2 :
  (forall i j, var_name pool i = var_name pool j -> i = j) ->
  l ∈ seen \/ (l ∉ seen) /\ has_room (S (length seen + n2)) ->
  (var_name pool (index_of l (seen_step seen l)) ∈ names pool (length seen) \/
   var_name pool (index_of l (seen_step seen l))
   = var_name pool (length (names pool (length seen))) /\
   has_room (S (length (names pool (length seen)) + n2))) /\
  seen_step (names pool (length seen)) (var_name pool (index_of l (seen_step seen l)))
  = names pool (length (seen_step seen l)).
Proof.
  intros Hinj. rewrite names_length. intros [Hin|[Hnew Hroom]].
  - rewrite (seen_step_old seen l) by done.
    destruct (index_of_elem _ _ Hin) as [_ Hlt].
    split; [left; by apply elem_of_names|]. by apply seen_step_names_old.
  - rewrite (seen_step_new seen l) by done. rewrite index_of_new by done.
    split; [by right|]. rewrite length_app. cbn [length]. rewrite Nat.add_1_r.
    by apply seen_step_names_new.
Qed.

Lemma seen_after_one_eq ty seen l : seen_after ty seen [(ty, l)] = seen_step seen l.
Proof. by rewrite seen_after_cons_eq. Qed.

Lemma seen_after_one_ne ty ty' seen l : ty' ≠ ty -> seen_after ty seen [(ty', l)] = seen.
Proof. intros Hne. by rewrite seen_after_cons_ne. Qed.

(** One token, read by [encode] as it is and renamed. *)
Lemma sim_token E E' seenN seenS seenP ty l g E1 :
  sim E E' seenN seenS seenP -> token_wf (ty, l) ->
  lexmap ty E l = Return (g, E1) ->
  exists E1',
    lexmap ty E' (rename_token (seen_after numerical_type seenN [(ty, l)])
                    (seen_after sentntial_type seenS [(ty, l)])
                    (seen_after predicate_type seenP [(ty, l)]) (ty, l)).2
    = Return (g, E1') /\
    (rename_token (seen_after numerical_type seenN [(ty, l)])
       (seen_after sentntial_type seenS [(ty, l)])
       (seen_after predicate_type seenP [(ty, l)]) (ty, l)).1 = ty /\
    token_wf (rename_token (seen_after numerical_type seenN [(ty, l)])
                (seen_after sentntial_type seenS [(ty, l)])
                (seen_after predicate_type seenP [(ty, l)]) (ty, l)) /\
    encoding E1 = encoding E /\ encoding E1' = encoding E' /\
    sim E1 E1' (seen_after numerical_type seenN [(ty, l)])
      (seen_after sentntial_type seenS [(ty, l)])
      (seen_after predicate_type seenP [(ty, l)]) /\
    forall rest',
      admissible (names NUMERICAL_VARIABLES (length (seen_after numerical_type seenN [(ty, l)])))
        (names SENTNTIAL_VARIABLES (length (seen_after sentntial_type seenS [(ty, l)])))
        (names PREDICATE_VARIABLES (length (seen_after predicate_type seenP [(ty, l)])))
        rest' ->
      admissible (names NUMERICAL_VARIABLES (length seenN))
        (names SENTNTIAL_VARIABLES (length seenS))
        (names PREDICATE_VARIABLES (length seenP))
        (rename_token (seen_after numerical_type seenN [(ty, l)])
           (seen_after sentntial_type seenS [(ty, l)])
           (seen_after predicate_type seenP [(ty, l)]) (ty, l) :: rest').
Proof.
  intros (HN & HsN & HS & HsS & HlS & HlP) Hwf.
  inversion Hwf as [c Hc|c k Hc|c k Hc|c k Hc]; subst;
    rewrite ?seen_after_one_eq, ?seen_after_one_ne by discriminate;
    unfold rename_token; cbn [fst snd lexmap].
  - unfold encode_constant_sign. intros [= <- <-]. exists E'.
    split_and!; done.
  - rewrite !encode_numerical_variable_assign.
    destruct (lookup_or_assign 1 _ _) as [[g0 m1]|e0] eqn:Hla; [|done].
    rewrite bind_Return. intros [= <- <-].
    destruct (class_step NUMERICAL_VARIABLES seenN [] [] 1 (numerical_variables E)
                (numerical_variables E') (c :: replicate k TICK) g0 m1 ltac:(lia) HN HsN
                NUMERICAL_names_inj) as (m1' & Hla' & HN' & HsN' & Hadm).
    { cbn. lia. }
    { apply not_elem_of_nil. }
    { exact Hla. }
    rewrite Hla', bind_Return. eexists. split; [reflexivity|].
    split_and!; try done.
    + destruct (var_name_lexeme NUMERICAL_VARIABLES _ _ _
                  (index_of (c :: replicate k TICK) (seen_step seenN (c :: replicate k TICK)))
                  eq_refl) as (c' & k' & Hc' & ->). by constructor.
    + intros rest' Hrest. cbn [admissible].
      destruct (names_admissible_step NUMERICAL_VARIABLES seenN (c :: replicate k TICK) 0
                  NUMERICAL_names_inj Hadm) as [Hhead Hstep].
      rewrite Nat.add_0_r in Hhead. split; [exact Hhead|]. by rewrite Hstep.
  - rewrite !encode_sentntial_variable_assign.
    destruct (lookup_or_assign 2 _ _) as [[g0 m1]|e0] eqn:Hla; [|done].
    rewrite bind_Return. intros [= <- <-].
    destruct (class_step SENTNTIAL_VARIABLES seenS PREDICATE_VARIABLES seenP 2
                (sentntial_variables E) (sentntial_variables E') (c :: replicate k TICK)
                g0 m1 ltac:(lia) HS HsS SENTNTIAL_names_inj)
      as (m1' & Hla' & HS' & HsS' & Hadm).
    { intros i j _. apply SENTNTIAL_PREDICATE_names. }
    { intros Hin. apply (sentntial_predicate_disjoint (c :: replicate k TICK));
        [by exists c, k|]. by apply (proj1 (Forall_forall _ _) HlP). }
    { exact Hla. }
    rewrite Hla', bind_Return. eexists. split; [reflexivity|].
    split_and!; try done.
    + destruct (var_name_lexeme SENTNTIAL_VARIABLES _ _ _
                  (index_of (c :: replicate k TICK) (seen_step seenS (c :: replicate k TICK)))
                  eq_refl) as (c' & k' & Hc' & ->). by constructor.
    + split_and!; try done. unfold seen_step. case_bool_decide; [done|].
      apply Forall_app. split; [done|]. constructor; [by exists c, k|constructor].
    + intros rest' Hrest. cbn [admissible].
      destruct (names_admissible_step SENTNTIAL_VARIABLES seenS (c :: replicate k TICK)
                  (length seenP) SENTNTIAL_names_inj Hadm) as [Hhead Hstep].
      rewrite ?names_length in Hhead. rewrite !names_length.
      split; [exact Hhead|]. by rewrite Hstep.
  - rewrite !encode_predicate_variable_assign.
    destruct (lookup_or_assign 3 _ _) as [[g0 m1]|e0] eqn:Hla; [|done].
    rewrite bind_Return. intros [= <- <-].
    destruct (class_step PREDICATE_VARIABLES seenP SENTNTIAL_VARIABLES seenS 3
                (sentntial_variables E) (sentntial_variables E') (c :: replicate k TICK)
                g0 m1 ltac:(lia))
      as (m1' & Hla' & HS' & HsS' & Hadm).
    { eapply renamed_proper; [|exact HS]. intros a b. apply Rel2_sym. }
    { lia. }
    { apply PREDICATE_names_inj. }
    { intros i j _ Heq. by apply (SENTNTIAL_PREDICATE_names j i). }
    { intros Hin. apply (sentntial_predicate_disjoint (c :: replicate k TICK));
        [|by exists c, k]. by apply (proj1 (Forall_forall _ _) HlS). }
    { exact Hla. }
    rewrite Hla', bind_Return. eexists. split; [reflexivity|].
    split_and!; try done.
    + destruct (var_name_lexeme PREDICATE_VARIABLES _ _ _
                  (index_of (c :: replicate k TICK) (seen_step seenP (c :: replicate k TICK)))
                  eq_refl) as (c' & k' & Hc' & ->). by constructor.
    + split_and!; try done.
      * eapply renamed_proper; [|exact HS']. intros a b. apply Rel2_sym.
      * cbn [sentntial_variables]. lia.
      * unfold seen_step. case_bool_decide; [done|].
        apply Forall_app. split; [done|]. constructor; [by exists c, k|constructor].
    + intros rest' Hrest. cbn [admissible].
      destruct (names_admissible_step PREDICATE_VARIABLES seenP (c :: replicate k TICK)
                  (length seenS) PREDICATE_names_inj Hadm) as [Hhead Hstep].
      rewrite ?names_length in Hhead. rewrite !names_length.
      rewrite (Nat.add_comm (length seenP) (length seenS)) in Hhead.
      split; [exact Hhead|]. by rewrite Hstep.
Qed.

(** The name of a token does not depend on the tokens after it. *)
Lemma rename_token_final seenN seenS seenP ty l tokens :
  rename_token (seen_after numerical_type seenN ((ty, l) :: tokens))
    (seen_after sentntial_type seenS ((ty, l) :: tokens))
    (seen_after predicate_type seenP ((ty, l) :: tokens)) (ty, l)
  = rename_token (seen_after numerical_type seenN [(ty, l)])
      (seen_after sentntial_type seenS [(ty, l)])
      (seen_after predicate_type seenP [(ty, l)]) (ty, l).
Proof.
  destruct ty; unfold rename_token; cbn [fst snd]; [done|..];
    rewrite seen_after_cons_eq, seen_after_one_eq; unfold seen_after;
    match goal with
    | |- context [foldl seen_step (seen_step ?seen l) ?ls] =>
        destruct (foldl_seen_step_prefix ls (seen_step seen l)) as [more ->]
    end;
    by rewrite index_of_app by apply elem_of_seen_step.
Qed.

Lemma sim_maps E E' E1 E1' seenN seenS seenP :
  numerical_variables E1 = numerical_variables E ->
  sentntial_variables E1 = sentntial_variables E ->
  numerical_variables E1' = numerical_variables E' ->
  sentntial_variables E1' = sentntial_variables E' ->
  sim E E' seenN seenS seenP -> sim E1 E1' seenN seenS seenP.
Proof. unfold sim. by intros -> -> -> ->. Qed.

Lemma sim_init : sim State_init State_init [] [] [].
Proof.
  unfold sim. cbn [State_init numerical_variables sentntial_variables].
  split_and!; [|done| |done|constructor|constructor];
    apply renamed_empty; intros a b [(i & Hi & _)|(i & Hi & _)]; done.
Qed.

(** [encode] reads the renamed tokens as it reads the tokens, and gives the
    same codes. *)
Lemma sim_tokens tokens E E' seenN seenS seenP Efin :
  sim E E' seenN seenS seenP -> Forall token_wf tokens ->
  for_each encode_token E tokens = Return Efin ->
  exists Efin' codes,
    for_each encode_token E'
      (rename_token (seen_after numerical_type seenN tokens)
         (seen_after sentntial_type seenS tokens)
         (seen_after predicate_type seenP tokens) <$> tokens) = Return Efin' /\
    encoding Efin = encoding E ++ codes /\ encoding Efin' = encoding E' ++ codes /\
    Forall token_wf
      (rename_token (seen_after numerical_type seenN tokens)
         (seen_after sentntial_type seenS tokens)
         (seen_after predicate_type seenP tokens) <$> tokens) /\
    admissible (names NUMERICAL_VARIABLES (length seenN))
      (names SENTNTIAL_VARIABLES (length seenS))
      (names PREDICATE_VARIABLES (length seenP))
      (rename_token (seen_after numerical_type seenN tokens)
         (seen_after sentntial_type seenS tokens)
         (seen_after predicate_type seenP tokens) <$> tokens).
Proof.
  intros Hsim Hwf. revert E E' seenN seenS seenP Hsim.
  induction Hwf as [|[ty l] tokens Hwf _ IH]; intros E E' seenN seenS seenP Hsim.
  - intros [= <-]. exists E', []. rewrite !app_nil_r. split_and!; [done..|constructor|done].
  - cbn [for_each encode_token].
    destruct (lexmap ty E l) as [[g E1]|e] eqn:Hlex; [|by rewrite bind_Raise].
    rewrite !bind_Return. intros Hrun.
    destruct (sim_token _ _ _ _ _ _ _ _ _ Hsim Hwf Hlex)
      as (E1' & Hlex' & Hty & Hwf' & Henc & Henc' & Hsim1 & Hadm).
    set (E2 := {| encoding := encoding E1 ++ [g];
                  numerical_variables := numerical_variables E1;
                  sentntial_variables := sentntial_variables E1;
                  predicate_variables := predicate_variables E1 |}) in Hrun.
    set (E2' := {| encoding := encoding E1' ++ [g];
                   numerical_variables := numerical_variables E1';
                   sentntial_variables := sentntial_variables E1';
                   predicate_variables := predicate_variables E1' |}).
    assert (Hsim2 : sim E2 E2' (seen_after numerical_type seenN [(ty, l)])
                      (seen_after sentntial_type seenS [(ty, l)])
                      (seen_after predicate_type seenP [(ty, l)]))
      by (eapply sim_maps; [..|exact Hsim1]; reflexivity).
    destruct (IH E2 E2' _ _ _ Hsim2 Hrun)
      as (Efin' & codes & Hrun' & HencF & HencF' & Hwfs' & Hadm').
    cbn [encoding E2 E2'] in HencF, HencF'.
    exists Efin', (g :: codes). cbn [fmap list_fmap].
    rewrite rename_token_final.
    rewrite (seen_after_cons numerical_type seenN (ty, l) tokens),
      (seen_after_cons sentntial_type seenS (ty, l) tokens),
      (seen_after_cons predicate_type seenP (ty, l) tokens).
    destruct (rename_token (seen_after numerical_type seenN [(ty, l)])
                (seen_after sentntial_type seenS [(ty, l)])
                (seen_after predicate_type seenP [(ty, l)]) (ty, l)) as [ty' l'] eqn:Hren.
    cbn [fst snd] in Hlex', Hty. subst ty'.
    split_and!.
    + cbn [for_each encode_token]. rewrite Hlex', !bind_Return. exact Hrun'.
    + rewrite HencF, Henc, <- app_assoc. done.
    + rewrite HencF', Henc', <- app_assoc. done.
    + by constructor.
    + by apply Hadm.
Qed.

Lemma canonical_form_seen_after tokens :
  canonical_form tokens
  = rename_token (seen_after numerical_type [] tokens)
      (seen_after sentntial_type [] tokens)
      (seen_after predicate_type [] tokens) <$> tokens.
Proof. reflexivity. Qed.

Lemma tokens_of_empty (tokens : list token) :
  Forall token_wf tokens -> concat tokens.*2 = [] -> tokens = [].
Proof.
  destruct 1 as [|[ty l] tokens Hwf _]; [done|]. cbn [fmap list_fmap snd concat].
  apply token_wf_nonempty in Hwf. by destruct l.
Qed.

(** What [decode] makes of a number of [encode], and what [encode] makes
    of that text. *)
Lemma encode_then_decode (s : str) (tokens : list token) (n : Z) :
  Lexer_scan Lexer_init s = Return tokens -> encode s = Return n ->
  Forall token_wf (canonical_form tokens) /\
  decode n = Return (concat (canonical_form tokens).*2) /\
  encode (concat (canonical_form tokens).*2) = Return n.
Proof.
  intros Hscan Henc. destruct (decide (s = [])) as [->|Hs].
  - apply Lexer_scan_Return in Hscan as [Hconcat Hwf].
    rewrite (tokens_of_empty tokens Hwf (eq_sym Hconcat)).
    unfold encode in Henc. rewrite bool_decide_eq_true_2 in Henc by done.
    injection Henc as <-. split; [constructor|]. split; reflexivity.
  - pose proof (encode_cases s Hs) as Hcases. rewrite Hscan in Hcases.
    destruct Hcases as (Hwf & Hconcat & Hcases).
    destruct (for_each encode_token State_init tokens) as [st|e] eqn:Hrun;
      [|destruct Hcases as [Hn _]; by rewrite Hn in Henc].
    destruct Hcases as (codes & Hcodes & Hcls & Hpos & _ & [[Hlen Hn]|[_ Hn]]);
      rewrite Hn in Henc; [|done].
    injection Henc as <-.
    destruct (sim_tokens tokens _ _ _ _ _ _ sim_init Hwf Hrun)
      as (st' & codes' & Hrun' & Henc & Henc' & Hwf' & Hadm).
    rewrite <- canonical_form_seen_after in Hrun', Hwf', Hadm.
    cbn [encoding State_init app] in Henc, Henc'. rewrite Hcodes in Henc. subst codes'.
    pose proof (Forall2_length _ _ _ Hcls) as Hlencodes.
    assert (Hlen' : length (canonical_form tokens) = length tokens)
      by (unfold canonical_form; by rewrite length_fmap).
    pose proof (Lexer_scan_concat _ Hwf') as Hscan'.
    assert (Hencode' : encode (concat (canonical_form tokens).*2)
                       = Return (prod (zip_with Z.pow PRIME codes))).
    { unfold encode. rewrite bool_decide_eq_false_2.
      - cbn zeta. rewrite Hscan', bind_Return, Hrun', bind_Return, Henc'.
        unfold enumerate. rewrite generate_prime_power by lia.
        by rewrite bind_Return, drop_0.
      - intros Hnil. apply (tokens_of_empty _ Hwf') in Hnil.
        apply Hs. rewrite <- Hconcat.
        destruct tokens; [done|]. done. }
    split; [done|]. split; [|done].
    pose proof (decode_encode_admissible _ _ Hscan' ltac:(lia) Hadm) as Hde.
    unfold decode_encode in Hde. by rewrite Hencode', bind_Return in Hde.
Qed.

Lemma encode_Return_scan (s : str) (n : Z) :
  encode s = Return n -> exists tokens, Lexer_scan Lexer_init s = Return tokens.
Proof.
  unfold encode. case_bool_decide as Hs; [subst s; by exists []|].
  cbn zeta. destruct (Lexer_scan Lexer_init s) as [tokens|e]; [by exists tokens|].
  by rewrite bind_Raise.
Qed.

(** X27: [decode] accepts every number that [encode] returns, and gives the
    text of the tokens with the variables renamed: in each class, the
    [i]-th distinct variable in order of first occurrence gets the [i]-th
    name of the class. *)
Theorem decode_after_encode (s : str) (tokens : list token) (n : Z) :
  Lexer_scan Lexer_init s = Return tokens -> encode s = Return n ->
  decode n = Return (concat (canonical_form tokens).*2).
Proof. intros Hscan Henc. by destruct (encode_then_decode s tokens n Hscan Henc) as (_ & ? & _). Qed.

Lemma decode_after_encode_witness :
  Lexer_scan Lexer_init (pystr "y=x`")
  = Return [(numerical_type, pystr "y"); (constant_type, pystr "=");
            (numerical_type, pystr "x`")] /\
  encode (pystr "y=x`") = Return (2 ^ 13 * 3 ^ 5 * 5 ^ 17) /\
  decode (2 ^ 13 * 3 ^ 5 * 5 ^ 17)
  = Return (concat (canonical_form [(numerical_type, pystr "y"); (constant_type, pystr "=");
                                    (numerical_type, pystr "x`")]).*2) /\
  concat (canonical_form [(numerical_type, pystr "y"); (constant_type, pystr "=");
                          (numerical_type, pystr "x`")]).*2 = pystr "x=y".
Proof.
  assert (H1 : Lexer_scan Lexer_init (pystr "y=x`")
               = Return [(numerical_type, pystr "y"); (constant_type, pystr "=");
                         (numerical_type, pystr "x`")]) by (vm_compute; reflexivity).
  assert (H2 : encode (pystr "y=x`") = Return (2 ^ 13 * 3 ^ 5 * 5 ^ 17)).
  { eval_with_PRIME_prefix. reflexivity. }
  split; [exact H1|]. split; [exact H2|].
  split; [exact (decode_after_encode _ _ _ H1 H2)|reflexivity].
Defined.

(** X28: every number that [encode] returns is the number of the text that
    [decode] makes of it. *)
Theorem encode_after_decode (s : str) (n : Z) :
  encode s = Return n -> exists s', decode n = Return s' /\ encode s' = Return n.
Proof.
  intros Henc. destruct (encode_Return_scan s n Henc) as [tokens Hscan].
  destruct (encode_then_decode s tokens n Hscan Henc) as (_ & Hdec & Henc').
  by eexists.
Qed.

Lemma encode_after_decode_witness :
  encode (pystr "y=x`") = Return (2 ^ 13 * 3 ^ 5 * 5 ^ 17) /\
  exists s', decode (2 ^ 13 * 3 ^ 5 * 5 ^ 17) = Return s' /\
    encode s' = Return (2 ^ 13 * 3 ^ 5 * 5 ^ 17).
Proof.
  assert (H : encode (pystr "y=x`") = Return (2 ^ 13 * 3 ^ 5 * 5 ^ 17)).
  { eval_with_PRIME_prefix. reflexivity. }
  split; [exact H|]. exact (encode_after_decode _ _ H).
Defined.

(** X29: [decode] after [encode] is idempotent: when [decode (encode s)]
    returns [s'], [decode (encode s')] returns [s']. *)
Theorem decode_encode_idempotent (s s' : str) :
  decode_encode s = Return s' -> decode_encode s' = Return s'.
Proof.
  unfold decode_encode at 1. destruct (encode s) as [n|e] eqn:Henc; [|by rewrite bind_Raise].
  rewrite bind_Return. intros Hdec.
  destruct (encode_Return_scan s n Henc) as [tokens Hscan].
  destruct (encode_then_decode s tokens n Hscan Henc) as (_ & Hdec' & Henc').
  rewrite Hdec in Hdec'. injection Hdec' as ->.
  unfold decode_encode. by rewrite Henc', bind_Return.
Qed.

Lemma decode_encode_idempotent_witness :
  decode_encode (pystr "y=x`") = Return (pystr "x=y") /\
  decode_encode (pystr "x=y") = Return (pystr "x=y").
Proof.
  assert (H : decode_encode (pystr "y=x`") = Return (pystr "x=y")).
  { eval_with_PRIME_prefix. reflexivity. }
  split; [exact H|]. exact (decode_encode_idempotent _ _ H).
Defined.

(** X30: for each of the three pools, the name that [next_var_name] gives is
    a lexeme of the class, a letter of the pool followed by ticks, and
    maps of different sizes get different names. *)
Theorem next_var_name_distinct {K : Type} `{Countable K} (pool : list str)
    (assigned1 assigned2 : gmap K str) :
  pool ∈ [NUMERICAL_VARIABLES; SENTNTIAL_VARIABLES; PREDICATE_VARIABLES] ->
  is_lexeme pool (next_var_name assigned1 pool) /\
  (next_var_name assigned1 pool = next_var_name assigned2 pool ->
   size assigned1 = size assigned2).
Proof.
  intros Hpool. rewrite !next_var_name_size.
  assert (exists a b c, pool = [[a]; [b]; [c]] /\ NoDup pool) as (a & b & c & Hp & Hnd).
  { repeat (apply elem_of_cons in Hpool as [->|Hpool]); [..|by apply elem_of_nil in Hpool];
      do 3 eexists; (split; [reflexivity|]); apply (bool_decide_unpack _); exact I. }
  split; [by eapply var_name_lexeme|]. by eapply var_name_inj.
Qed.

Lemma next_var_name_distinct_witness :
  PREDICATE_VARIABLES ∈ [NUMERICAL_VARIABLES; SENTNTIAL_VARIABLES; PREDICATE_VARIABLES] /\
  is_lexeme PREDICATE_VARIABLES
    (next_var_name ({[ 4913 := pystr "P" ]} : gmap Z str) PREDICATE_VARIABLES) /\
  (next_var_name ({[ 4913 := pystr "P" ]} : gmap Z str) PREDICATE_VARIABLES
   = next_var_name (∅ : gmap Z str) PREDICATE_VARIABLES ->
   size ({[ 4913 := pystr "P" ]} : gmap Z str) = size (∅ : gmap Z str)).
Proof.
  assert (H : PREDICATE_VARIABLES
              ∈ [NUMERICAL_VARIABLES; SENTNTIAL_VARIABLES; PREDICATE_VARIABLES]).
  { right. right. left. }
  split; [exact H|].
  exact (next_var_name_distinct PREDICATE_VARIABLES {[ 4913 := pystr "P" ]} ∅ H).
Defined.
